(** * HappyRepair: the mechanics search backend

    A shallow embedding of the parts of the repository that carry behaviour:

    - [backend/src/api/routes/mechanics.ts] and [services.ts]: the request
      handlers of [GET /api/mechanics/nearby], [GET /api/mechanics/:id] and
      [GET /api/services];
    - [backend/src/database/schema/schema.sql]: the tables the handlers read,
      the triggers [update_mechanic_location] and [update_mechanic_rating],
      and the function [find_mechanics_within_radius].

    Conventions of the embedding.

    - A nullable SQL column is an [option]; a SQL condition is three-valued
      and a [WHERE] clause keeps a row only when the condition is [true]
      (see [is_true]).
    - [DECIMAL(_,2)] values and the results of [ROUND(_, 2)] are integers
      counting hundredths: [5.00] is [500].
    - PostgreSQL [double precision] and JavaScript numbers are modelled by
      exact rationals and decimals: the rounding to binary64 is left out.
    - What PostgreSQL and PostGIS bring (the geodesic distance, the text
      collation, the reading of a uuid) is a parameter, the class [Engine]. *)

From Stdlib Require Import List String Ascii Bool ZArith NArith QArith Qround.
From Stdlib Require Import Qabs Lia Lqa Permutation Sorted.
Import ListNotations.

Set Implicit Arguments.
Open Scope list_scope.

(** ** SQL values *)

Definition uuid := N.

(** A value with two decimals, in hundredths. *)
Definition numeric2 := Z.

(** [cond = true] in a [WHERE] or [ON] clause: a null condition drops the row. *)
Definition is_true (b : option bool) : bool :=
  match b with
  | Some true => true
  | _ => false
  end.

(** [GEOGRAPHY(POINT, 4326)]: [ST_SetSRID(ST_MakePoint(x, y), 4326)]. *)
Record geography := ST_MakePoint { point_x : Q; point_y : Q }.

(** What the database engine provides. [ST_Distance] is the geodesic distance
    of PostGIS in meters, [text_leb] the order of the collation of the
    database, [uuid_in] the reading of the text of a uuid ([None] is the
    error [invalid input syntax for type uuid]). *)
Class Engine := {
  ST_Distance : geography -> geography -> Q;
  text_leb : string -> string -> bool;
  uuid_in : string -> option uuid
}.

(** The laws of a collation: a total preorder. *)
Class Collation (E : Engine) := {
  text_leb_total : forall a b, text_leb a b = true \/ text_leb b a = true;
  text_leb_trans : forall a b c,
    text_leb a b = true -> text_leb b c = true -> text_leb a c = true
}.

(** [ROUND(x)] of a [numeric]: to the nearest integer, a tie away from zero. *)
Definition round_half_away (x : Q) : Z :=
  if Qle_bool 0 x then Qfloor (x + (1 # 2)) else (- Qfloor (- x + (1 # 2)))%Z.

(** [ROUND(x, 2)], in hundredths. *)
Definition ROUND2 (x : Q) : numeric2 := round_half_away (x * inject_Z 100).

(** ** The tables of schema.sql (the columns the modelled code reads) *)

Module Mechanic.
Record t := mk {
  id : uuid;
  business_name : string;
  latitude : option Q;
  longitude : option Q;
  location : option geography;
  rating : option numeric2;          (* DECIMAL(3,2) DEFAULT 0.0 *)
  review_count : option Z;           (* INTEGER DEFAULT 0 *)
  is_verified : option bool;         (* BOOLEAN DEFAULT false *)
  is_active : option bool            (* BOOLEAN DEFAULT true *)
}.

Definition set_location (m : t) (g : option geography) : t :=
  mk (id m) (business_name m) (latitude m) (longitude m) g
     (rating m) (review_count m) (is_verified m) (is_active m).

Definition set_rating (m : t) (r : option numeric2) (c : option Z) : t :=
  mk (id m) (business_name m) (latitude m) (longitude m) (location m)
     r c (is_verified m) (is_active m).
End Mechanic.

Module Service.
Record t := mk {
  id : uuid;
  name : string;                     (* NOT NULL *)
  category : option string;
  description : option string;
  estimated_duration : option Z;     (* DEFAULT 60 *)
  is_active : option bool            (* BOOLEAN DEFAULT true *)
}.
End Service.

Module ServiceTranslation.
Record t := mk {
  service_id : uuid;
  language_code : string;
  name : string;                     (* NOT NULL *)
  description : option string
}.
End ServiceTranslation.

Module MechanicService.
Record t := mk {
  mechanic_id : uuid;
  service_id : uuid;
  min_price : numeric2;              (* DECIMAL(8,2) NOT NULL *)
  max_price : numeric2;
  is_available : option bool         (* BOOLEAN DEFAULT true *)
}.
End MechanicService.

Module Review.
Record t := mk {
  id : uuid;
  mechanic_id : uuid;
  rating : Z;                        (* INTEGER NOT NULL CHECK 1..5 *)
  is_published : option bool         (* BOOLEAN DEFAULT true *)
}.
End Review.

Record db := mkdb {
  mechanics : list Mechanic.t;
  services : list Service.t;
  service_translations : list ServiceTranslation.t;
  mechanic_services : list MechanicService.t;
  reviews : list Review.t
}.


(** ** JavaScript: the conversions the handlers apply to query parameters

    A string is a sequence of code units below 256. A number is the decimal
    that was read: [Decimal neg m e] stands for [(-1)^neg * m * 10^e]. *)

Module JS.

Inductive number :=
| NaN
| Infinity (negative : bool)
| Decimal (negative : bool) (mantissa : N) (exponent : Z).

(** The mathematical value of a finite number. *)
Definition value (x : number) : option Q :=
  match x with
  | Decimal neg m e =>
      let q := (inject_Z (Z.of_N m) * Qpower (10 # 1) e)%Q in
      Some (if neg then Qopp q else q)
  | _ => None
  end.

(** [a < b] on numbers: false as soon as one side is [NaN]. *)
Definition lt (a b : number) : bool :=
  match a, b with
  | NaN, _ | _, NaN => false
  | Infinity na, Infinity nb => na && negb nb
  | Infinity na, Decimal _ _ _ => na
  | Decimal _ _ _, Infinity nb => negb nb
  | Decimal _ _ _, Decimal _ _ _ =>
      match value a, value b with
      | Some x, Some y => negb (Qle_bool y x)
      | _, _ => false
      end
  end.

Definition of_Z (z : Z) : number := Decimal (z <? 0)%Z (Z.abs_N z) 0.

(** WhiteSpace and LineTerminator code units below 256. *)
Definition is_whitespace (c : ascii) : bool :=
  existsb (N.eqb (N_of_ascii c)) [9; 10; 11; 12; 13; 32; 160]%N.

Fixpoint trim_start (s : list ascii) : list ascii :=
  match s with
  | c :: r => if is_whitespace c then trim_start r else s
  | [] => []
  end.

Definition digit_of (c : ascii) : option N :=
  let n := N_of_ascii c in
  if (48 <=? n)%N && (n <=? 57)%N then Some (n - 48)%N else None.

(** The longest run of decimal digits at the head of [s], and the rest. *)
Fixpoint take_digits (s : list ascii) : list N * list ascii :=
  match s with
  | c :: r =>
      match digit_of c with
      | Some d => let (ds, rest) := take_digits r in (d :: ds, rest)
      | None => ([], s)
      end
  | [] => ([], [])
  end.

Definition digits_value (radix : N) (ds : list N) : N :=
  fold_left (fun acc d => (radix * acc + d)%N) ds 0%N.

Definition take_sign (s : list ascii) : bool * list ascii :=
  match s with
  | "-"%char :: r => (true, r)
  | "+"%char :: r => (false, r)
  | _ => (false, s)
  end.

Fixpoint strip_prefix (p s : list ascii) : option (list ascii) :=
  match p, s with
  | [], _ => Some s
  | a :: p', b :: s' => if Ascii.eqb a b then strip_prefix p' s' else None
  | _ :: _, [] => None
  end.

(** ExponentPart: [e] or [E], an optional sign, at least one digit; when the
    digits are missing the literal ends before the [e]. *)
Definition take_exponent (s : list ascii) : Z :=
  match s with
  | c :: r =>
      if Ascii.eqb c "e" || Ascii.eqb c "E" then
        let (neg, r1) := take_sign r in
        match take_digits r1 with
        | ([], _) => 0%Z
        | (ds, _) =>
            let v := Z.of_N (digits_value 10 ds) in if neg then (- v)%Z else v
        end
      else 0%Z
  | [] => 0%Z
  end.

(** [parseFloat(string)]: leading white space is skipped, the longest prefix
    that is a StrDecimalLiteral is read, and there being none gives [NaN]. *)
Definition parseFloat (input : string) : number :=
  let (neg, s1) := take_sign (trim_start (list_ascii_of_string input)) in
  match strip_prefix (list_ascii_of_string "Infinity") s1 with
  | Some _ => Infinity neg
  | None =>
      let (int_part, s2) := take_digits s1 in
      let (frac_part, s3) :=
        match s2 with
        | "."%char :: r => take_digits r
        | _ => ([], s2)
        end in
      match int_part, frac_part with
      | [], [] => NaN
      | _, _ =>
          Decimal neg (digits_value 10 (int_part ++ frac_part))
                  (take_exponent s3 - Z.of_nat (List.length frac_part))
      end
  end.

(** The value of a digit or letter as a digit of [parseInt]. *)
Definition radix_digit (c : ascii) : option N :=
  let n := N_of_ascii c in
  if (48 <=? n)%N && (n <=? 57)%N then Some (n - 48)%N
  else if (97 <=? n)%N && (n <=? 122)%N then Some (n - 87)%N
  else if (65 <=? n)%N && (n <=? 90)%N then Some (n - 55)%N
  else None.

Fixpoint take_radix_digits (radix : N) (s : list ascii) : list N * list ascii :=
  match s with
  | c :: r =>
      match radix_digit c with
      | Some d =>
          if (d <? radix)%N
          then let (ds, rest) := take_radix_digits radix r in (d :: ds, rest)
          else ([], s)
      | None => ([], s)
      end
  | [] => ([], [])
  end.

Definition strip_hex_prefix (s : list ascii) : option (list ascii) :=
  match s with
  | "0"%char :: c :: r =>
      if Ascii.eqb c "x" || Ascii.eqb c "X" then Some r else None
  | _ => None
  end.

(** [parseInt(string, radix)]: leading white space is skipped, a sign is
    read, [0x] is skipped when the radix is 16 or 0, then the longest run of
    digits of the radix is read; no digit gives [NaN], and so does a radix
    outside 2..36 other than 0, which stands for 10. *)
Definition parseInt (input : string) (radix : Z) : number :=
  let (neg, s1) := take_sign (trim_start (list_ascii_of_string input)) in
  if negb (radix =? 0)%Z && ((radix <? 2)%Z || (36 <? radix)%Z) then NaN
  else
    let (R, s2) :=
      if (radix =? 0)%Z || (radix =? 16)%Z then
        match strip_hex_prefix s1 with
        | Some r => (16%N, r)
        | None => (if (radix =? 0)%Z then 10%N else 16%N, s1)
        end
      else (Z.to_N radix, s1) in
    match take_radix_digits R s2 with
    | ([], _) => NaN
    | (ds, _) => Decimal neg (digits_value R ds) 0
    end.

(** ToBoolean of a query parameter: [undefined] and the empty string are
    falsy. *)
Definition truthy (v : option string) : bool :=
  match v with
  | None => false
  | Some s => negb (String.eqb s "")
  end.

End JS.

(** ** The request handlers

    [database.query(text, params)] is a call of one of the three statements
    the routes hold, with its parameters. What the pool answers is the
    handler's first argument [run], whose [None] is a rejected promise. Each
    handler returns its response and the statements it has executed, in
    order. Query parameters are those given once (a string, or [None] when
    absent); repeated and bracketed keys are not modelled. *)

Inductive sql_call :=
| SelectFindMechanicsWithinRadius (p1 p2 p3 : JS.number)
| SelectMechanicById (p1 : string)
| SelectServices (p1 : string).

(** A row of [find_mechanics_within_radius]. *)
Record nearby_row := mk_nearby_row {
  nr_id : uuid;
  nr_business_name : string;
  nr_distance_miles : option numeric2;
  nr_rating : option numeric2;
  nr_min_price : option numeric2;
  nr_max_price : option numeric2
}.

(** A row of the statement of [GET /api/mechanics/:id]: [m.*] and the
    aggregated [services]. *)
Record mechanic_row := mk_mechanic_row {
  mr_mechanic : Mechanic.t;
  mr_services : option (list string)
}.

(** A row of the statement of [GET /api/services]. *)
Record service_row := mk_service_row {
  sr_id : uuid;
  sr_category : option string;
  sr_estimated_duration : option Z;
  sr_name : string;
  sr_description : option string
}.

Inductive body :=
| ErrorBody (message : string)
| NearbyBody (mechanics : list nearby_row) (latitude longitude radius : JS.number)
| MechanicBody (mechanic : mechanic_row)
| ServicesBody (services : list service_row) (language : string).

Record response := mk_response { status : Z; json : body }.

Record nearby_query := mk_nearby_query {
  q_latitude : option string;
  q_longitude : option string;
  q_radius : option string
}.

(** [const { latitude, longitude, radius = 10 } = req.query] followed by
    [parseInt(radius as string, 10)]: the default is the number 10, whose
    string is "10". *)
Definition radius_of (q : nearby_query) : JS.number :=
  JS.parseInt (match q_radius q with Some s => s | None => "10"%string end) 10.

Definition param_text (v : option string) : string :=
  match v with Some s => s | None => ""%string end.

Section Handlers.

Variable run_nearby : JS.number -> JS.number -> JS.number -> option (list nearby_row).
Variable run_mechanic : string -> option (list mechanic_row).
Variable run_services : string -> option (list service_row).

(** [router.get('/nearby', ...)] of routes/mechanics.ts. *)
Definition nearby (q : nearby_query) : response * list sql_call :=
  if negb (JS.truthy (q_latitude q)) || negb (JS.truthy (q_longitude q)) then
    (mk_response 400 (ErrorBody "Latitude and longitude are required"), [])
  else
    let lat := JS.parseFloat (param_text (q_latitude q)) in
    let lng := JS.parseFloat (param_text (q_longitude q)) in
    let radius := radius_of q in
    let executed := [SelectFindMechanicsWithinRadius lat lng radius] in
    match run_nearby lat lng radius with
    | Some rows => (mk_response 200 (NearbyBody rows lat lng radius), executed)
    | None =>
        (mk_response 500 (ErrorBody "Failed to find nearby mechanics"), executed)
    end.

(** [app.get('/api/mechanics/nearby', ...)] of the stand-alone [server.ts]
    that the safe set-up script writes: the same handler with a range check
    between the parsing and the query. *)
Definition server_nearby (q : nearby_query) : response * list sql_call :=
  if negb (JS.truthy (q_latitude q)) || negb (JS.truthy (q_longitude q)) then
    (mk_response 400 (ErrorBody "latitude and longitude parameters are required"), [])
  else
    let lat := JS.parseFloat (param_text (q_latitude q)) in
    let lng := JS.parseFloat (param_text (q_longitude q)) in
    let radiusMiles := radius_of q in
    if JS.lt lat (JS.of_Z (-90)) || JS.lt (JS.of_Z 90) lat
       || JS.lt lng (JS.of_Z (-180)) || JS.lt (JS.of_Z 180) lng then
      (mk_response 400
         (ErrorBody "Invalid coordinates. Latitude: -90 to 90, Longitude: -180 to 180"),
       [])
    else
      let executed := [SelectFindMechanicsWithinRadius lat lng radiusMiles] in
      match run_nearby lat lng radiusMiles with
      | Some rows =>
          (mk_response 200 (NearbyBody rows lat lng radiusMiles), executed)
      | None =>
          (mk_response 500 (ErrorBody "Failed to find nearby mechanics"), executed)
      end.

(** [router.get('/:id', ...)] of routes/mechanics.ts. *)
Definition get_mechanic (id : string) : response * list sql_call :=
  let executed := [SelectMechanicById id] in
  match run_mechanic id with
  | Some [] => (mk_response 404 (ErrorBody "Mechanic not found"), executed)
  | Some (row :: _) => (mk_response 200 (MechanicBody row), executed)
  | None => (mk_response 500 (ErrorBody "Failed to get mechanic details"), executed)
  end.

(** [router.get('/', ...)] of routes/services.ts, with
    [const { language = 'en' } = req.query]. *)
Definition get_services (language : option string) : response * list sql_call :=
  let lang := match language with Some s => s | None => "en"%string end in
  let executed := [SelectServices lang] in
  match run_services lang with
  | Some rows => (mk_response 200 (ServicesBody rows lang), executed)
  | None => (mk_response 500 (ErrorBody "Failed to get services"), executed)
  end.

End Handlers.

(** ** SQL operators *)

(** [text LIKE pattern] with the default escape character: [%] stands for
    any run of characters, [_] for any one, and a backslash takes the next
    pattern character literally. A pattern that ends in a lone backslash is
    an error in PostgreSQL; the patterns built below end in [%], so that
    case, [false] here, is never reached. *)
Fixpoint like (pattern text : list ascii) : bool :=
  match pattern with
  | [] => match text with [] => true | _ :: _ => false end
  | "%"%char :: p =>
      (fix any (t : list ascii) : bool :=
         like p t || match t with [] => false | _ :: t' => any t' end) text
  | "_"%char :: p =>
      match text with [] => false | _ :: t => like p t end
  | "\"%char :: c :: p =>
      match text with [] => false | c' :: t => Ascii.eqb c c' && like p t end
  | "\"%char :: [] => false
  | c :: p =>
      match text with [] => false | c' :: t => Ascii.eqb c c' && like p t end
  end.

(** Lower case of the letters A to Z; other code units are kept. *)
Definition lower_char (c : ascii) : ascii :=
  let n := N_of_ascii c in
  if (65 <=? n)%N && (n <=? 90)%N then ascii_of_N (n + 32) else c.

Definition lower (s : string) : list ascii :=
  map lower_char (list_ascii_of_string s).

(** [text ILIKE pattern]: both sides are put in lower case, then [LIKE]. *)
Definition ilike (text pattern : string) : bool :=
  like (lower pattern) (lower text).

(** [ST_DWithin(a, b, d)]: the distance of [a] and [b] is at most [d]. *)
Definition ST_DWithin {E : Engine} (a b : geography) (d : Q) : bool :=
  Qle_bool (ST_Distance a b) d.

Section Relational.

Variable R : Type.

(** [ORDER BY]: insertion of each row after the rows that are not greater.
    PostgreSQL leaves the order of rows with equal keys open; the model
    keeps them in the order of its input. *)
Fixpoint insert_row (leb : R -> R -> bool) (r : R) (sorted : list R) : list R :=
  match sorted with
  | [] => [r]
  | x :: rest => if leb x r then x :: insert_row leb r rest else r :: sorted
  end.

Definition order_by (leb : R -> R -> bool) (rows : list R) : list R :=
  fold_left (fun acc r => insert_row leb r acc) rows [].

(** [GROUP BY]: a group is its first row and the later rows with the same
    key; groups come in the order of their first rows. *)
Fixpoint add_to_groups (same : R -> R -> bool) (r : R) (gs : list (R * list R))
  : list (R * list R) :=
  match gs with
  | [] => [(r, [])]
  | (first, others) :: gs' =>
      if same first r then (first, others ++ [r]) :: gs'
      else (first, others) :: add_to_groups same r gs'
  end.

Definition group_by (same : R -> R -> bool) (rows : list R) : list (R * list R) :=
  fold_left (fun gs r => add_to_groups same r gs) rows [].

Definition group_rows (g : R * list R) : list R := fst g :: snd g.

(** The order of a boolean comparison, as a relation. *)
Definition le_of (leb : R -> R -> bool) (a b : R) : Prop := leb a b = true.

End Relational.

(** Ascending order of a nullable key: nulls last. *)
Definition nulls_last {A} (leb : A -> A -> bool) (a b : option A) : bool :=
  match a, b with
  | Some x, Some y => leb x y
  | Some _, None => true
  | None, Some _ => false
  | None, None => true
  end.

(** [ORDER BY k1, k2]: the second key decides between rows equal on the
    first. *)
Definition then_by {A} (leb1 leb2 : A -> A -> bool) (a b : A) : bool :=
  if leb1 a b then (if leb1 b a then leb2 a b else true) else false.

Definition option_eqb {A} (eqb : A -> A -> bool) (a b : option A) : bool :=
  match a, b with
  | Some x, Some y => eqb x y
  | None, None => true
  | _, _ => false
  end.

Definition geography_eqb (a b : geography) : bool :=
  Qeq_bool (point_x a) (point_x b) && Qeq_bool (point_y a) (point_y b).

(** [MIN] and [MAX] of a column that is not null: null over no row. *)
Definition MIN (l : list Z) : option Z :=
  match l with [] => None | x :: r => Some (fold_left Z.min r x) end.

Definition MAX (l : list Z) : option Z :=
  match l with [] => None | x :: r => Some (fold_left Z.max r x) end.

Definition SUM (l : list Z) : Z := fold_left Z.add l 0%Z.

(** [AVG] of an integer column: null over no row. *)
Definition AVG (l : list Z) : option Q :=
  match l with
  | [] => None
  | _ :: _ => Some (inject_Z (SUM l) / inject_Z (Z.of_nat (List.length l)))
  end.

Definition COUNT {A} (l : list A) : Z := Z.of_nat (List.length l).

(** ** find_mechanics_within_radius (schema.sql) *)

Definition miles_per_meter : Q := 621371 # 1000000000.   (* 0.000621371 *)
Definition meters_per_mile : Q := 160934 # 100.          (* 1609.34 *)

Definition joined := (Mechanic.t * MechanicService.t * Service.t)%type.

(** [FROM mechanics m JOIN mechanic_services ms ON m.id = ms.mechanic_id
     JOIN services s ON ms.service_id = s.id] *)
Definition from_mechanics_join (d : db) : list joined :=
  flat_map (fun m =>
    flat_map (fun ms =>
      if N.eqb (Mechanic.id m) (MechanicService.mechanic_id ms) then
        flat_map (fun s =>
          if N.eqb (MechanicService.service_id ms) (Service.id s)
          then [(m, ms, s)] else [])
          (services d)
      else [])
      (mechanic_services d))
    (mechanics d).

(** The arguments of the function, none of them null but [service_filter],
    which is null when it is not given. *)
Section FindMechanics.

Context {E : Engine}.
Variable d : db.
Variables search_lat search_lng : Q.
Variable radius_miles : Z.
Variable service_filter : option string.

Definition search_point : geography := ST_MakePoint search_lng search_lat.

Definition within_radius (m : Mechanic.t) : bool :=
  match Mechanic.location m with
  | Some g => ST_DWithin g search_point (inject_Z radius_miles * meters_per_mile)
  | None => false
  end.

Definition matches_filter (s : Service.t) : bool :=
  match service_filter with
  | None => true
  | Some f => ilike (Service.name s) ("%" ++ f ++ "%")
  end.

Definition where_clause (r : joined) : bool :=
  let '(m, ms, s) := r in
  is_true (Mechanic.is_active m)
  && is_true (Mechanic.is_verified m)
  && is_true (MechanicService.is_available ms)
  && within_radius m
  && matches_filter s.

(** [GROUP BY m.id, m.business_name, m.location, m.rating] *)
Definition same_group (a b : joined) : bool :=
  let '(m1, _, _) := a in
  let '(m2, _, _) := b in
  N.eqb (Mechanic.id m1) (Mechanic.id m2)
  && String.eqb (Mechanic.business_name m1) (Mechanic.business_name m2)
  && option_eqb geography_eqb (Mechanic.location m1) (Mechanic.location m2)
  && option_eqb Z.eqb (Mechanic.rating m1) (Mechanic.rating m2).

Definition distance_miles (m : Mechanic.t) : option numeric2 :=
  match Mechanic.location m with
  | Some g => Some (ROUND2 (ST_Distance g search_point * miles_per_meter))
  | None => None
  end.

Definition select_row (g : joined * list joined) : nearby_row :=
  let '(m, _, _) := fst g in
  let offers := map (fun r : joined => snd (fst r)) (group_rows g) in
  mk_nearby_row (Mechanic.id m) (Mechanic.business_name m) (distance_miles m)
    (Mechanic.rating m)
    (MIN (map MechanicService.min_price offers))
    (MAX (map MechanicService.max_price offers)).

(** [ORDER BY distance_miles ASC] *)
Definition by_distance_miles (a b : nearby_row) : bool :=
  nulls_last Z.leb (nr_distance_miles a) (nr_distance_miles b).

Definition find_mechanics_within_radius : list nearby_row :=
  order_by by_distance_miles
    (map select_row
       (group_by same_group (filter where_clause (from_mechanics_join d)))).

End FindMechanics.

(** ** Triggers and writes (schema.sql) *)

(** [update_mechanic_location()], BEFORE INSERT OR UPDATE ON mechanics. *)
Definition update_mechanic_location (NEW : Mechanic.t) : Mechanic.t :=
  match Mechanic.latitude NEW, Mechanic.longitude NEW with
  | Some lat, Some lng => Mechanic.set_location NEW (Some (ST_MakePoint lng lat))
  | _, _ => NEW
  end.

Definition has_mechanic (d : db) (id : uuid) : bool :=
  existsb (fun m => N.eqb (Mechanic.id m) id) (mechanics d).

(** [INSERT INTO mechanics]: the primary key is checked, the row trigger
    runs on the new row. *)
Definition insert_mechanic (m : Mechanic.t) (d : db) : option db :=
  if has_mechanic d (Mechanic.id m) then None
  else Some (mkdb (mechanics d ++ [update_mechanic_location m]) (services d)
               (service_translations d) (mechanic_services d) (reviews d)).

(** [UPDATE mechanics SET ... WHERE id = target], the assignment being [set]
    (which leaves [id] alone): the row trigger runs on each new row. *)
Definition update_mechanics (target : uuid) (set : Mechanic.t -> Mechanic.t)
    (d : db) : db :=
  mkdb (map (fun m => if N.eqb (Mechanic.id m) target
                      then update_mechanic_location (set m) else m)
            (mechanics d))
       (services d) (service_translations d) (mechanic_services d) (reviews d).

(** The ratings of the rows of
    [FROM reviews WHERE mechanic_id = id AND is_published = true]. *)
Definition published_ratings (d : db) (id : uuid) : list Z :=
  map Review.rating
    (filter (fun r => N.eqb (Review.mechanic_id r) id
                      && is_true (Review.is_published r))
            (reviews d)).

(** [update_mechanic_rating()], AFTER INSERT OR UPDATE ON reviews. *)
Definition update_mechanic_rating (NEW : Review.t) (d : db) : db :=
  let published := published_ratings d (Review.mechanic_id NEW) in
  update_mechanics (Review.mechanic_id NEW)
    (fun m => Mechanic.set_rating m
                (option_map ROUND2 (AVG published))
                (Some (COUNT published)))
    d.

(** The constraints of a row of [reviews] that the model carries: the check
    on [rating] and the reference to [mechanics]. *)
Definition review_ok (d : db) (r : Review.t) : bool :=
  (1 <=? Review.rating r)%Z && (Review.rating r <=? 5)%Z
  && has_mechanic d (Review.mechanic_id r).

Definition set_reviews (d : db) (l : list Review.t) : db :=
  mkdb (mechanics d) (services d) (service_translations d)
       (mechanic_services d) l.

(** [INSERT INTO reviews]: [None] when a constraint rejects the row. *)
Definition insert_review (r : Review.t) (d : db) : option db :=
  if review_ok d r
     && negb (existsb (fun x => N.eqb (Review.id x) (Review.id r)) (reviews d))
  then Some (update_mechanic_rating r (set_reviews d (reviews d ++ [r])))
  else None.

(** [UPDATE reviews SET mechanic_id = .., rating = .., is_published = ..
     WHERE id = target]: the trigger runs once for each new row, after the
    statement has changed the table. *)
Definition update_review (target : uuid) (set : Review.t -> Review.t) (d : db)
  : option db :=
  let new_row r :=
    Review.mk (Review.id r) (Review.mechanic_id (set r)) (Review.rating (set r))
              (Review.is_published (set r)) in
  let changed := map new_row
    (filter (fun r => N.eqb (Review.id r) target) (reviews d)) in
  if forallb (review_ok d) changed then
    Some (fold_left (fun acc NEW => update_mechanic_rating NEW acc) changed
            (set_reviews d
               (map (fun r => if N.eqb (Review.id r) target then new_row r else r)
                    (reviews d))))
  else None.

(** A mechanic as [INSERT] leaves it when the aggregates are not given: the
    column defaults [rating = 0.0] and [review_count = 0]. *)
Definition new_mechanic (id : uuid) (name : string) (lat lng : option Q)
    (verified active : option bool) : Mechanic.t :=
  Mechanic.mk id name lat lng None (Some 0%Z) (Some 0%Z) verified active.

(** ** The statement of GET /api/services (routes/services.ts) *)

Section Statements.

Context {E : Engine}.

Definition translated := (Service.t * option ServiceTranslation.t)%type.

(** [ON s.id = st.service_id AND st.language_code = $1] *)
Definition translates (language : string) (s : Service.t)
    (st : ServiceTranslation.t) : bool :=
  N.eqb (Service.id s) (ServiceTranslation.service_id st)
  && String.eqb (ServiceTranslation.language_code st) language.

(** [FROM services s LEFT JOIN service_translations st ON ...] *)
Definition from_services_left_join (d : db) (language : string) : list translated :=
  flat_map (fun s =>
    match filter (translates language s) (service_translations d) with
    | [] => [(s, None)]
    | sts => map (fun st => (s, Some st)) sts
    end)
    (services d).

(** [COALESCE(st.name, s.name)] *)
Definition resolved_name (r : translated) : string :=
  match snd r with
  | Some st => ServiceTranslation.name st
  | None => Service.name (fst r)
  end.

(** [COALESCE(st.description, s.description)] *)
Definition resolved_description (r : translated) : option string :=
  match snd r with
  | Some st =>
      match ServiceTranslation.description st with
      | Some text => Some text
      | None => Service.description (fst r)
      end
  | None => Service.description (fst r)
  end.

Definition select_service (r : translated) : service_row :=
  mk_service_row (Service.id (fst r)) (Service.category (fst r))
    (Service.estimated_duration (fst r)) (resolved_name r)
    (resolved_description r).

(** [ORDER BY s.category, s.name] *)
Definition by_category_name (a b : translated) : bool :=
  then_by
    (fun x y => nulls_last text_leb (Service.category (fst x)) (Service.category (fst y)))
    (fun x y => text_leb (Service.name (fst x)) (Service.name (fst y)))
    a b.

Definition select_services (d : db) (language : string) : list service_row :=
  map select_service
    (order_by by_category_name
       (filter (fun r : translated => is_true (Service.is_active (fst r)))
               (from_services_left_join d language))).

(** ** The statement of GET /api/mechanics/:id (routes/mechanics.ts) *)

Definition offered :=
  (Mechanic.t * option MechanicService.t * option Service.t)%type.

(** The rows that the two left joins make of one mechanic. *)
Definition left_join_offers (d : db) (m : Mechanic.t) : list offered :=
  match filter (fun ms => N.eqb (Mechanic.id m) (MechanicService.mechanic_id ms))
               (mechanic_services d) with
  | [] => [(m, None, None)]
  | mss =>
      flat_map (fun ms =>
        match filter (fun s => N.eqb (MechanicService.service_id ms) (Service.id s))
                     (services d) with
        | [] => [(m, Some ms, None)]
        | ss => map (fun s => (m, Some ms, Some s)) ss
        end) mss
  end.

(** [FROM mechanics m LEFT JOIN mechanic_services ms ON m.id = ms.mechanic_id
     LEFT JOIN services s ON ms.service_id = s.id] *)
Definition from_mechanics_left_join (d : db) : list offered :=
  flat_map (left_join_offers d) (mechanics d).

(** [array_agg(DISTINCT s.name) FILTER (WHERE s.name IS NOT NULL)]: null when
    no row of the group passes the filter, else the distinct names in the
    order of the collation. *)
Definition names_of (rows : list offered) : list string :=
  flat_map (fun r : offered =>
              match snd r with Some s => [Service.name s] | None => [] end) rows.

Definition array_agg_distinct_names (rows : list offered) : option (list string) :=
  match names_of rows with
  | [] => None
  | names => Some (order_by text_leb (nodup string_dec names))
  end.

Definition select_mechanic (g : offered * list offered) : mechanic_row :=
  mk_mechanic_row (fst (fst (fst g))) (array_agg_distinct_names (group_rows g)).

(** [WHERE m.id = u AND m.is_active = true] *)
Definition wanted (u : uuid) (r : offered) : bool :=
  N.eqb (Mechanic.id (fst (fst r))) u
  && is_true (Mechanic.is_active (fst (fst r))).

(** [GROUP BY m.id] *)
Definition same_mechanic (a b : offered) : bool :=
  N.eqb (Mechanic.id (fst (fst a))) (Mechanic.id (fst (fst b))).

(** The statement with [$1 = id]. A text that is not a uuid makes the
    statement fail. *)
Definition select_mechanic_by_id (d : db) (id : string) : option (list mechanic_row) :=
  match uuid_in id with
  | None => None
  | Some u =>
      Some (map select_mechanic
              (group_by same_mechanic
                 (filter (wanted u) (from_mechanics_left_join d))))
  end.

End Statements.

(** ** An engine to run the examples on

    The order of code units for the collation (the [C] collation), a uuid
    read as thirty-two hexadecimal digits with optional hyphens, and, in
    place of the geodesic distance of PostGIS, 111320 meters for each degree
    of difference in latitude and in longitude. *)

Fixpoint read_hex (s : list ascii) (count : nat) (acc : N) : option (nat * N) :=
  match s with
  | [] => Some (count, acc)
  | c :: r =>
      if Ascii.eqb c "-" then read_hex r count acc
      else match JS.radix_digit c with
           | Some h =>
               if (h <? 16)%N then read_hex r (S count) (16 * acc + h)%N
               else None
           | None => None
           end
  end.

Definition hex_uuid (s : string) : option uuid :=
  match read_hex (list_ascii_of_string s) 0 0%N with
  | Some (32%nat, v) => Some v
  | _ => None
  end.

Definition degrees_apart (a b : geography) : Q :=
  (Qabs (point_x a - point_x b) + Qabs (point_y a - point_y b)) * inject_Z 111320.

#[export] Instance example_engine : Engine := {
  ST_Distance := degrees_apart;
  text_leb := String.leb;
  uuid_in := hex_uuid
}.

(** ** The words of the specification

    "Matching the substring filter case-insensitively": the filter, in lower
    case, is a run of consecutive characters of the name in lower case. *)

Fixpoint starts_with (prefix text : list ascii) : bool :=
  match prefix, text with
  | [], _ => true
  | a :: p, b :: t => Ascii.eqb a b && starts_with p t
  | _ :: _, [] => false
  end.

Fixpoint has_substring (sub text : list ascii) : bool :=
  starts_with sub text
  || match text with [] => false | _ :: t => has_substring sub t end.

Definition contains_ignoring_case (name filter : string) : bool :=
  has_substring (lower filter) (lower name).

(** The characters that [LIKE] reads as more than themselves. *)
Definition like_special (c : ascii) : bool :=
  Ascii.eqb c "%" || Ascii.eqb c "_" || Ascii.eqb c "\".

(** A filter without them. *)
Definition plain_filter (f : string) : bool :=
  forallb (fun c => negb (like_special c)) (list_ascii_of_string f).


(** ** Example data *)

Module Examples.

Definition oil_change : Service.t :=
  Service.mk 1%N "Oil Change" (Some "Maintenance"%string)
    (Some "Standard oil and filter change"%string) (Some 30%Z) (Some true).

(** A verified, active mechanic as [INSERT INTO mechanics] stores it. *)
Definition shop (id : uuid) (name : string) (lat lng : Q) : Mechanic.t :=
  update_mechanic_location
    (new_mechanic id name (Some lat) (Some lng) (Some true) (Some true)).

Definition offer (mechanic service : uuid) (low high : numeric2) : MechanicService.t :=
  MechanicService.mk mechanic service low high (Some true).

(** The scenario of the specification: a mechanic at (34.0522, -118.2437)
    that offers "Oil Change" for 30 to 50. *)
Definition los_angeles : db :=
  mkdb [shop 10%N "LA Auto" (340522 # 10000) (-1182437 # 10000)]
       [oil_change] [] [offer 10%N 1%N 3000%Z 5000%Z] [].

(** Two mechanics north of the point (0, 0), the first 1616 meters away and
    the second 1611 meters away in the example engine: 1.0041 and 1.0010
    miles. *)
Definition far_shop : Mechanic.t := shop 10%N "Far" (1616 # 111320) 0.
Definition near_shop : Mechanic.t := shop 11%N "Near" (1611 # 111320) 0.

Definition two_shops : db :=
  mkdb [far_shop; near_shop] [oil_change] []
       [offer 10%N 1%N 3000%Z 5000%Z; offer 11%N 1%N 2000%Z 4000%Z] [].

(** A mechanic that was stored without coordinates, and one that is not
    verified, both at no distance from (0, 0) otherwise. *)
Definition no_location_shop : Mechanic.t :=
  update_mechanic_location
    (new_mechanic 12%N "Nowhere" None None (Some true) (Some true)).

Definition unverified_shop : Mechanic.t :=
  update_mechanic_location
    (new_mechanic 13%N "Unverified" (Some 0) (Some 0) (Some false) (Some true)).

Definition mixed_shops : db :=
  mkdb [far_shop; no_location_shop; unverified_shop] [oil_change] []
       [offer 10%N 1%N 3000%Z 5000%Z; offer 12%N 1%N 2000%Z 4000%Z; offer 13%N 1%N 1000%Z 2000%Z] [].

End Examples.


(** ** Example requests and pools *)

Module Requests.

(** A pool whose database holds no mechanic, and one whose query fails. *)
Definition empty_pool (_ _ _ : JS.number) : option (list nearby_row) := Some [].
Definition failing_pool (_ _ _ : JS.number) : option (list nearby_row) := None.

Definition request (latitude longitude : string) (radius : option string)
  : nearby_query :=
  mk_nearby_query (Some latitude) (Some longitude) radius.

Definition los_angeles_lat : JS.number := JS.Decimal false 340522 (-4).
Definition los_angeles_lng : JS.number := JS.Decimal true 1182437 (-4).

End Requests.


(** A mechanic that is active and not verified, with two offerings: one that
    is not available, and one of a service that is not active. *)
Module Detail.

Definition brake_check : Service.t :=
  Service.mk 2%N "Brake Inspection" (Some "Safety"%string) None (Some 45%Z)
    (Some false).

Definition garage : Mechanic.t :=
  update_mechanic_location
    (new_mechanic 213916071241125512485712096724000442897%N "Garage"
       (Some 0) (Some 0) (Some false) (Some true)).

Definition garage_id : string := "a0eebc99-9c0b-4ef8-bb6d-6bb9bd380a11".

Definition idle_garage : Mechanic.t :=
  update_mechanic_location
    (new_mechanic 1%N "Idle" (Some 0) (Some 0) (Some true) (Some true)).

Definition idle_garage_id : string := "00000000-0000-0000-0000-000000000001".

Definition garages : db :=
  mkdb [garage; idle_garage] [Examples.oil_change; brake_check] []
       [MechanicService.mk 213916071241125512485712096724000442897%N 1%N
          3000%Z 5000%Z (Some false);
        MechanicService.mk 213916071241125512485712096724000442897%N 2%N
          4000%Z 6000%Z (Some true)]
       [].

End Detail.


(** Two services of the sample data of schema.sql, with their Spanish
    translations. *)
Module Catalog.

Definition ac_service : Service.t :=
  Service.mk 6%N "AC Service" (Some "Repair"%string)
    (Some "Air conditioning system service"%string) (Some 90%Z) (Some true).

Definition belt_replacement : Service.t :=
  Service.mk 3%N "Belt Replacement" (Some "Repair"%string)
    (Some "Drive belt or timing belt replacement"%string) (Some 120%Z) (Some true).

Definition ac_service_es : ServiceTranslation.t :=
  ServiceTranslation.mk 6%N "es" "Servicio de Aire Acondicionado"
    (Some "Servicio del sistema de aire acondicionado"%string).

Definition belt_replacement_es : ServiceTranslation.t :=
  ServiceTranslation.mk 3%N "es" "Reemplazo de Correa" None.

Definition sample : db :=
  mkdb [] [belt_replacement; ac_service] [ac_service_es; belt_replacement_es] [] [].

End Catalog.


(** "The mean of the ratings, rounded to 2 decimal places", in hundredths. *)
Definition rounded_mean (ratings : list Z) : numeric2 :=
  ROUND2 (inject_Z (SUM ratings) / inject_Z (Z.of_nat (List.length ratings))).

(** The aggregates of the mechanics with this id are those that the rating
    trigger computes from the reviews of [d]. *)
Definition rating_recomputed (d : db) (id : uuid) : Prop :=
  forall m, In m (mechanics d) -> Mechanic.id m = id ->
    Mechanic.rating m = option_map ROUND2 (AVG (published_ratings d id))
    /\ Mechanic.review_count m = Some (COUNT (published_ratings d id)).

(** A mechanic that has just been registered, and its reviews to come. *)
Module Ratings.

Definition registered : db :=
  mkdb [new_mechanic 10%N "LA Auto" None None (Some true) (Some true)] [] [] [] [].

Definition review (id : uuid) (rating : Z) (published : bool) : Review.t :=
  Review.mk id 10%N rating (Some published).

Definition aggregates (d : option db) : option (list (option numeric2 * option Z)) :=
  option_map
    (fun d => map (fun m => (Mechanic.rating m, Mechanic.review_count m)) (mechanics d))
    d.

Definition and_then (d : option db) (write : db -> option db) : option db :=
  match d with Some d => write d | None => None end.

(** The three writes of the scenario of the specification, and the states
    they lead to. *)
Definition first_review : Review.t := review 1%N 5%Z true.
Definition second_review : Review.t := review 2%N 3%Z true.
Definition hidden_review : Review.t := review 3%N 1%Z false.

Definition stored (r : Review.t) (d : db) : db :=
  update_mechanic_rating r (set_reviews d (reviews d ++ [r])).

Definition after_first : db := stored first_review registered.
Definition after_second : db := stored second_review after_first.
Definition after_hidden : db := stored hidden_review after_second.

End Ratings.


(** ** The view active_mechanics_with_services (schema.sql)

    The columns of the view that the modelled tables hold. *)

Record view_row := mk_view_row {
  vr_id : uuid;
  vr_business_name : string;
  vr_latitude : option Q;
  vr_longitude : option Q;
  vr_rating : option numeric2;
  vr_review_count : option Z;
  vr_services : option (list string);
  vr_min_service_price : option numeric2;
  vr_max_service_price : option numeric2
}.

(** [WHERE m.is_active = true AND m.is_verified = true
     AND ms.is_available = true] *)
Definition view_where (r : joined) : bool :=
  let '(m, ms, _) := r in
  is_true (Mechanic.is_active m)
  && is_true (Mechanic.is_verified m)
  && is_true (MechanicService.is_available ms).

(** [GROUP BY m.id] *)
Definition same_joined_mechanic (a b : joined) : bool :=
  N.eqb (Mechanic.id (fst (fst a))) (Mechanic.id (fst (fst b))).

(** [array_agg(DISTINCT x)] of a column that is not null: null over no row,
    else the distinct values in the order of the collation. *)
Definition array_agg_distinct {E : Engine} (values : list string)
  : option (list string) :=
  match values with
  | [] => None
  | _ :: _ => Some (order_by text_leb (nodup string_dec values))
  end.

Definition select_view {E : Engine} (g : joined * list joined) : view_row :=
  let m := fst (fst (fst g)) in
  let offers := map (fun r : joined => snd (fst r)) (group_rows g) in
  mk_view_row (Mechanic.id m) (Mechanic.business_name m)
    (Mechanic.latitude m) (Mechanic.longitude m)
    (Mechanic.rating m) (Mechanic.review_count m)
    (array_agg_distinct
       (map (fun r : joined => Service.name (snd r)) (group_rows g)))
    (MIN (map MechanicService.min_price offers))
    (MAX (map MechanicService.max_price offers)).

Definition active_mechanics_with_services {E : Engine} (d : db) : list view_row :=
  map select_view
    (group_by same_joined_mechanic (filter view_where (from_mechanics_join d))).

(** ** Writes to mechanic_services (schema.sql)

    [INSERT INTO mechanic_services]: the constraints of the table that the
    model carries are [CHECK (min_price <= max_price)], the two references
    and [UNIQUE(mechanic_id, service_id)]. *)

Definition has_service (d : db) (id : uuid) : bool :=
  existsb (fun s => N.eqb (Service.id s) id) (services d).

Definition same_offering (a b : MechanicService.t) : bool :=
  N.eqb (MechanicService.mechanic_id a) (MechanicService.mechanic_id b)
  && N.eqb (MechanicService.service_id a) (MechanicService.service_id b).

Definition offering_ok (d : db) (ms : MechanicService.t) : bool :=
  (MechanicService.min_price ms <=? MechanicService.max_price ms)%Z
  && has_mechanic d (MechanicService.mechanic_id ms)
  && has_service d (MechanicService.service_id ms)
  && negb (existsb (same_offering ms) (mechanic_services d)).

Definition insert_mechanic_service (ms : MechanicService.t) (d : db) : option db :=
  if offering_ok d ms
  then Some (mkdb (mechanics d) (services d) (service_translations d)
               (mechanic_services d ++ [ms]) (reviews d))
  else None.

(** ** Predicates on a database *)

(** The location of a mechanic that has both coordinates is their point. *)
Definition location_derived (m : Mechanic.t) : Prop :=
  forall lat lng,
    Mechanic.latitude m = Some lat -> Mechanic.longitude m = Some lng ->
    Mechanic.location m = Some (ST_MakePoint lng lat).

(** The check of [reviews.rating] holds of every stored review. *)
Definition ratings_checked (d : db) : Prop :=
  forall r, In r (reviews d) -> (1 <= Review.rating r <= 5)%Z.

(** The check of the prices holds of every stored offering. *)
Definition prices_checked (d : db) : Prop :=
  forall ms, In ms (mechanic_services d) ->
    (MechanicService.min_price ms <= MechanicService.max_price ms)%Z.

(** [UPDATE mechanics SET latitude = NULL, longitude = NULL]. *)
Definition clear_coordinates (m : Mechanic.t) : Mechanic.t :=
  Mechanic.mk (Mechanic.id m) (Mechanic.business_name m) None None
    (Mechanic.location m) (Mechanic.rating m) (Mechanic.review_count m)
    (Mechanic.is_verified m) (Mechanic.is_active m).

(** A distance is not negative. *)
Class Distance (E : Engine) := {
  ST_Distance_nonneg : forall a b, 0 <= ST_Distance a b
}.

(** What the search reads of a mechanic. *)
Definition searched_alike (m m' : Mechanic.t) : Prop :=
  Mechanic.id m' = Mechanic.id m
  /\ Mechanic.location m' = Mechanic.location m
  /\ Mechanic.is_active m' = Mechanic.is_active m
  /\ Mechanic.is_verified m' = Mechanic.is_verified m.

(** The columns of [UNIQUE(mechanic_id, service_id)]. *)
Definition offering_key (ms : MechanicService.t) : uuid * uuid :=
  (MechanicService.mechanic_id ms, MechanicService.service_id ms).

(** The key of [mechanic_services] holds of the stored offerings. *)
Definition offerings_unique (d : db) : Prop :=
  NoDup (map offering_key (mechanic_services d)).


(** ** The services handler of the stand-alone server

    [app.get('/api/services', ...)] of the [server.ts] that the safe set-up
    script writes, with [const language = req.query.language || 'en'] and the
    statement of the route. The [count] of its answer is the length of the
    rows; the text of the failure that its 500 carries is left out. *)
Definition server_get_services (run_services : string -> option (list service_row))
    (language : option string) : response * list sql_call :=
  let lang := if JS.truthy language then param_text language else "en"%string in
  let executed := [SelectServices lang] in
  match run_services lang with
  | Some rows => (mk_response 200 (ServicesBody rows lang), executed)
  | None => (mk_response 500 (ErrorBody "Failed to fetch services"), executed)
  end.


(** ** More example data *)

Module Listing.

(** The garage of [Detail], verified. *)
Definition garage : Mechanic.t :=
  Examples.shop 213916071241125512485712096724000442897%N "Garage" 0 0.

Definition garages : db :=
  mkdb [Detail.idle_garage; garage] (services Detail.garages) []
       (mechanic_services Detail.garages) [].

(** Two mechanics and a published review of the first. *)
Definition two_mechanics : db :=
  mkdb [new_mechanic 10%N "First" None None (Some true) (Some true);
        new_mechanic 11%N "Second" None None (Some true) (Some true)]
       [] [] [] [].

Definition reviewed : db :=
  Ratings.stored (Review.mk 1%N 10%N 5%Z (Some true)) two_mechanics.

(** [UPDATE reviews SET mechanic_id = 11 WHERE id = ...] *)
Definition move_to_second (r : Review.t) : Review.t :=
  Review.mk (Review.id r) 11%N (Review.rating r) (Review.is_published r).

End Listing.


(** * Properties *)

(** The keys of a table of the examples are distinct, by computation. *)
Ltac distinct_keys := vm_compute; repeat constructor; simpl; intuition discriminate.

(** ** Ordering and grouping *)

Section RelationalFacts.

Variable R : Type.
Variable leb : R -> R -> bool.

Lemma insert_row_perm (r : R) (l : list R) :
  Permutation (insert_row leb r l) (r :: l).
Proof.
  induction l as [|x l IH]; simpl.
  - apply Permutation_refl.
  - destruct (leb x r).
    + apply Permutation_trans with (x :: r :: l).
      * now apply perm_skip.
      * apply perm_swap.
    + apply Permutation_refl.
Qed.

Lemma fold_insert_perm (rows acc : list R) :
  Permutation (fold_left (fun a r => insert_row leb r a) rows acc) (rows ++ acc).
Proof.
  revert acc; induction rows as [|x rows IH]; intro acc; simpl.
  - apply Permutation_refl.
  - eapply Permutation_trans; [apply IH|].
    eapply Permutation_trans.
    + apply Permutation_app_head, insert_row_perm.
    + apply Permutation_sym, Permutation_middle.
Qed.

Lemma order_by_perm (rows : list R) : Permutation (order_by leb rows) rows.
Proof.
  unfold order_by.
  eapply Permutation_trans; [apply fold_insert_perm|].
  now rewrite app_nil_r.
Qed.

Lemma order_by_In (rows : list R) (r : R) : In r (order_by leb rows) <-> In r rows.
Proof.
  split; apply Permutation_in;
    [apply order_by_perm | apply Permutation_sym, order_by_perm].
Qed.

Hypothesis leb_total : forall a b, leb a b = true \/ leb b a = true.

Lemma insert_row_hd (r x : R) (l : list R) :
  le_of leb x r -> HdRel (le_of leb) x l ->
  HdRel (le_of leb) x (insert_row leb r l).
Proof.
  intros Hxr Hhd; destruct l as [|y l]; simpl.
  - now constructor.
  - destruct (leb y r); constructor; auto.
    now inversion Hhd.
Qed.

Lemma insert_row_sorted (r : R) (l : list R) :
  Sorted (le_of leb) l -> Sorted (le_of leb) (insert_row leb r l).
Proof.
  induction 1 as [|x l Hs IH Hhd]; simpl.
  - repeat constructor.
  - destruct (leb x r) eqn:Hx.
    + constructor; [exact IH|]. now apply insert_row_hd.
    + constructor.
      * now constructor.
      * constructor. destruct (leb_total x r) as [H'|H']; [congruence|exact H'].
Qed.

Lemma order_by_sorted (rows : list R) : Sorted (le_of leb) (order_by leb rows).
Proof.
  unfold order_by.
  assert (G : forall acc, Sorted (le_of leb) acc ->
            Sorted (le_of leb) (fold_left (fun a r => insert_row leb r a) rows acc)).
  { induction rows as [|x xs IH]; intros acc Hacc; simpl; [exact Hacc|].
    apply IH, insert_row_sorted, Hacc. }
  apply G; constructor.
Qed.

Hypothesis leb_trans :
  forall a b c, le_of leb a b -> le_of leb b c -> le_of leb a c.

Lemma order_by_strongly_sorted (rows : list R) :
  StronglySorted (le_of leb) (order_by leb rows).
Proof.
  apply Sorted_StronglySorted; [|apply order_by_sorted].
  intros a b c; apply leb_trans.
Qed.

End RelationalFacts.

Section GroupFacts.

Variable R : Type.
Variable same : R -> R -> bool.

Lemma add_to_groups_rows (r x : R) (gs : list (R * list R)) (g : R * list R) :
  In g (add_to_groups same r gs) -> In x (group_rows g) ->
  x = r \/ exists g', In g' gs /\ In x (group_rows g').
Proof.
  revert g; induction gs as [|[f others] gs IH]; intros g Hg Hx; simpl in Hg.
  - destruct Hg as [<-|[]]. destruct Hx as [<-|[]]. now left.
  - destruct (same f r).
    + destruct Hg as [<-|Hg].
      * unfold group_rows in Hx; simpl in Hx.
        destruct Hx as [<-|Hx].
        -- right; exists (f, others); split; [now left|now left].
        -- apply in_app_or in Hx. destruct Hx as [Hx|[<-|[]]]; [|now left].
           right; exists (f, others); split; [now left|now right].
      * right; exists g; split; [now right|exact Hx].
    + destruct Hg as [<-|Hg].
      * right; exists (f, others); split; [now left|exact Hx].
      * destruct (IH g Hg Hx) as [->|[g' [Hg' Hx']]]; [now left|].
        right; exists g'; split; [now right|exact Hx'].
Qed.

Lemma fold_groups_rows (rows : list R) (gs : list (R * list R)) (g : R * list R) (x : R) :
  In g (fold_left (fun acc r => add_to_groups same r acc) rows gs) ->
  In x (group_rows g) ->
  In x rows \/ exists g', In g' gs /\ In x (group_rows g').
Proof.
  revert gs; induction rows as [|r rows IH]; intros gs Hg Hx; simpl in Hg.
  - right; now exists g.
  - destruct (IH _ Hg Hx) as [H|[g' [Hg' Hx']]].
    + left; now right.
    + destruct (@add_to_groups_rows r x gs g' Hg' Hx') as [->|H]; [left; now left|now right].
Qed.

(** The rows of a group are rows of the input. *)
Lemma group_by_rows (rows : list R) (g : R * list R) (x : R) :
  In g (group_by same rows) -> In x (group_rows g) -> In x rows.
Proof.
  intros Hg Hx.
  destruct (@fold_groups_rows rows [] g x Hg Hx) as [H|[g' [[] _]]]; exact H.
Qed.

Lemma fold_groups_single (rows : list R) (first : R) (others : list R) :
  (forall x, In x rows -> same first x = true) ->
  fold_left (fun acc r => add_to_groups same r acc) rows [(first, others)]
  = [(first, others ++ rows)].
Proof.
  revert others; induction rows as [|r rows IH]; intros others Hall; simpl.
  - now rewrite app_nil_r.
  - rewrite (Hall r (or_introl eq_refl)).
    rewrite IH by (intros x Hx; apply Hall; now right).
    now rewrite <- app_assoc.
Qed.

(** Rows that all share the key of the first one make one group. *)
Lemma group_by_single (first : R) (rest : list R) :
  (forall x, In x rest -> same first x = true) ->
  group_by same (first :: rest) = [(first, rest)].
Proof.
  intro Hall; unfold group_by; simpl.
  now rewrite fold_groups_single.
Qed.

End GroupFacts.

(** ** Rounding *)

Lemma round_half_away_nonneg (x : Q) :
  0 <= x -> round_half_away x = Qfloor (x + (1 # 2)).
Proof.
  intro H; unfold round_half_away.
  now rewrite (proj2 (Qle_bool_iff 0 x) H).
Qed.

Lemma round_half_away_neg (x : Q) :
  x < 0 -> round_half_away x = (- Qfloor (- x + (1 # 2)))%Z.
Proof.
  intro H; unfold round_half_away.
  destruct (Qle_bool 0 x) eqn:E; [|reflexivity].
  apply Qle_bool_iff in E. exfalso. apply (Qlt_irrefl 0).
  eapply Qle_lt_trans; eauto.
Qed.

Lemma Qfloor_half_nonneg (x : Q) : 0 <= x -> (0 <= Qfloor (x + (1 # 2)))%Z.
Proof.
  intro H.
  change 0%Z with (Qfloor 0). apply Qfloor_resp_le.
  apply Qle_trans with x; [exact H|].
  rewrite <- (Qplus_0_r x) at 1. apply Qplus_le_r. discriminate.
Qed.

(** Rounding is monotone. *)
Lemma round_half_away_le (x y : Q) :
  x <= y -> (round_half_away x <= round_half_away y)%Z.
Proof.
  intro Hxy.
  destruct (Qlt_le_dec x 0) as [Hx|Hx]; destruct (Qlt_le_dec y 0) as [Hy|Hy].
  - rewrite (round_half_away_neg Hx), (round_half_away_neg Hy).
    apply Z.opp_le_mono. rewrite !Z.opp_involutive.
    apply Qfloor_resp_le, Qplus_le_l, Qopp_le_compat, Hxy.
  - rewrite (round_half_away_neg Hx), (round_half_away_nonneg Hy).
    assert (0 <= Qfloor (- x + (1 # 2)))%Z.
    { apply Qfloor_half_nonneg. apply Qlt_le_weak.
      rewrite <- (Qopp_involutive 0) in Hx |- *.
      change (- - 0) with 0. apply Qopp_lt_compat in Hx. exact Hx. }
    pose proof (Qfloor_half_nonneg Hy). lia.
  - exfalso. apply (Qlt_irrefl 0).
    apply Qle_lt_trans with x; [exact Hx|]. now apply Qle_lt_trans with y.
  - rewrite (round_half_away_nonneg Hx), (round_half_away_nonneg Hy).
    apply Qfloor_resp_le, Qplus_le_l, Hxy.
Qed.

Lemma round_half_away_Z (z : Z) : round_half_away (inject_Z z) = z.
Proof.
  unfold round_half_away, Qle_bool, Qfloor; simpl.
  destruct (0 <=? z * 1)%Z eqn:E.
  - apply Z.leb_le in E.
    symmetry; apply (Z.div_unique _ _ _ 1%Z); lia.
  - apply Z.leb_gt in E.
    assert ((- z * 2 + 1) / 2 = - z)%Z as ->.
    { symmetry; apply (Z.div_unique _ _ _ 1%Z); lia. }
    lia.
Qed.

Lemma ROUND2_le (x y : Q) : x <= y -> (ROUND2 x <= ROUND2 y)%Z.
Proof.
  intro H; apply round_half_away_le.
  apply Qmult_le_compat_r; [exact H|discriminate].
Qed.

(** [ROUND(z, 2)] of a whole number [z] is [z.00]. *)
Lemma ROUND2_Z (z : Z) : ROUND2 (inject_Z z) = (100 * z)%Z.
Proof.
  unfold ROUND2.
  assert (inject_Z z * inject_Z 100 == inject_Z (100 * z)) as Heq.
  { rewrite inject_Z_mult. ring. }
  apply Z.le_antisymm.
  - rewrite <- (round_half_away_Z (100 * z)).
    apply round_half_away_le. rewrite Heq. apply Qle_refl.
  - rewrite <- (round_half_away_Z (100 * z)) at 1.
    apply round_half_away_le. rewrite Heq. apply Qle_refl.
Qed.

(** The rounded value is within half a hundredth of the exact one. *)
Lemma round_half_away_close (x : Q) :
  x - (1 # 2) <= inject_Z (round_half_away x) <= x + (1 # 2).
Proof.
  destruct (Qlt_le_dec x 0) as [Hx|Hx].
  - rewrite (round_half_away_neg Hx).
    pose proof (Qfloor_le (- x + (1 # 2))) as Hlo.
    pose proof (Qlt_floor (- x + (1 # 2))) as Hhi.
    rewrite inject_Z_plus in Hhi. rewrite inject_Z_opp.
    set (f := inject_Z (Qfloor (- x + (1 # 2)))) in *.
    change (inject_Z 1) with 1 in Hhi.
    split.
    + apply Qopp_le_compat in Hlo.
      eapply Qle_trans; [|exact Hlo].
      ring_simplify. apply Qle_refl.
    + apply Qlt_le_weak in Hhi. apply Qopp_le_compat in Hhi.
      apply Qle_trans with (- - x + - (1 # 2) + 1).
      * apply Qplus_le_l with (z := - 1). ring_simplify.
        ring_simplify in Hhi. exact Hhi.
      * ring_simplify. apply Qle_refl.
  - rewrite (round_half_away_nonneg Hx).
    pose proof (Qfloor_le (x + (1 # 2))) as Hlo.
    pose proof (Qlt_floor (x + (1 # 2))) as Hhi.
    rewrite inject_Z_plus in Hhi. change (inject_Z 1) with 1 in Hhi.
    split; [|exact Hlo].
    apply Qlt_le_weak in Hhi.
    apply Qplus_le_l with (z := 1). ring_simplify.
    ring_simplify in Hhi. exact Hhi.
Qed.

(** Rows in the order of their rounded values are in the order of the
    exact values up to a hundredth. *)
Lemma ROUND2_le_tolerance (x y : Q) :
  (ROUND2 x <= ROUND2 y)%Z -> x <= y + (1 # 100).
Proof.
  unfold ROUND2. intro H. rewrite Zle_Qle in H.
  destruct (round_half_away_close (x * inject_Z 100)) as [Hx _].
  destruct (round_half_away_close (y * inject_Z 100)) as [_ Hy].
  change (inject_Z 100) with (100 # 1) in *. lra.
Qed.

(** ** Keys *)

Lemma NoDup_map_eq {A B} (f : A -> B) (l : list A) (a b : A) :
  NoDup (map f l) -> In a l -> In b l -> f a = f b -> a = b.
Proof.
  induction l as [|x l IH]; simpl; intros Hnd Ha Hb Hf; [contradiction|].
  inversion Hnd as [|y ys Hnotin Hnd']; subst.
  destruct Ha as [->|Ha]; destruct Hb as [->|Hb]; auto.
  - exfalso; apply Hnotin. rewrite Hf. now apply in_map.
  - exfalso; apply Hnotin. rewrite <- Hf. now apply in_map.
Qed.

Lemma is_true_Some (b : option bool) : is_true b = true <-> b = Some true.
Proof. destruct b as [[|]|]; simpl; split; congruence. Qed.

(** ** The proximity search *)

Lemma from_mechanics_join_In (d : db) m ms s :
  In (m, ms, s) (from_mechanics_join d) <->
  In m (mechanics d) /\ In ms (mechanic_services d) /\ In s (services d)
  /\ Mechanic.id m = MechanicService.mechanic_id ms
  /\ MechanicService.service_id ms = Service.id s.
Proof.
  unfold from_mechanics_join. rewrite in_flat_map. split.
  - intros [m' [Hm H]]. apply in_flat_map in H. destruct H as [ms' [Hms H]].
    destruct (N.eqb_spec (Mechanic.id m') (MechanicService.mechanic_id ms')) as [e1|];
      [|contradiction].
    apply in_flat_map in H. destruct H as [s' [Hs H]].
    destruct (N.eqb_spec (MechanicService.service_id ms') (Service.id s')) as [e2|];
      [|contradiction].
    destruct H as [H|[]]. inversion H; subst. tauto.
  - intros (Hm & Hms & Hs & e1 & e2). exists m. split; [exact Hm|].
    apply in_flat_map. exists ms. split; [exact Hms|].
    rewrite e1, N.eqb_refl. apply in_flat_map. exists s. split; [exact Hs|].
    rewrite e2, N.eqb_refl. now left.
Qed.

Section FindMechanicsFacts.

Context {E : Engine}.
Variable d : db.
Variables search_lat search_lng : Q.
Variable radius_miles : Z.
Variable service_filter : option string.

Local Notation "'result'" :=
  (find_mechanics_within_radius d search_lat search_lng radius_miles service_filter).

(** Every row of the result is made from a row of the join that passes the
    [WHERE] clause. *)
Lemma result_row_origin (row : nearby_row) :
  In row result ->
  exists m ms s,
    In (m, ms, s) (from_mechanics_join d)
    /\ where_clause search_lat search_lng radius_miles service_filter (m, ms, s) = true
    /\ nr_id row = Mechanic.id m
    /\ nr_business_name row = Mechanic.business_name m
    /\ nr_distance_miles row = distance_miles search_lat search_lng m
    /\ nr_rating row = Mechanic.rating m.
Proof.
  unfold find_mechanics_within_radius. rewrite order_by_In, in_map_iff.
  intros [g [<- Hg]].
  assert (Hin : In (fst g) (group_rows g)) by now left.
  pose proof (@group_by_rows _ _ _ _ _ Hg Hin) as Hrow. apply filter_In in Hrow.
  destruct Hrow as [Hjoin Hwhere].
  unfold select_row. destruct (fst g) as [[m ms] s].
  exists m, ms, s. simpl. tauto.
Qed.

Lemma where_clause_true m ms s :
  where_clause search_lat search_lng radius_miles service_filter (m, ms, s) = true ->
  Mechanic.is_active m = Some true
  /\ Mechanic.is_verified m = Some true
  /\ MechanicService.is_available ms = Some true
  /\ within_radius search_lat search_lng radius_miles m = true
  /\ matches_filter service_filter s = true.
Proof.
  unfold where_clause. rewrite !andb_true_iff, !is_true_Some. tauto.
Qed.

Lemma within_radius_true m :
  within_radius search_lat search_lng radius_miles m = true ->
  exists g, Mechanic.location m = Some g
    /\ ST_Distance g (search_point search_lat search_lng)
       <= inject_Z radius_miles * meters_per_mile.
Proof.
  unfold within_radius, ST_DWithin.
  destruct (Mechanic.location m) as [g|]; [|discriminate].
  intro H. exists g. split; [reflexivity|]. now apply Qle_bool_iff.
Qed.

(** The rows are in the order of the reported distance. *)
Lemma result_sorted : StronglySorted (le_of by_distance_miles) result.
Proof.
  apply order_by_strongly_sorted.
  - intros a b. unfold by_distance_miles, nulls_last.
    destruct (nr_distance_miles a), (nr_distance_miles b); auto.
    rewrite !Z.leb_le. lia.
  - intros a b c. unfold le_of, by_distance_miles, nulls_last.
    destruct (nr_distance_miles a), (nr_distance_miles b), (nr_distance_miles c);
      try congruence.
    rewrite !Z.leb_le. lia.
Qed.

End FindMechanicsFacts.

(** ** LIKE and ILIKE *)

Lemma like_ordinary (c : ascii) (p t : list ascii) :
  like_special c = false ->
  like (c :: p) t
  = match t with [] => false | c' :: t' => Ascii.eqb c c' && like p t' end.
Proof.
  destruct c as [[] [] [] [] [] [] [] []]; intro H;
    try reflexivity; discriminate H.
Qed.

Lemma like_percent (p t : list ascii) :
  like ("%"%char :: p) t = true <->
  exists pre suf, t = pre ++ suf /\ like p suf = true.
Proof.
  induction t as [|c t IH].
  - simpl. rewrite orb_false_r. split.
    + intro H. now exists [], [].
    + intros (pre & suf & Heq & H).
      symmetry in Heq. apply app_eq_nil in Heq. destruct Heq as [_ ->]. exact H.
  - change (like ("%"%char :: p) (c :: t))
      with (like p (c :: t) || like ("%"%char :: p) t).
    rewrite orb_true_iff, IH. split.
    + intros [H|(pre & suf & -> & H)].
      * now exists [], (c :: t).
      * now exists (c :: pre), suf.
    + intros (pre & suf & Heq & H). destruct pre as [|c' pre]; simpl in Heq.
      * left. now subst suf.
      * right. inversion Heq; subst. now exists pre, suf.
Qed.

Lemma like_percent_all (t : list ascii) : like ["%"%char] t = true.
Proof.
  apply like_percent. exists t, []. split; [now rewrite app_nil_r|reflexivity].
Qed.

Lemma like_plain_prefix (f p t : list ascii) :
  forallb (fun c => negb (like_special c)) f = true ->
  like (f ++ p) t = true <-> exists t', t = f ++ t' /\ like p t' = true.
Proof.
  revert t; induction f as [|c f IH]; intros t Hf.
  - simpl. split; [intro H; now exists t | now intros (t' & -> & H)].
  - simpl in Hf. apply andb_true_iff in Hf. destruct Hf as [Hc Hf].
    apply negb_true_iff in Hc.
    rewrite <- app_comm_cons, (@like_ordinary c _ _ Hc).
    destruct t as [|c' t].
    + split; [discriminate | intros (t' & Heq & _); discriminate].
    + rewrite andb_true_iff, (IH t Hf), Ascii.eqb_eq. split.
      * intros [-> (t' & -> & H)]. now exists t'.
      * intros (t' & Heq & H). inversion Heq; subst. split; [reflexivity|now exists t'].
Qed.

Lemma starts_with_iff (f t : list ascii) :
  starts_with f t = true <-> exists t', t = f ++ t'.
Proof.
  revert t; induction f as [|c f IH]; intro t; simpl.
  - split; [intros _; now exists t | reflexivity].
  - destruct t as [|c' t].
    + split; [discriminate | intros [t' H]; discriminate].
    + rewrite andb_true_iff, IH, Ascii.eqb_eq. split.
      * intros [-> [t' ->]]. now exists t'.
      * intros [t' H]. inversion H; subst. split; [reflexivity|now exists t'].
Qed.

Lemma has_substring_iff (f t : list ascii) :
  has_substring f t = true <-> exists pre post, t = pre ++ f ++ post.
Proof.
  induction t as [|c t IH]; simpl.
  - rewrite orb_false_r, starts_with_iff. split.
    + intros [t' H]. now exists [], t'.
    + intros (pre & post & H). destruct pre; simpl in H; [now exists post|discriminate].
  - rewrite orb_true_iff, starts_with_iff, IH. split.
    + intros [[t' H]|(pre & post & ->)].
      * now exists [], t'.
      * now exists (c :: pre), post.
    + intros (pre & post & H). destruct pre as [|c' pre]; simpl in H.
      * left. now exists post.
      * right. inversion H; subst. now exists pre, post.
Qed.

Lemma list_ascii_of_string_app (a b : string) :
  list_ascii_of_string (a ++ b) = list_ascii_of_string a ++ list_ascii_of_string b.
Proof. induction a as [|c a IH]; simpl; [reflexivity|now rewrite IH]. Qed.

Lemma lower_char_special (c : ascii) :
  like_special (lower_char c) = like_special c.
Proof. destruct c as [[] [] [] [] [] [] [] []]; reflexivity. Qed.

Lemma lower_pattern (f : string) :
  lower ("%" ++ f ++ "%") = "%"%char :: lower f ++ ["%"%char].
Proof.
  unfold lower. rewrite !list_ascii_of_string_app, !map_app. reflexivity.
Qed.

(** For a filter without [%], [_] and backslash, the [ILIKE] of the function
    is the case-insensitive substring test. *)
Lemma ilike_plain_filter (name f : string) :
  plain_filter f = true ->
  ilike name ("%" ++ f ++ "%") = contains_ignoring_case name f.
Proof.
  intro Hplain. unfold ilike, contains_ignoring_case.
  rewrite lower_pattern.
  assert (Hl : forallb (fun c => negb (like_special c)) (lower f) = true).
  { unfold plain_filter in Hplain. unfold lower.
    rewrite forallb_forall in Hplain |- *. intros c Hc.
    apply in_map_iff in Hc. destruct Hc as [c0 [<- Hc0]].
    rewrite lower_char_special. now apply Hplain. }
  apply eq_true_iff_eq.
  rewrite like_percent, has_substring_iff. split.
  - intros (pre & suf & Heq & H).
    apply (@like_plain_prefix (lower f) _ _ Hl) in H. destruct H as (t' & -> & _).
    now exists pre, t'.
  - intros (pre & post & Heq). exists pre, (lower f ++ post). split; [exact Heq|].
    apply (@like_plain_prefix (lower f) _ _ Hl). exists post. split; [reflexivity|].
    apply like_percent_all.
Qed.

(** ** The claims about find_mechanics_within_radius *)

Lemma result_row_facts {E : Engine} (d : db) (lat lng : Q) (r : Z)
    (f : option string) (row : nearby_row) :
  In row (find_mechanics_within_radius d lat lng r f) ->
  exists m ms s g,
    In m (mechanics d) /\ In ms (mechanic_services d) /\ In s (services d)
    /\ Mechanic.id m = nr_id row
    /\ MechanicService.mechanic_id ms = Mechanic.id m
    /\ Service.id s = MechanicService.service_id ms
    /\ Mechanic.is_active m = Some true
    /\ Mechanic.is_verified m = Some true
    /\ MechanicService.is_available ms = Some true
    /\ matches_filter f s = true
    /\ Mechanic.location m = Some g
    /\ ST_Distance g (ST_MakePoint lng lat) <= inject_Z r * meters_per_mile
    /\ nr_distance_miles row
       = Some (ROUND2 (ST_Distance g (ST_MakePoint lng lat) * miles_per_meter)).
Proof.
  intro Hrow.
  destruct (result_row_origin _ _ _ _ _ _ Hrow)
    as (m & ms & s & Hjoin & Hwhere & Hid & _ & Hdist & _).
  apply from_mechanics_join_In in Hjoin.
  destruct Hjoin as (Hm & Hms & Hs & e1 & e2).
  apply where_clause_true in Hwhere.
  destruct Hwhere as (Ha & Hv & Hav & Hr & Hf).
  apply within_radius_true in Hr. destruct Hr as (g & Hg & Hle).
  exists m, ms, s, g. repeat split; auto.
  rewrite Hdist. unfold distance_miles. now rewrite Hg.
Qed.

Lemma miles_within (x : Q) (r : Z) :
  (0 <= r)%Z -> x <= inject_Z r * meters_per_mile ->
  x * miles_per_meter <= inject_Z r.
Proof.
  intros Hr Hx.
  apply Qle_trans with (inject_Z r * meters_per_mile * miles_per_meter).
  - apply Qmult_le_compat_r; [exact Hx|discriminate].
  - assert (H0 : 0 <= inject_Z r) by (change 0 with (inject_Z 0); now rewrite <- Zle_Qle).
    rewrite <- Qmult_assoc.
    rewrite <- (Qmult_1_r (inject_Z r)) at 2.
    rewrite !(Qmult_comm (inject_Z r)).
    apply Qmult_le_compat_r; [discriminate|exact H0].
Qed.

(** C2. Every mechanic that the search returns lies within the radius: its
    geodesic distance from the query point is at most [radius_miles * 1609.34]
    meters, and the distance that is reported for it, in hundredths of a
    mile, is at most the radius. *)
Theorem find_mechanics_within_radius_in_range :
  forall (E : Engine) (d : db) (lat lng : Q) (r : Z) (f : option string)
         (row : nearby_row),
    (0 <= r)%Z ->
    In row (find_mechanics_within_radius d lat lng r f) ->
    exists m g,
      In m (mechanics d) /\ Mechanic.id m = nr_id row
      /\ Mechanic.location m = Some g
      /\ ST_Distance g (ST_MakePoint lng lat) <= inject_Z r * meters_per_mile
      /\ ST_Distance g (ST_MakePoint lng lat) * miles_per_meter <= inject_Z r
      /\ exists reported,
           nr_distance_miles row = Some reported /\ (reported <= 100 * r)%Z.
Proof.
  intros E d lat lng r f row Hr Hrow.
  destruct (result_row_facts _ _ _ _ _ _ Hrow)
    as (m & ms & s & g & Hm & _ & _ & Hid & _ & _ & _ & _ & _ & _ & Hg & Hle & Hd).
  exists m, g. repeat split; auto.
  - now apply miles_within.
  - eexists; split; [exact Hd|].
    rewrite <- ROUND2_Z. apply ROUND2_le. now apply miles_within.
Qed.

(** The scenario of the specification: the mechanic of Los Angeles, searched
    from its own coordinates with a radius of one mile. *)
Lemma find_mechanics_within_radius_in_range_witness :
  exists m g,
    In m (mechanics Examples.los_angeles)
    /\ Mechanic.id m = 10%N
    /\ Mechanic.location m = Some g
    /\ ST_Distance g (ST_MakePoint (-1182437 # 10000) (340522 # 10000))
       <= inject_Z 1 * meters_per_mile
    /\ ST_Distance g (ST_MakePoint (-1182437 # 10000) (340522 # 10000))
       * miles_per_meter <= inject_Z 1
    /\ exists reported, Some 0%Z = Some reported /\ (reported <= 100 * 1)%Z.
Proof.
  apply (@find_mechanics_within_radius_in_range example_engine
           Examples.los_angeles (340522 # 10000) (-1182437 # 10000) 1 None
           (mk_nearby_row 10%N "LA Auto" (Some 0%Z) (Some 0%Z)
              (Some 3000%Z) (Some 5000%Z))).
  - lia.
  - vm_compute. left. reflexivity.
Defined.

Lemma result_id_mechanic {E : Engine} (d : db) (lat lng : Q) (r : Z)
    (f : option string) (m : Mechanic.t) :
  NoDup (map Mechanic.id (mechanics d)) ->
  In m (mechanics d) ->
  In (Mechanic.id m) (map nr_id (find_mechanics_within_radius d lat lng r f)) ->
  Mechanic.is_active m = Some true
  /\ Mechanic.is_verified m = Some true
  /\ Mechanic.location m <> None.
Proof.
  intros Hkey Hm Hin. apply in_map_iff in Hin. destruct Hin as (row & Hid & Hrow).
  destruct (result_row_facts _ _ _ _ _ _ Hrow)
    as (m' & ms & s & g & Hm' & _ & _ & Hid' & _ & _ & Ha & Hv & _ & _ & Hg & _).
  assert (m' = m) as ->.
  { apply (NoDup_map_eq Mechanic.id (mechanics d)); auto. congruence. }
  repeat split; auto. congruence.
Qed.

(** C3 (as amended). A mechanic is in the result only if it is active and
    verified and has an available offering of a service whose name passes
    [ILIKE '%' || service_filter || '%'] when a filter is given; that test is
    the case-insensitive substring test when the filter has no [%], [_] or
    backslash. A mechanic that is not active or not verified is in no
    result. *)
Theorem find_mechanics_within_radius_eligible :
  forall (E : Engine) (d : db) (lat lng : Q) (r : Z) (f : option string),
    NoDup (map Mechanic.id (mechanics d)) ->
    (forall row, In row (find_mechanics_within_radius d lat lng r f) ->
       exists m ms s,
         In m (mechanics d) /\ Mechanic.id m = nr_id row
         /\ Mechanic.is_active m = Some true
         /\ Mechanic.is_verified m = Some true
         /\ In ms (mechanic_services d)
         /\ MechanicService.mechanic_id ms = Mechanic.id m
         /\ MechanicService.is_available ms = Some true
         /\ In s (services d)
         /\ Service.id s = MechanicService.service_id ms
         /\ forall text, f = Some text ->
              ilike (Service.name s) ("%" ++ text ++ "%") = true
              /\ (plain_filter text = true ->
                  contains_ignoring_case (Service.name s) text = true))
    /\ (forall m, In m (mechanics d) ->
          Mechanic.is_active m <> Some true \/ Mechanic.is_verified m <> Some true ->
          ~ In (Mechanic.id m)
               (map nr_id (find_mechanics_within_radius d lat lng r f))).
Proof.
  intros E d lat lng r f Hkey. split.
  - intros row Hrow.
    destruct (result_row_facts _ _ _ _ _ _ Hrow)
      as (m & ms & s & g & Hm & Hms & Hs & Hid & e1 & e2 & Ha & Hv & Hav & Hf & _).
    exists m, ms, s. repeat split; auto.
    + unfold matches_filter in Hf. rewrite H in Hf. exact Hf.
    + intro Hplain. rewrite <- (ilike_plain_filter _ _ Hplain).
      unfold matches_filter in Hf. rewrite H in Hf. exact Hf.
  - intros m Hm Hflag Hin.
    destruct (result_id_mechanic _ _ _ _ _ _ Hkey Hm Hin) as (Ha & Hv & _).
    destruct Hflag as [H|H]; contradiction.
Qed.

(** The mechanic of the example that is not verified is not returned. *)
Lemma find_mechanics_within_radius_eligible_witness :
  ~ In (Mechanic.id Examples.unverified_shop)
       (map nr_id
          (@find_mechanics_within_radius example_engine Examples.mixed_shops
             0 0 5 None)).
Proof.
  refine (proj2 (@find_mechanics_within_radius_eligible example_engine
                   Examples.mixed_shops 0 0 5%Z None _)
                Examples.unverified_shop _ _).
  - distinct_keys.
  - vm_compute. right. right. left. reflexivity.
  - right. vm_compute. discriminate.
Defined.

(** C3, as first stated, fails: with the filter [o_l] the underscore stands
    for any character, and a mechanic whose only service is "Oil Change" is
    returned although no name of its services contains [o_l]. *)
Lemma find_mechanics_within_radius_filter_counterexample :
  map nr_id
    (@find_mechanics_within_radius example_engine Examples.los_angeles
       (340522 # 10000) (-1182437 # 10000) 1 (Some "o_l"%string))
  = [10%N]
  /\ map Service.name (services Examples.los_angeles) = ["Oil Change"%string]
  /\ contains_ignoring_case "Oil Change" "o_l" = false.
Proof. vm_compute. repeat split. Qed.

Lemma StronglySorted_weaken {A} (R1 R2 : A -> A -> Prop) (l : list A) :
  (forall a b, R1 a b -> R2 a b) -> StronglySorted R1 l -> StronglySorted R2 l.
Proof.
  intros Himp Hs. induction Hs as [|a l Hs IH Hall]; constructor; [exact IH|].
  rewrite Forall_forall in Hall |- *. intros b Hb. apply Himp, Hall, Hb.
Qed.

(** C4 (as amended). The rows come in non-decreasing order of the reported
    [distance_miles], and the reported value of a row is the geodesic
    distance of its mechanic times 0.000621371, rounded to two decimals. The
    exact distances are therefore in order up to a hundredth of a mile. *)
Theorem find_mechanics_within_radius_ordered :
  forall (E : Engine) (d : db) (lat lng : Q) (r : Z) (f : option string),
    StronglySorted
      (fun a b => exists x y,
         nr_distance_miles a = Some x /\ nr_distance_miles b = Some y
         /\ (x <= y)%Z)
      (find_mechanics_within_radius d lat lng r f)
    /\ (forall row, In row (find_mechanics_within_radius d lat lng r f) ->
          exists m g,
            In m (mechanics d) /\ Mechanic.id m = nr_id row
            /\ Mechanic.location m = Some g
            /\ nr_distance_miles row
               = Some (ROUND2 (ST_Distance g (ST_MakePoint lng lat)
                               * miles_per_meter)))
    /\ StronglySorted
         (fun a b => forall miles_a miles_b : Q,
            nr_distance_miles a = Some (ROUND2 miles_a) ->
            nr_distance_miles b = Some (ROUND2 miles_b) ->
            miles_a <= miles_b + (1 # 100))
         (find_mechanics_within_radius d lat lng r f).
Proof.
  intros E d lat lng r f.
  assert (Hrows : forall row, In row (find_mechanics_within_radius d lat lng r f) ->
            exists m g,
              In m (mechanics d) /\ Mechanic.id m = nr_id row
              /\ Mechanic.location m = Some g
              /\ nr_distance_miles row
                 = Some (ROUND2 (ST_Distance g (ST_MakePoint lng lat)
                                 * miles_per_meter))).
  { intros row Hrow.
    destruct (result_row_facts _ _ _ _ _ _ Hrow)
      as (m & ms & s & g & Hm & _ & _ & Hid & _ & _ & _ & _ & _ & _ & Hg & _ & Hd).
    now exists m, g. }
  assert (Hsorted : StronglySorted
            (fun a b => exists x y,
               nr_distance_miles a = Some x /\ nr_distance_miles b = Some y
               /\ (x <= y)%Z)
            (find_mechanics_within_radius d lat lng r f)).
  { pose proof (result_sorted d lat lng r f) as Hs.
    induction Hs as [|a l Hs IH Hall]; constructor.
    - apply IH. intros row Hrow. apply Hrows. now right.
    - rewrite Forall_forall in Hall |- *. intros b Hb.
      destruct (Hrows a (or_introl eq_refl)) as (ma & ga & _ & _ & _ & Ha).
      destruct (Hrows b (or_intror Hb)) as (mb & gb & _ & _ & _ & Hb').
      specialize (Hall b Hb). unfold le_of, by_distance_miles in Hall.
      rewrite Ha, Hb' in Hall. simpl in Hall. apply Z.leb_le in Hall.
      eexists; eexists; split; [exact Ha|split; [exact Hb'|exact Hall]]. }
  split; [exact Hsorted|]. split; [exact Hrows|].
  revert Hsorted. apply StronglySorted_weaken.
  intros a b (x & y & Ha & Hb & Hxy) miles_a miles_b Ha' Hb'.
  apply ROUND2_le_tolerance. congruence.
Qed.

(** C4, as first stated, fails: the order is that of the rounded distance.
    Of two mechanics 1616 and 1611 meters away, both reported at 1.00 mile,
    the farther one comes first. *)
Lemma find_mechanics_within_radius_order_counterexample :
  map (fun row => (nr_id row, nr_distance_miles row))
      (@find_mechanics_within_radius example_engine Examples.two_shops 0 0 2 None)
  = [(10%N, Some 100%Z); (11%N, Some 100%Z)]
  /\ Mechanic.id Examples.far_shop = 10%N
  /\ Mechanic.id Examples.near_shop = 11%N
  /\ Mechanic.location Examples.far_shop = Some (ST_MakePoint 0 (1616 # 111320))
  /\ Mechanic.location Examples.near_shop = Some (ST_MakePoint 0 (1611 # 111320))
  /\ @ST_Distance example_engine (ST_MakePoint 0 (1611 # 111320)) (ST_MakePoint 0 0)
     < @ST_Distance example_engine (ST_MakePoint 0 (1616 # 111320)) (ST_MakePoint 0 0).
Proof. vm_compute. repeat split. Qed.

(** C9. A mechanic whose location is null is in no result of the search. *)
Theorem find_mechanics_within_radius_needs_location :
  forall (E : Engine) (d : db) (lat lng : Q) (r : Z) (f : option string)
         (m : Mechanic.t),
    NoDup (map Mechanic.id (mechanics d)) ->
    In m (mechanics d) ->
    Mechanic.location m = None ->
    ~ In (Mechanic.id m) (map nr_id (find_mechanics_within_radius d lat lng r f)).
Proof.
  intros E d lat lng r f m Hkey Hm Hloc Hin.
  destruct (result_id_mechanic _ _ _ _ _ _ Hkey Hm Hin) as (_ & _ & Hg).
  contradiction.
Qed.

(** The mechanic of the example that has no location is not returned. *)
Lemma find_mechanics_within_radius_needs_location_witness :
  ~ In (Mechanic.id Examples.no_location_shop)
       (map nr_id
          (@find_mechanics_within_radius example_engine Examples.mixed_shops
             0 0 5 None)).
Proof.
  apply (@find_mechanics_within_radius_needs_location example_engine
           Examples.mixed_shops 0 0 5%Z None Examples.no_location_shop).
  - distinct_keys.
  - vm_compute. right. left. reflexivity.
  - reflexivity.
Defined.

(** The row trigger leaves the location alone as long as a coordinate is
    missing: a mechanic written without both coordinates keeps the location
    it was given, null when none was. *)
Lemma update_mechanic_location_missing (NEW : Mechanic.t) :
  Mechanic.latitude NEW = None \/ Mechanic.longitude NEW = None ->
  update_mechanic_location NEW = NEW.
Proof.
  unfold update_mechanic_location.
  intros [H|H]; rewrite H; [reflexivity|].
  now destruct (Mechanic.latitude NEW).
Qed.

Lemma update_mechanic_location_derived (NEW : Mechanic.t) (lat lng : Q) :
  Mechanic.latitude NEW = Some lat -> Mechanic.longitude NEW = Some lng ->
  Mechanic.location (update_mechanic_location NEW) = Some (ST_MakePoint lng lat).
Proof.
  unfold update_mechanic_location. intros -> ->. reflexivity.
Qed.

Lemma has_mechanic_false (d : db) (id : uuid) :
  has_mechanic d id = false -> ~ In id (map Mechanic.id (mechanics d)).
Proof.
  unfold has_mechanic. intros H Hin. apply in_map_iff in Hin.
  destruct Hin as (m & Hid & Hm).
  assert (existsb (fun m => N.eqb (Mechanic.id m) id) (mechanics d) = true).
  { apply existsb_exists. exists m. split; [exact Hm|]. now apply N.eqb_eq. }
  congruence.
Qed.

(** A mechanic that is inserted without both coordinates, and without a
    location of its own, is stored with a null location and is in no result
    of the search. *)
Lemma insert_mechanic_without_coordinates {E : Engine} (d d' : db)
    (NEW : Mechanic.t) (lat lng : Q) (r : Z) (f : option string) :
  NoDup (map Mechanic.id (mechanics d)) ->
  insert_mechanic NEW d = Some d' ->
  Mechanic.location NEW = None ->
  Mechanic.latitude NEW = None \/ Mechanic.longitude NEW = None ->
  In NEW (mechanics d')
  /\ ~ In (Mechanic.id NEW) (map nr_id (find_mechanics_within_radius d' lat lng r f)).
Proof.
  intros Hkey Hins Hloc Hcoord. unfold insert_mechanic in Hins.
  destruct (has_mechanic d (Mechanic.id NEW)) eqn:Hhas; [discriminate|].
  injection Hins as <-. rewrite (update_mechanic_location_missing _ Hcoord).
  assert (Hin : In NEW (mechanics d ++ [NEW])) by (apply in_or_app; right; now left).
  split; [exact Hin|]. intro Hres.
  assert (Hkey' : NoDup (map Mechanic.id (mechanics d ++ [NEW]))).
  { rewrite map_app. simpl. apply NoDup_app.
    - exact Hkey.
    - repeat constructor. intros [].
    - intros x Hx [<-|[]]. now apply (has_mechanic_false d) in Hhas. }
  destruct (@result_id_mechanic E
              (mkdb (mechanics d ++ [NEW]) (services d) (service_translations d)
                    (mechanic_services d) (reviews d))
              lat lng r f NEW Hkey' Hin Hres) as (_ & _ & Hg).
  contradiction.
Qed.

(** ** The handler of GET /api/mechanics/nearby *)

Example parseFloat_decimal : JS.parseFloat "34.0522" = JS.Decimal false 340522 (-4).
Proof. reflexivity. Qed.

Example parseFloat_prefix :
  JS.parseFloat "-118.2437abc" = JS.Decimal true 1182437 (-4).
Proof. reflexivity. Qed.

Example parseFloat_exponent : JS.parseFloat "  .5e2x" = JS.Decimal false 5 1.
Proof. reflexivity. Qed.

Example parseFloat_no_digit : JS.parseFloat "abc" = JS.NaN /\ JS.parseFloat "." = JS.NaN.
Proof. split; reflexivity. Qed.

Example parseInt_examples :
  JS.parseInt "10" 10 = JS.Decimal false 10 0
  /\ JS.parseInt "-5.7" 10 = JS.Decimal true 5 0
  /\ JS.parseInt "0x1f" 10 = JS.Decimal false 0 0
  /\ JS.parseInt "ten" 10 = JS.NaN.
Proof. repeat split; reflexivity. Qed.

Section NearbyFacts.

Variable run : JS.number -> JS.number -> JS.number -> option (list nearby_row).

(** Without one of the two coordinates the answer is 400 and nothing is
    executed. *)
Lemma nearby_missing (q : nearby_query) :
  JS.truthy (q_latitude q) = false \/ JS.truthy (q_longitude q) = false ->
  status (fst (nearby run q)) = 400%Z /\ snd (nearby run q) = [].
Proof.
  unfold nearby. intros [H|H]; rewrite H; simpl.
  - split; reflexivity.
  - rewrite orb_true_r. split; reflexivity.
Qed.

(** With both, the statement is executed once, on the parsed values as they
    are, and the answer is 200 or 500. *)
Lemma nearby_present (q : nearby_query) :
  JS.truthy (q_latitude q) = true -> JS.truthy (q_longitude q) = true ->
  snd (nearby run q)
  = [SelectFindMechanicsWithinRadius
       (JS.parseFloat (param_text (q_latitude q)))
       (JS.parseFloat (param_text (q_longitude q)))
       (radius_of q)]
  /\ (status (fst (nearby run q)) = 200%Z \/ status (fst (nearby run q)) = 500%Z).
Proof.
  unfold nearby. intros -> ->. simpl.
  destruct (run _ _ _); simpl; split; auto.
Qed.

End NearbyFacts.

(** C1 (as amended). A request that lacks the latitude or the longitude, or
    gives it empty, is answered 400 and no statement is executed. A
    coordinate that is present and does not parse as a number is not
    rejected: the statement is executed with [NaN] in its place. *)
Theorem nearby_checks_presence_only :
  forall (run : JS.number -> JS.number -> JS.number -> option (list nearby_row))
         (q : nearby_query),
    (JS.truthy (q_latitude q) = false \/ JS.truthy (q_longitude q) = false ->
     status (fst (nearby run q)) = 400%Z /\ snd (nearby run q) = [])
    /\ (JS.truthy (q_latitude q) = true -> JS.truthy (q_longitude q) = true ->
        JS.parseFloat (param_text (q_latitude q)) = JS.NaN
        \/ JS.parseFloat (param_text (q_longitude q)) = JS.NaN ->
        (status (fst (nearby run q)) = 200%Z \/ status (fst (nearby run q)) = 500%Z)
        /\ snd (nearby run q)
           = [SelectFindMechanicsWithinRadius
                (JS.parseFloat (param_text (q_latitude q)))
                (JS.parseFloat (param_text (q_longitude q)))
                (radius_of q)]).
Proof.
  intros run q. split.
  - apply nearby_missing.
  - intros Hlat Hlng _.
    destruct (nearby_present run q Hlat Hlng) as [Hlog Hstatus].
    split; [exact Hstatus|exact Hlog].
Qed.

(** The latitude [abc] with an empty database. *)
Lemma nearby_checks_presence_only_witness :
  (status (fst (nearby Requests.empty_pool
                  (Requests.request "abc" "-118.2437" None))) = 200%Z
   \/ status (fst (nearby Requests.empty_pool
                     (Requests.request "abc" "-118.2437" None))) = 500%Z)
  /\ snd (nearby Requests.empty_pool (Requests.request "abc" "-118.2437" None))
     = [SelectFindMechanicsWithinRadius
          (JS.parseFloat "abc") (JS.parseFloat "-118.2437")
          (radius_of (Requests.request "abc" "-118.2437" None))].
Proof.
  apply (proj2 (nearby_checks_presence_only Requests.empty_pool
                  (Requests.request "abc" "-118.2437" None))).
  - reflexivity.
  - reflexivity.
  - left. reflexivity.
Defined.

(** C1, as first stated, fails: the latitude [abc] is not a number, and the
    handler executes the statement with [NaN] and answers 200, or 500 when
    the statement fails. *)
Lemma nearby_malformed_counterexample :
  JS.parseFloat "abc" = JS.NaN
  /\ nearby Requests.empty_pool (Requests.request "abc" "-118.2437" None)
     = (mk_response 200
          (NearbyBody [] JS.NaN Requests.los_angeles_lng (JS.Decimal false 10 0)),
        [SelectFindMechanicsWithinRadius JS.NaN Requests.los_angeles_lng
           (JS.Decimal false 10 0)])
  /\ nearby Requests.failing_pool (Requests.request "abc" "-118.2437" None)
     = (mk_response 500 (ErrorBody "Failed to find nearby mechanics"),
        [SelectFindMechanicsWithinRadius JS.NaN Requests.los_angeles_lng
           (JS.Decimal false 10 0)]).
Proof. repeat split; reflexivity. Qed.

(** The range of the coordinates: the handler of the stand-alone server
    answers 400 to a latitude of 100 and executes nothing, the handler of the
    route executes the statement. *)
Example nearby_out_of_range :
  server_nearby Requests.empty_pool (Requests.request "100" "-118.2437" None)
  = (mk_response 400
       (ErrorBody "Invalid coordinates. Latitude: -90 to 90, Longitude: -180 to 180"),
     [])
  /\ snd (nearby Requests.empty_pool (Requests.request "100" "-118.2437" None))
     = [SelectFindMechanicsWithinRadius (JS.Decimal false 100 0)
          Requests.los_angeles_lng (JS.Decimal false 10 0)].
Proof. split; vm_compute; reflexivity. Qed.

(** Neither handler stops a coordinate that is not a number: every
    comparison with [NaN] is false. *)
Example server_nearby_malformed :
  snd (server_nearby Requests.empty_pool (Requests.request "abc" "-118.2437" None))
  = [SelectFindMechanicsWithinRadius JS.NaN Requests.los_angeles_lng
       (JS.Decimal false 10 0)].
Proof. vm_compute; reflexivity. Qed.

(** C8 (as amended). The radius is 10 when the parameter is absent. A radius
    that is given is read by [parseInt(_, 10)] and passed on as it is: with
    both coordinates present the statement is executed whatever the radius,
    and the answer is not 400. *)
Theorem nearby_radius :
  forall (run : JS.number -> JS.number -> JS.number -> option (list nearby_row))
         (q : nearby_query),
    (q_radius q = None -> radius_of q = JS.Decimal false 10 0)
    /\ (forall text, q_radius q = Some text -> radius_of q = JS.parseInt text 10)
    /\ (JS.truthy (q_latitude q) = true -> JS.truthy (q_longitude q) = true ->
        status (fst (nearby run q)) <> 400%Z
        /\ snd (nearby run q)
           = [SelectFindMechanicsWithinRadius
                (JS.parseFloat (param_text (q_latitude q)))
                (JS.parseFloat (param_text (q_longitude q)))
                (radius_of q)]).
Proof.
  intros run q. repeat split.
  - unfold radius_of. now intros ->.
  - unfold radius_of. now intros text ->.
  - destruct (nearby_present run q H H0) as [_ [Hs|Hs]]; rewrite Hs; discriminate.
  - apply (nearby_present run q H H0).
Qed.

(** A request without radius, and one with the radius [25]. *)
Lemma nearby_radius_witness :
  radius_of (Requests.request "34.0522" "-118.2437" None) = JS.Decimal false 10 0
  /\ radius_of (Requests.request "34.0522" "-118.2437" (Some "25"%string))
     = JS.parseInt "25" 10.
Proof.
  split.
  - apply (proj1 (nearby_radius Requests.empty_pool
                    (Requests.request "34.0522" "-118.2437" None))).
    reflexivity.
  - apply (proj1 (proj2 (nearby_radius Requests.empty_pool
                           (Requests.request "34.0522" "-118.2437"
                              (Some "25"%string))))).
    reflexivity.
Defined.

(** C8, as first stated, fails: a radius of zero, a negative radius and a
    radius that is not a number all reach the statement. *)
Lemma nearby_radius_counterexample :
  snd (nearby Requests.empty_pool
         (Requests.request "34.0522" "-118.2437" (Some "0"%string)))
  = [SelectFindMechanicsWithinRadius Requests.los_angeles_lat
       Requests.los_angeles_lng (JS.Decimal false 0 0)]
  /\ snd (nearby Requests.empty_pool
            (Requests.request "34.0522" "-118.2437" (Some "-5"%string)))
     = [SelectFindMechanicsWithinRadius Requests.los_angeles_lat
          Requests.los_angeles_lng (JS.Decimal true 5 0)]
  /\ snd (nearby Requests.empty_pool
            (Requests.request "34.0522" "-118.2437" (Some "ten"%string)))
     = [SelectFindMechanicsWithinRadius Requests.los_angeles_lat
          Requests.los_angeles_lng JS.NaN]
  /\ status (fst (nearby Requests.empty_pool
                    (Requests.request "34.0522" "-118.2437" (Some "0"%string))))
     = 200%Z.
Proof. repeat split; reflexivity. Qed.

(** ** The handler of GET /api/mechanics/:id *)

Section MechanicByIdFacts.

Context {E : Engine}.
Variable d : db.

Lemma left_join_offers_mechanic (m : Mechanic.t) (r : offered) :
  In r (left_join_offers d m) -> fst (fst r) = m.
Proof.
  unfold left_join_offers.
  destruct (filter _ (mechanic_services d)) as [|ms0 mss].
  - intros [<-|[]]. reflexivity.
  - rewrite in_flat_map. intros (ms & _ & Hr).
    destruct (filter _ (services d)) as [|s0 ss].
    + destruct Hr as [<-|[]]. reflexivity.
    + apply in_map_iff in Hr. destruct Hr as (s & <- & _). reflexivity.
Qed.

Lemma left_join_offers_not_nil (m : Mechanic.t) : left_join_offers d m <> [].
Proof.
  unfold left_join_offers.
  destruct (filter _ (mechanic_services d)) as [|ms0 mss]; [discriminate|].
  simpl. destruct (filter _ (services d)) as [|s0 ss]; discriminate.
Qed.

(** The service rows that the joins attach to a mechanic: those of all its
    offerings, whatever the flags of the offering and of the service. *)
Lemma left_join_offers_service (m : Mechanic.t) (s : Service.t) :
  (exists r, In r (left_join_offers d m) /\ snd r = Some s) <->
  (exists ms, In ms (mechanic_services d)
              /\ MechanicService.mechanic_id ms = Mechanic.id m
              /\ In s (services d)
              /\ Service.id s = MechanicService.service_id ms).
Proof.
  unfold left_join_offers. split.
  - intros (r & Hr & Hs).
    destruct (filter _ (mechanic_services d)) as [|ms0 mss] eqn:Hf.
    + destruct Hr as [<-|[]]. discriminate.
    + rewrite <- Hf in Hr. apply in_flat_map in Hr. destruct Hr as (ms & Hms & Hr).
      apply filter_In in Hms. destruct Hms as [Hms Hid].
      apply N.eqb_eq in Hid.
      destruct (filter _ (services d)) as [|s0 ss] eqn:Hg.
      * destruct Hr as [<-|[]]. discriminate.
      * rewrite <- Hg in Hr. apply in_map_iff in Hr.
        destruct Hr as (s' & <- & Hs'). simpl in Hs. inversion Hs; subst s'.
        apply filter_In in Hs'. destruct Hs' as [Hs' Hid'].
        apply N.eqb_eq in Hid'. exists ms. auto.
  - intros (ms & Hms & Hid & Hs & Hid').
    assert (Hms' : In ms (filter (fun ms => N.eqb (Mechanic.id m)
                             (MechanicService.mechanic_id ms)) (mechanic_services d))).
    { apply filter_In. split; [exact Hms|]. rewrite Hid. apply N.eqb_refl. }
    assert (Hs' : In s (filter (fun s => N.eqb (MechanicService.service_id ms)
                           (Service.id s)) (services d))).
    { apply filter_In. split; [exact Hs|]. rewrite Hid'. apply N.eqb_refl. }
    exists (m, Some ms, Some s). split; [|reflexivity].
    destruct (filter _ (mechanic_services d)) as [|ms0 mss] eqn:Hf; [destruct Hms'|].
    rewrite <- Hf. apply in_flat_map. exists ms. split; [now rewrite Hf|].
    destruct (filter _ (services d)) as [|s0 ss] eqn:Hg; [destruct Hs'|].
    rewrite <- Hg. apply in_map_iff. exists s. split; [reflexivity|now rewrite Hg].
Qed.

Variable u : uuid.

Lemma filter_wanted_others (l : list Mechanic.t) :
  (forall m, In m l -> Mechanic.id m <> u) ->
  filter (wanted u) (flat_map (left_join_offers d) l) = [].
Proof.
  induction l as [|x l IH]; intro Hall; simpl; [reflexivity|].
  rewrite filter_app, IH by (intros m Hm; apply Hall; now right).
  rewrite app_nil_r.
  assert (Hx : Mechanic.id x <> u) by (apply Hall; now left).
  assert (G : forall rows, (forall r, In r rows -> fst (fst r) = x) ->
              filter (wanted u) rows = []).
  { induction rows as [|r rows IHr]; intro Hr; simpl; [reflexivity|].
    unfold wanted at 1. rewrite (Hr r (or_introl eq_refl)).
    apply N.eqb_neq in Hx. rewrite Hx. simpl.
    apply IHr. intros r' Hr'. apply Hr. now right. }
  apply G. intros r Hr. now apply left_join_offers_mechanic.
Qed.

Lemma filter_wanted_own (m : Mechanic.t) :
  Mechanic.id m = u -> Mechanic.is_active m = Some true ->
  filter (wanted u) (left_join_offers d m) = left_join_offers d m.
Proof.
  intros Hid Ha.
  assert (G : forall rows, (forall r, In r rows -> fst (fst r) = m) ->
              filter (wanted u) rows = rows).
  { induction rows as [|r rows IHr]; intro Hr; simpl; [reflexivity|].
    unfold wanted at 1. rewrite (Hr r (or_introl eq_refl)), Hid, N.eqb_refl, Ha.
    simpl. f_equal. apply IHr. intros r' Hr'. apply Hr. now right. }
  apply G. intros r Hr. now apply left_join_offers_mechanic.
Qed.

(** Under the primary key, the [WHERE] clause keeps the rows of the one
    active mechanic with the id. *)
Lemma filter_wanted_key (l : list Mechanic.t) (m : Mechanic.t) :
  NoDup (map Mechanic.id l) -> In m l ->
  Mechanic.id m = u -> Mechanic.is_active m = Some true ->
  filter (wanted u) (flat_map (left_join_offers d) l) = left_join_offers d m.
Proof.
  induction l as [|x l IH]; intros Hkey Hm Hid Ha; [destruct Hm|].
  simpl in *. inversion Hkey as [|y ys Hnotin Hkey']; subst y ys.
  rewrite filter_app. destruct Hm as [->|Hm].
  - rewrite (filter_wanted_own _ Hid Ha), filter_wanted_others.
    + apply app_nil_r.
    + intros m' Hm' Heq. apply Hnotin. rewrite Hid, <- Heq. now apply in_map.
  - rewrite (IH Hkey' Hm Hid Ha).
    assert (Hx : filter (wanted u) (left_join_offers d x) = []).
    { pose proof (filter_wanted_others [x]) as G. simpl in G.
      rewrite app_nil_r in G. apply G.
      intros m' [<-|[]] Heq. apply Hnotin. rewrite Heq, <- Hid. now apply in_map. }
    now rewrite Hx.
Qed.

End MechanicByIdFacts.

Section ArrayAggFacts.

Context {E : Engine}.

Lemma names_of_In (rows : list offered) (name : string) :
  In name (names_of rows) <->
  exists r s, In r rows /\ snd r = Some s /\ Service.name s = name.
Proof.
  unfold names_of. rewrite in_flat_map. split.
  - intros (r & Hr & Hn). destruct (snd r) as [s|] eqn:Hs; [|destruct Hn].
    destruct Hn as [<-|[]]. now exists r, s.
  - intros (r & s & Hr & Hs & <-). exists r. split; [exact Hr|].
    rewrite Hs. now left.
Qed.

Lemma array_agg_distinct_names_In (rows : list offered) (name : string) :
  (exists l, array_agg_distinct_names rows = Some l /\ In name l) <->
  In name (names_of rows).
Proof.
  unfold array_agg_distinct_names.
  destruct (names_of rows) as [|n ns] eqn:Hn.
  - split; [intros (l & Hl & _); discriminate | intros []].
  - split.
    + intros (l & Hl & Hin).
      assert (l = order_by text_leb (nodup string_dec (n :: ns))) as -> by congruence.
      exact (proj1 (nodup_In string_dec (n :: ns) name)
               (proj1 (order_by_In text_leb (nodup string_dec (n :: ns)) name) Hin)).
    + intro Hin. exists (order_by text_leb (nodup string_dec (n :: ns))).
      split; [reflexivity|].
      exact (proj2 (order_by_In text_leb (nodup string_dec (n :: ns)) name)
               (proj2 (nodup_In string_dec (n :: ns) name) Hin)).
Qed.

Lemma array_agg_distinct_names_NoDup (rows : list offered) (l : list string) :
  array_agg_distinct_names rows = Some l -> NoDup l.
Proof.
  unfold array_agg_distinct_names.
  destruct (names_of rows) as [|n ns]; [discriminate|].
  intro H.
  assert (l = order_by text_leb (nodup string_dec (n :: ns))) as -> by congruence.
  apply (Permutation_NoDup (l := nodup string_dec (n :: ns))).
  - apply Permutation_sym, order_by_perm.
  - apply NoDup_nodup.
Qed.

Lemma array_agg_distinct_names_None (rows : list offered) :
  names_of rows = [] -> array_agg_distinct_names rows = None.
Proof.
  unfold array_agg_distinct_names. fold (names_of rows). now intros ->.
Qed.

End ArrayAggFacts.

(** C10. For the id of an active mechanic the handler answers 200 with the
    row of the mechanic and the distinct names of the services of all its
    offerings: neither the availability of an offering, nor the activity of
    a service, nor the verification of the mechanic is looked at. A mechanic
    without offerings is answered too, its list of services being null. *)
Theorem get_mechanic_active :
  forall (E : Engine) (d : db) (id : string) (m : Mechanic.t),
    NoDup (map Mechanic.id (mechanics d)) ->
    In m (mechanics d) ->
    uuid_in id = Some (Mechanic.id m) ->
    Mechanic.is_active m = Some true ->
    exists names : option (list string),
      get_mechanic (select_mechanic_by_id d) id
      = (mk_response 200 (MechanicBody (mk_mechanic_row m names)),
         [SelectMechanicById id])
      /\ (forall name,
            (exists l, names = Some l /\ In name l) <->
            (exists ms s,
               In ms (mechanic_services d)
               /\ MechanicService.mechanic_id ms = Mechanic.id m
               /\ In s (services d)
               /\ Service.id s = MechanicService.service_id ms
               /\ Service.name s = name))
      /\ (forall l, names = Some l -> NoDup l)
      /\ ((forall ms, In ms (mechanic_services d) ->
             MechanicService.mechanic_id ms <> Mechanic.id m) ->
          names = None).
Proof.
  intros E d id m Hkey Hm Hid Ha.
  exists (array_agg_distinct_names (left_join_offers d m)).
  assert (Hname : forall name,
            In name (names_of (left_join_offers d m)) <->
            (exists ms s,
               In ms (mechanic_services d)
               /\ MechanicService.mechanic_id ms = Mechanic.id m
               /\ In s (services d)
               /\ Service.id s = MechanicService.service_id ms
               /\ Service.name s = name)).
  { intro name. rewrite names_of_In. split.
    - intros (r & s & Hr & Hs & Hn).
      destruct (proj1 (left_join_offers_service d m s)) as (ms & H1 & H2 & H3 & H4).
      { now exists r. }
      now exists ms, s.
    - intros (ms & s & H1 & H2 & H3 & H4 & Hn).
      destruct (proj2 (left_join_offers_service d m s)) as (r & Hr & Hs).
      { now exists ms. }
      now exists r, s. }
  repeat split.
  - unfold get_mechanic, select_mechanic_by_id. rewrite Hid.
    unfold from_mechanics_left_join.
    rewrite (@filter_wanted_key d (Mechanic.id m) (mechanics d) m Hkey Hm eq_refl Ha).
    pose proof (@left_join_offers_mechanic d m) as Hrows.
    destruct (left_join_offers d m) as [|first rest] eqn:Hoffers.
    + now apply left_join_offers_not_nil in Hoffers.
    + rewrite group_by_single.
      * simpl. unfold select_mechanic. simpl.
        now rewrite (Hrows first (or_introl eq_refl)).
      * intros x Hx. unfold same_mechanic.
        rewrite (Hrows first (or_introl eq_refl)), (Hrows x (or_intror Hx)).
        apply N.eqb_refl.
  - intro H. apply Hname. now apply array_agg_distinct_names_In.
  - intro H. apply array_agg_distinct_names_In. now apply Hname.
  - apply array_agg_distinct_names_NoDup.
  - intro Hnone. apply array_agg_distinct_names_None.
    destruct (names_of (left_join_offers d m)) as [|n ns] eqn:Hn; [reflexivity|].
    exfalso.
    assert (Hin : In n (n :: ns)) by now left.
    apply Hname in Hin. destruct Hin as (ms & s & H1 & H2 & _).
    exact (Hnone ms H1 H2).
Qed.

(** The active, unverified mechanic of the example. *)
Lemma get_mechanic_active_witness :
  exists names : option (list string),
    get_mechanic (@select_mechanic_by_id example_engine Detail.garages)
      Detail.garage_id
    = (mk_response 200 (MechanicBody (mk_mechanic_row Detail.garage names)),
       [SelectMechanicById Detail.garage_id])
    /\ (forall name,
          (exists l, names = Some l /\ In name l) <->
          (exists ms s,
             In ms (mechanic_services Detail.garages)
             /\ MechanicService.mechanic_id ms = Mechanic.id Detail.garage
             /\ In s (services Detail.garages)
             /\ Service.id s = MechanicService.service_id ms
             /\ Service.name s = name))
    /\ (forall l, names = Some l -> NoDup l)
    /\ ((forall ms, In ms (mechanic_services Detail.garages) ->
           MechanicService.mechanic_id ms <> Mechanic.id Detail.garage) ->
        names = None).
Proof.
  apply (@get_mechanic_active example_engine Detail.garages Detail.garage_id
           Detail.garage).
  - distinct_keys.
  - left. reflexivity.
  - vm_compute. reflexivity.
  - reflexivity.
Defined.

(** The mechanic of the example is not verified, one of its offerings is not
    available and the service of the other is not active: both names are
    listed. The mechanic without offerings is answered with a null list. *)
Example get_mechanic_examples :
  get_mechanic (@select_mechanic_by_id example_engine Detail.garages)
    Detail.garage_id
  = (mk_response 200
       (MechanicBody
          (mk_mechanic_row Detail.garage
             (Some ["Brake Inspection"%string; "Oil Change"%string]))),
     [SelectMechanicById Detail.garage_id])
  /\ get_mechanic (@select_mechanic_by_id example_engine Detail.garages)
       Detail.idle_garage_id
     = (mk_response 200 (MechanicBody (mk_mechanic_row Detail.idle_garage None)),
        [SelectMechanicById Detail.idle_garage_id]).
Proof. split; vm_compute; reflexivity. Qed.

(** ** The order of code units is a collation *)

Lemma ascii_compare_Lt_trans (a b c : ascii) :
  Ascii.compare a b = Lt -> Ascii.compare b c = Lt -> Ascii.compare a c = Lt.
Proof.
  unfold Ascii.compare. rewrite !N.compare_lt_iff. apply N.lt_trans.
Qed.

Lemma string_leb_trans (a b c : string) :
  String.leb a b = true -> String.leb b c = true -> String.leb a c = true.
Proof.
  unfold String.leb. revert b c.
  induction a as [|x a IH]; intros [|y b] [|z c]; simpl; try congruence.
  destruct (Ascii.compare x y) eqn:Hxy; try congruence;
    destruct (Ascii.compare y z) eqn:Hyz; try congruence.
  - apply Ascii.compare_eq_iff in Hxy. apply Ascii.compare_eq_iff in Hyz.
    subst y z. assert (Ascii.compare x x = Eq) as ->.
    { unfold Ascii.compare. apply N.compare_refl. }
    apply IH.
  - apply Ascii.compare_eq_iff in Hxy. subst y. now rewrite Hyz.
  - apply Ascii.compare_eq_iff in Hyz. subst z. now rewrite Hxy.
  - now rewrite (ascii_compare_Lt_trans _ _ _ Hxy Hyz).
Qed.

#[export] Instance example_collation : Collation example_engine.
Proof.
  split.
  - exact String.leb_total.
  - exact string_leb_trans.
Defined.

(** ** The order of ORDER BY *)

Section OrderFacts.

Variable A : Type.

Lemma nulls_last_total (leb : A -> A -> bool) :
  (forall a b, leb a b = true \/ leb b a = true) ->
  forall a b, nulls_last leb a b = true \/ nulls_last leb b a = true.
Proof. intros H [a|] [b|]; simpl; auto. Qed.

Lemma nulls_last_trans (leb : A -> A -> bool) :
  (forall a b c, leb a b = true -> leb b c = true -> leb a c = true) ->
  forall a b c, nulls_last leb a b = true -> nulls_last leb b c = true ->
                nulls_last leb a c = true.
Proof. intros H [a|] [b|] [c|]; simpl; auto; try discriminate. apply H. Qed.

Variables leb1 leb2 : A -> A -> bool.
Hypothesis total1 : forall a b, leb1 a b = true \/ leb1 b a = true.
Hypothesis total2 : forall a b, leb2 a b = true \/ leb2 b a = true.
Hypothesis trans1 : forall a b c, leb1 a b = true -> leb1 b c = true -> leb1 a c = true.
Hypothesis trans2 : forall a b c, leb2 a b = true -> leb2 b c = true -> leb2 a c = true.

Lemma then_by_total (a b : A) :
  then_by leb1 leb2 a b = true \/ then_by leb1 leb2 b a = true.
Proof.
  unfold then_by.
  destruct (leb1 a b) eqn:Hab, (leb1 b a) eqn:Hba; auto.
  destruct (total1 a b); congruence.
Qed.

Lemma then_by_trans (a b c : A) :
  then_by leb1 leb2 a b = true -> then_by leb1 leb2 b c = true ->
  then_by leb1 leb2 a c = true.
Proof.
  unfold then_by.
  destruct (leb1 a b) eqn:Hab; [|discriminate].
  destruct (leb1 b c) eqn:Hbc; [|intros _; discriminate].
  rewrite (trans1 Hab Hbc).
  destruct (leb1 c a) eqn:Hca; [|reflexivity].
  rewrite (trans1 Hbc Hca), (trans1 Hca Hab).
  apply trans2.
Qed.

End OrderFacts.

(** ** The statement of GET /api/services *)

Section ServicesFacts.

Context {E : Engine}.
Variable d : db.
Variable language : string.

Lemma translates_iff (s : Service.t) (st : ServiceTranslation.t) :
  translates language s st = true <->
  ServiceTranslation.service_id st = Service.id s
  /\ ServiceTranslation.language_code st = language.
Proof.
  unfold translates. rewrite andb_true_iff, N.eqb_eq, String.eqb_eq.
  intuition congruence.
Qed.

(** [UNIQUE(service_id, language_code)]: a service has at most one
    translation to a language. *)
Lemma translation_unique (s : Service.t) (l : list ServiceTranslation.t) :
  NoDup (map (fun st => (ServiceTranslation.service_id st,
                         ServiceTranslation.language_code st)) l) ->
  filter (translates language s) l = []
  \/ exists st, filter (translates language s) l = [st].
Proof.
  induction l as [|x l IH]; intro Hkey; simpl; [now left|].
  inversion Hkey as [|k ks Hnotin Hkey']; subst.
  destruct (translates language s x) eqn:Hx.
  - right. exists x. f_equal.
    destruct (filter (translates language s) l) as [|y ys] eqn:Hf; [reflexivity|].
    exfalso. apply Hnotin.
    assert (Hy : In y (filter (translates language s) l)) by (rewrite Hf; now left).
    apply filter_In in Hy. destruct Hy as [Hy Hty].
    apply translates_iff in Hx. apply translates_iff in Hty.
    destruct Hx as [-> ->]. destruct Hty as [<- <-].
    now apply (in_map (fun st => (ServiceTranslation.service_id st,
                                   ServiceTranslation.language_code st))).
  - apply IH, Hkey'.
Qed.

Lemma from_services_left_join_In (s : Service.t) (ot : option ServiceTranslation.t) :
  In (s, ot) (from_services_left_join d language) ->
  In s (services d)
  /\ match ot with
     | Some st => In st (service_translations d) /\ translates language s st = true
     | None => forall st, In st (service_translations d) -> translates language s st = false
     end.
Proof.
  unfold from_services_left_join. rewrite in_flat_map.
  intros (s' & Hs' & Hr).
  destruct (filter (translates language s') (service_translations d)) as [|st0 sts] eqn:Hf.
  - destruct Hr as [Hr|[]]. inversion Hr; subst. split; [exact Hs'|].
    intros st Hst. destruct (translates language s st) eqn:Ht; [|reflexivity].
    assert (In st (filter (translates language s) (service_translations d)))
      by (apply filter_In; auto).
    rewrite Hf in H. destruct H.
  - rewrite <- Hf in Hr. apply in_map_iff in Hr. destruct Hr as (st & Hr & Hst).
    inversion Hr; subst. apply filter_In in Hst. tauto.
Qed.

Lemma from_services_left_join_services :
  NoDup (map (fun st => (ServiceTranslation.service_id st,
                         ServiceTranslation.language_code st))
             (service_translations d)) ->
  map fst (from_services_left_join d language) = services d.
Proof.
  intro Hkey. unfold from_services_left_join.
  set (F := fun s : Service.t =>
              match filter (translates language s) (service_translations d) with
              | [] => [(s, None)]
              | sts => map (fun st => (s, Some st)) sts
              end).
  induction (services d) as [|s l IH]; [reflexivity|].
  change (flat_map F (s :: l)) with (F s ++ flat_map F l).
  rewrite map_app, IH. unfold F.
  destruct (translation_unique s _ Hkey) as [->|[st ->]]; reflexivity.
Qed.

Lemma map_fst_filter (p : Service.t -> bool) (l : list translated) :
  map fst (filter (fun r : translated => p (fst r)) l) = filter p (map fst l).
Proof.
  induction l as [|r l IH]; simpl; [reflexivity|].
  destruct (p (fst r)); simpl; now rewrite IH.
Qed.

End ServicesFacts.

(** C7 (as amended). The lookup returns the active services, each once. The
    name of a row is the name of the translation of the service to the
    language when there is one and the canonical name otherwise; its
    description is the description of that translation when there is one
    and it is not null, and the canonical description otherwise. The rows
    are ordered by category, then by the canonical name. *)
Theorem select_services_catalog :
  forall (E : Engine) (C : Collation E) (d : db) (language : string),
    NoDup (map (fun st => (ServiceTranslation.service_id st,
                           ServiceTranslation.language_code st))
               (service_translations d)) ->
    exists joined : list (Service.t * option ServiceTranslation.t),
      select_services d language
      = map (fun r =>
               mk_service_row (Service.id (fst r)) (Service.category (fst r))
                 (Service.estimated_duration (fst r))
                 match snd r with
                 | Some st => ServiceTranslation.name st
                 | None => Service.name (fst r)
                 end
                 match snd r with
                 | Some st =>
                     match ServiceTranslation.description st with
                     | Some text => Some text
                     | None => Service.description (fst r)
                     end
                 | None => Service.description (fst r)
                 end)
            joined
      /\ Permutation (map fst joined)
           (filter (fun s => is_true (Service.is_active s)) (services d))
      /\ (forall s st, In (s, Some st) joined ->
            In st (service_translations d)
            /\ ServiceTranslation.service_id st = Service.id s
            /\ ServiceTranslation.language_code st = language)
      /\ (forall s, In (s, None) joined ->
            forall st, In st (service_translations d) ->
              ServiceTranslation.service_id st = Service.id s ->
              ServiceTranslation.language_code st <> language)
      /\ StronglySorted
           (fun a b =>
              then_by
                (fun x y => nulls_last text_leb (Service.category (fst x))
                                       (Service.category (fst y)))
                (fun x y => text_leb (Service.name (fst x)) (Service.name (fst y)))
                a b = true)
           joined.
Proof.
  intros E C d language Hkey.
  exists (order_by by_category_name
            (filter (fun r : translated => is_true (Service.is_active (fst r)))
                    (from_services_left_join d language))).
  split; [reflexivity|]. split; [|split; [|split]].
  - eapply Permutation_trans.
    + apply Permutation_map, order_by_perm.
    + rewrite (map_fst_filter (fun s => is_true (Service.is_active s))).
      rewrite (from_services_left_join_services d language Hkey).
      apply Permutation_refl.
  - intros s st Hin. apply order_by_In, filter_In in Hin. destruct Hin as [Hin _].
    apply from_services_left_join_In in Hin. destruct Hin as (_ & Hst & Ht).
    apply translates_iff in Ht. tauto.
  - intros s Hin st Hst Hid Hlang.
    apply order_by_In, filter_In in Hin. destruct Hin as [Hin _].
    apply from_services_left_join_In in Hin. destruct Hin as (_ & Hnone).
    specialize (Hnone st Hst).
    assert (translates language s st = true) by (apply translates_iff; auto).
    congruence.
  - apply order_by_strongly_sorted.
    + intros a b. apply then_by_total.
      * intros x y. apply nulls_last_total, text_leb_total.
      * intros x y. apply text_leb_total.
    + intros a b c. apply then_by_trans.
      * intros x y z. apply nulls_last_trans. apply text_leb_trans.
      * intros x y z. apply text_leb_trans.
Qed.

(** The sample data, in Spanish, under the order of code units. *)
Lemma select_services_catalog_witness :
  exists joined : list (Service.t * option ServiceTranslation.t),
    @select_services example_engine Catalog.sample "es"
    = map (fun r =>
             mk_service_row (Service.id (fst r)) (Service.category (fst r))
               (Service.estimated_duration (fst r))
               match snd r with
               | Some st => ServiceTranslation.name st
               | None => Service.name (fst r)
               end
               match snd r with
               | Some st =>
                   match ServiceTranslation.description st with
                   | Some text => Some text
                   | None => Service.description (fst r)
                   end
               | None => Service.description (fst r)
               end)
          joined
    /\ Permutation (map fst joined)
         (filter (fun s => is_true (Service.is_active s)) (services Catalog.sample))
    /\ (forall s st, In (s, Some st) joined ->
          In st (service_translations Catalog.sample)
          /\ ServiceTranslation.service_id st = Service.id s
          /\ ServiceTranslation.language_code st = "es"%string)
    /\ (forall s, In (s, None) joined ->
          forall st, In st (service_translations Catalog.sample) ->
            ServiceTranslation.service_id st = Service.id s ->
            ServiceTranslation.language_code st <> "es"%string)
    /\ StronglySorted
         (fun a b =>
            then_by
              (fun x y => nulls_last (@text_leb example_engine)
                            (Service.category (fst x)) (Service.category (fst y)))
              (fun x y => @text_leb example_engine (Service.name (fst x))
                            (Service.name (fst y)))
              a b = true)
         joined.
Proof.
  apply (@select_services_catalog example_engine example_collation
           Catalog.sample "es").
  distinct_keys.
Defined.

(** C7, as first stated, fails on the sample data of schema.sql: in Spanish
    the two services of the category Repair come in the order of their
    canonical names, "AC Service" then "Belt Replacement", which is not the
    order of the names that are shown. The second row also shows the
    canonical description, its translation having none. *)
Lemma select_services_order_counterexample :
  @select_services example_engine Catalog.sample "es"
  = [mk_service_row 6%N (Some "Repair"%string) (Some 90%Z)
       "Servicio de Aire Acondicionado"
       (Some "Servicio del sistema de aire acondicionado"%string);
     mk_service_row 3%N (Some "Repair"%string) (Some 120%Z)
       "Reemplazo de Correa"
       (Some "Drive belt or timing belt replacement"%string)]
  /\ @text_leb example_engine "Servicio de Aire Acondicionado" "Reemplazo de Correa"
     = false.
Proof. split; vm_compute; reflexivity. Qed.

(** The words of the specification on the sample data: the Spanish name
    where there is a translation, the canonical name for a language without
    one. *)
Example select_services_fallback :
  map sr_name (@select_services example_engine Catalog.sample "fr")
  = ["AC Service"%string; "Belt Replacement"%string]
  /\ fst (get_services (fun lang =>
                          Some (@select_services example_engine Catalog.sample lang))
            None)
     = mk_response 200
         (ServicesBody (@select_services example_engine Catalog.sample "en") "en").
Proof. split; vm_compute; reflexivity. Qed.

(** ** The rating trigger *)

Lemma update_mechanic_location_keeps (m : Mechanic.t) :
  Mechanic.id (update_mechanic_location m) = Mechanic.id m
  /\ Mechanic.rating (update_mechanic_location m) = Mechanic.rating m
  /\ Mechanic.review_count (update_mechanic_location m) = Mechanic.review_count m.
Proof.
  unfold update_mechanic_location.
  destruct (Mechanic.latitude m), (Mechanic.longitude m); repeat split.
Qed.

Lemma published_ratings_update (NEW : Review.t) (d : db) (id : uuid) :
  published_ratings (update_mechanic_rating NEW d) id = published_ratings d id.
Proof. reflexivity. Qed.

Lemma update_mechanic_rating_mechanic (NEW : Review.t) (d : db) (m' : Mechanic.t) :
  In m' (mechanics (update_mechanic_rating NEW d)) ->
  exists m, In m (mechanics d) /\ Mechanic.id m' = Mechanic.id m
    /\ if N.eqb (Mechanic.id m) (Review.mechanic_id NEW)
       then Mechanic.rating m'
            = option_map ROUND2 (AVG (published_ratings d (Review.mechanic_id NEW)))
            /\ Mechanic.review_count m'
               = Some (COUNT (published_ratings d (Review.mechanic_id NEW)))
       else m' = m.
Proof.
  unfold update_mechanic_rating, update_mechanics. simpl. rewrite in_map_iff.
  intros (m & Hm' & Hm). exists m. split; [exact Hm|].
  destruct (N.eqb (Mechanic.id m) (Review.mechanic_id NEW)).
  - subst m'.
    destruct (update_mechanic_location_keeps
                (Mechanic.set_rating m
                   (option_map ROUND2
                      (AVG (published_ratings d (Review.mechanic_id NEW))))
                   (Some (COUNT (published_ratings d (Review.mechanic_id NEW))))))
      as (-> & -> & ->).
    repeat split.
  - subst m'. split; reflexivity.
Qed.

(** After the trigger has run for a row, the aggregates of the mechanic of
    the row are the recomputed ones. *)
Lemma update_mechanic_rating_recomputed (NEW : Review.t) (d : db) :
  rating_recomputed (update_mechanic_rating NEW d) (Review.mechanic_id NEW).
Proof.
  intros m' Hm' Hid. rewrite published_ratings_update.
  destruct (update_mechanic_rating_mechanic _ _ _ Hm') as (m & _ & Hid' & H).
  rewrite <- Hid', Hid, N.eqb_refl in H. exact H.
Qed.

(** A later run of the trigger, for any row, keeps them so. *)
Lemma update_mechanic_rating_keeps (NEW : Review.t) (d : db) (id : uuid) :
  rating_recomputed d id -> rating_recomputed (update_mechanic_rating NEW d) id.
Proof.
  intros Hd m' Hm' Hid. rewrite published_ratings_update.
  destruct (update_mechanic_rating_mechanic _ _ _ Hm') as (m & Hm & Hid' & H).
  destruct (N.eqb_spec (Mechanic.id m) (Review.mechanic_id NEW)) as [e|ne].
  - assert (Review.mechanic_id NEW = id) as <- by congruence. exact H.
  - subst m'. now apply Hd.
Qed.

Lemma fold_update_mechanic_rating_keeps (rows : list Review.t) (d : db) (id : uuid) :
  rating_recomputed d id ->
  rating_recomputed
    (fold_left (fun acc NEW => update_mechanic_rating NEW acc) rows d) id.
Proof.
  revert d; induction rows as [|r rows IH]; intros d Hd; simpl; [exact Hd|].
  apply IH, update_mechanic_rating_keeps, Hd.
Qed.

Lemma fold_update_mechanic_rating_recomputed (rows : list Review.t) (d : db)
    (NEW : Review.t) :
  In NEW rows ->
  rating_recomputed
    (fold_left (fun acc NEW => update_mechanic_rating NEW acc) rows d)
    (Review.mechanic_id NEW).
Proof.
  revert d; induction rows as [|r rows IH]; intros d Hin; [destruct Hin|].
  simpl. destruct Hin as [->|Hin].
  - apply fold_update_mechanic_rating_keeps, update_mechanic_rating_recomputed.
  - now apply IH.
Qed.

Lemma fold_update_mechanic_rating_reviews (rows : list Review.t) (d : db) :
  reviews (fold_left (fun acc NEW => update_mechanic_rating NEW acc) rows d)
  = reviews d.
Proof.
  revert d; induction rows as [|r rows IH]; intro d; simpl; [reflexivity|].
  now rewrite IH.
Qed.

Lemma insert_review_Some (r : Review.t) (d d' : db) :
  insert_review r d = Some d' ->
  d' = update_mechanic_rating r (set_reviews d (reviews d ++ [r]))
  /\ review_ok d r = true.
Proof.
  unfold insert_review.
  destruct (review_ok d r); simpl; [|discriminate].
  destruct (negb _); [|discriminate].
  intro H; inversion H. split; reflexivity.
Qed.

Lemma AVG_rounded_mean (ratings : list Z) :
  ratings <> [] -> option_map ROUND2 (AVG ratings) = Some (rounded_mean ratings).
Proof. destruct ratings; [congruence|reflexivity]. Qed.

(** What [rating_recomputed] says of a mechanic with published reviews. *)
Lemma rating_recomputed_mean (d : db) (id : uuid) (m : Mechanic.t) :
  rating_recomputed d id -> In m (mechanics d) -> Mechanic.id m = id ->
  Mechanic.review_count m = Some (Z.of_nat (List.length (published_ratings d id)))
  /\ (published_ratings d id <> [] ->
      Mechanic.rating m = Some (rounded_mean (published_ratings d id))).
Proof.
  intros Hd Hm Hid. destruct (Hd m Hm Hid) as [Hr Hc]. split; [exact Hc|].
  intro Hne. now rewrite Hr, AVG_rounded_mean.
Qed.

Lemma insert_review_recomputed (r : Review.t) (d d' : db) :
  insert_review r d = Some d' -> rating_recomputed d' (Review.mechanic_id r).
Proof.
  intro H. apply insert_review_Some in H. destruct H as [-> _].
  apply update_mechanic_rating_recomputed.
Qed.

Lemma insert_review_published (r : Review.t) (d d' : db) (id : uuid) :
  insert_review r d = Some d' ->
  published_ratings d' id
  = published_ratings d id
    ++ (if N.eqb (Review.mechanic_id r) id && is_true (Review.is_published r)
        then [Review.rating r] else []).
Proof.
  intro H. apply insert_review_Some in H. destruct H as [-> _].
  rewrite published_ratings_update. unfold published_ratings. simpl.
  rewrite filter_app, map_app. simpl.
  now destruct (N.eqb (Review.mechanic_id r) id && is_true (Review.is_published r)).
Qed.

Lemma insert_review_mechanic (r : Review.t) (d d' : db) :
  insert_review r d = Some d' ->
  exists m, In m (mechanics d') /\ Mechanic.id m = Review.mechanic_id r.
Proof.
  intro H. apply insert_review_Some in H. destruct H as [-> Hok].
  unfold review_ok in Hok. rewrite !andb_true_iff in Hok.
  destruct Hok as [_ Hhas]. unfold has_mechanic in Hhas.
  apply existsb_exists in Hhas. destruct Hhas as (m & Hm & Hid).
  apply N.eqb_eq in Hid.
  unfold update_mechanic_rating, update_mechanics. simpl.
  eexists. split.
  - apply in_map_iff. exists m. split; [reflexivity|exact Hm].
  - rewrite Hid, N.eqb_refl.
    now destruct (update_mechanic_location_keeps
                    (Mechanic.set_rating m
                       (option_map ROUND2
                          (AVG (published_ratings
                                  (set_reviews d (reviews d ++ [r]))
                                  (Review.mechanic_id r))))
                       (Some (COUNT (published_ratings
                                       (set_reviews d (reviews d ++ [r]))
                                       (Review.mechanic_id r))))))
      as (-> & _).
Qed.

Lemma update_review_recomputed (target : uuid) (set : Review.t -> Review.t)
    (d d' : db) (NEW : Review.t) :
  update_review target set d = Some d' ->
  In NEW (reviews d') -> Review.id NEW = target ->
  rating_recomputed d' (Review.mechanic_id NEW).
Proof.
  unfold update_review. destruct (forallb _ _); [|discriminate].
  intro H; inversion H as [Hd']; clear H. intros Hin Hid.
  rewrite fold_update_mechanic_rating_reviews in Hin. simpl in Hin.
  apply fold_update_mechanic_rating_recomputed.
  apply in_map_iff in Hin. destruct Hin as (old & Hnew & Hold).
  apply in_map_iff.
  destruct (N.eqb (Review.id old) target) eqn:Ht.
  - exists old. split; [exact Hnew|]. apply filter_In. auto.
  - subst NEW. apply N.eqb_neq in Ht. contradiction.
Qed.

Lemma insert_review_aggregates (r : Review.t) (d d' : db) (m : Mechanic.t) :
  insert_review r d = Some d' ->
  In m (mechanics d') -> Mechanic.id m = Review.mechanic_id r ->
  Mechanic.review_count m
  = Some (Z.of_nat (List.length (published_ratings d' (Review.mechanic_id r))))
  /\ (published_ratings d' (Review.mechanic_id r) <> [] ->
      Mechanic.rating m
      = Some (rounded_mean (published_ratings d' (Review.mechanic_id r)))).
Proof.
  intros H Hm Hid.
  eapply rating_recomputed_mean; eauto using insert_review_recomputed.
Qed.

Lemma is_true_not_Some (b : option bool) : b <> Some true -> is_true b = false.
Proof. destruct b as [[|]|]; simpl; congruence. Qed.

Lemma insert_unpublished_review (r : Review.t) (d d' : db) (m m' : Mechanic.t) :
  insert_review r d = Some d' ->
  Review.is_published r <> Some true ->
  In m (mechanics d) -> Mechanic.id m = Review.mechanic_id r ->
  published_ratings d (Review.mechanic_id r) <> [] ->
  Mechanic.rating m = Some (rounded_mean (published_ratings d (Review.mechanic_id r))) ->
  Mechanic.review_count m
  = Some (Z.of_nat (List.length (published_ratings d (Review.mechanic_id r)))) ->
  In m' (mechanics d') -> Mechanic.id m' = Mechanic.id m ->
  Mechanic.rating m' = Mechanic.rating m
  /\ Mechanic.review_count m' = Mechanic.review_count m.
Proof.
  intros H Hun Hm Hid Hne Hr Hc Hm' Hid'.
  assert (Hpub : published_ratings d' (Review.mechanic_id r)
                 = published_ratings d (Review.mechanic_id r)).
  { erewrite insert_review_published by exact H. rewrite (is_true_not_Some Hun).
    rewrite andb_false_r. apply app_nil_r. }
  destruct (@insert_review_aggregates r d d' m' H Hm' (eq_trans Hid' Hid)) as [Hc' Hr'].
  rewrite Hpub in Hc', Hr'. rewrite Hr, Hc, Hc'. split; [now apply Hr'|reflexivity].
Qed.

Lemma published_ratings_none (d : db) (id : uuid) :
  (forall r, In r (reviews d) -> Review.mechanic_id r <> id) ->
  published_ratings d id = [].
Proof.
  intro Hnone. unfold published_ratings.
  induction (reviews d) as [|r l IH]; simpl; [reflexivity|].
  assert (Hr : N.eqb (Review.mechanic_id r) id = false)
    by (apply N.eqb_neq, Hnone; now left).
  rewrite Hr. simpl. apply IH. intros r' Hr'. apply Hnone. now right.
Qed.

Lemma rounded_mean_5 : rounded_mean [5%Z] = 500%Z.
Proof. reflexivity. Qed.

Lemma rounded_mean_5_3 : rounded_mean [5%Z; 3%Z] = 400%Z.
Proof. reflexivity. Qed.

Lemma rating_scenario (d d1 d2 d3 : db) (mechanic id1 id2 id3 : uuid) (stars : Z) :
  (forall r, In r (reviews d) -> Review.mechanic_id r <> mechanic) ->
  insert_review (Review.mk id1 mechanic 5 (Some true)) d = Some d1 ->
  insert_review (Review.mk id2 mechanic 3 (Some true)) d1 = Some d2 ->
  insert_review (Review.mk id3 mechanic stars (Some false)) d2 = Some d3 ->
  (exists m, In m (mechanics d3) /\ Mechanic.id m = mechanic)
  /\ (forall m, In m (mechanics d1) -> Mechanic.id m = mechanic ->
        Mechanic.rating m = Some 500%Z /\ Mechanic.review_count m = Some 1%Z)
  /\ (forall m, In m (mechanics d2) -> Mechanic.id m = mechanic ->
        Mechanic.rating m = Some 400%Z /\ Mechanic.review_count m = Some 2%Z)
  /\ (forall m, In m (mechanics d3) -> Mechanic.id m = mechanic ->
        Mechanic.rating m = Some 400%Z /\ Mechanic.review_count m = Some 2%Z).
Proof.
  intros Hnone H1 H2 H3.
  pose proof (@insert_review_published _ _ _ mechanic H1) as P1.
  pose proof (@insert_review_published _ _ _ mechanic H2) as P2.
  pose proof (@insert_review_published _ _ _ mechanic H3) as P3.
  simpl in P1, P2, P3. rewrite N.eqb_refl in P1, P2, P3. simpl in P1, P2, P3.
  rewrite (@published_ratings_none d mechanic Hnone) in P1. simpl in P1.
  rewrite P1 in P2. simpl in P2. rewrite app_nil_r, P2 in P3.
  split; [apply (@insert_review_mechanic _ _ _ H3)|].
  split; [|split]; intros m Hm Hid.
  - destruct (@insert_review_aggregates _ _ _ m H1 Hm Hid) as [Hc Hr]. simpl in Hc, Hr.
    rewrite P1 in Hc, Hr. split; [apply Hr; discriminate|exact Hc].
  - destruct (@insert_review_aggregates _ _ _ m H2 Hm Hid) as [Hc Hr]. simpl in Hc, Hr.
    rewrite P2 in Hc, Hr. split; [apply Hr; discriminate|exact Hc].
  - destruct (@insert_review_aggregates _ _ _ m H3 Hm Hid) as [Hc Hr]. simpl in Hc, Hr.
    rewrite P3 in Hc, Hr. split; [apply Hr; discriminate|exact Hc].
Qed.

(** The rating trigger where C5 holds. After an insert or an update of a
    review row, the [review_count] of the mechanic of the new row is the
    number of its published reviews and, when there is at least one, its
    [rating] is their mean rounded to two decimals. A first published review
    of 5 gives 5.00 and 1, a second of 3 gives 4.00 and 2, and a review that
    is not published changes neither value of a mechanic that has published
    reviews. *)
Theorem update_mechanic_rating_aggregates :
  (forall (r : Review.t) (d d' : db) (m : Mechanic.t),
     insert_review r d = Some d' ->
     In m (mechanics d') -> Mechanic.id m = Review.mechanic_id r ->
     Mechanic.review_count m
     = Some (Z.of_nat (List.length (published_ratings d' (Review.mechanic_id r))))
     /\ (published_ratings d' (Review.mechanic_id r) <> [] ->
         Mechanic.rating m
         = Some (rounded_mean (published_ratings d' (Review.mechanic_id r)))))
  /\ (forall (target : uuid) (set : Review.t -> Review.t) (d d' : db)
             (NEW : Review.t) (m : Mechanic.t),
        update_review target set d = Some d' ->
        In NEW (reviews d') -> Review.id NEW = target ->
        In m (mechanics d') -> Mechanic.id m = Review.mechanic_id NEW ->
        Mechanic.review_count m
        = Some (Z.of_nat (List.length (published_ratings d' (Review.mechanic_id NEW))))
        /\ (published_ratings d' (Review.mechanic_id NEW) <> [] ->
            Mechanic.rating m
            = Some (rounded_mean (published_ratings d' (Review.mechanic_id NEW)))))
  /\ (forall (d d1 d2 d3 : db) (mechanic id1 id2 id3 : uuid) (stars : Z),
        (forall r, In r (reviews d) -> Review.mechanic_id r <> mechanic) ->
        insert_review (Review.mk id1 mechanic 5 (Some true)) d = Some d1 ->
        insert_review (Review.mk id2 mechanic 3 (Some true)) d1 = Some d2 ->
        insert_review (Review.mk id3 mechanic stars (Some false)) d2 = Some d3 ->
        (exists m, In m (mechanics d3) /\ Mechanic.id m = mechanic)
        /\ (forall m, In m (mechanics d1) -> Mechanic.id m = mechanic ->
              Mechanic.rating m = Some 500%Z /\ Mechanic.review_count m = Some 1%Z)
        /\ (forall m, In m (mechanics d2) -> Mechanic.id m = mechanic ->
              Mechanic.rating m = Some 400%Z /\ Mechanic.review_count m = Some 2%Z)
        /\ (forall m, In m (mechanics d3) -> Mechanic.id m = mechanic ->
              Mechanic.rating m = Some 400%Z /\ Mechanic.review_count m = Some 2%Z))
  /\ (forall (r : Review.t) (d d' : db) (m m' : Mechanic.t),
        insert_review r d = Some d' ->
        Review.is_published r <> Some true ->
        In m (mechanics d) -> Mechanic.id m = Review.mechanic_id r ->
        published_ratings d (Review.mechanic_id r) <> [] ->
        Mechanic.rating m
        = Some (rounded_mean (published_ratings d (Review.mechanic_id r))) ->
        Mechanic.review_count m
        = Some (Z.of_nat (List.length (published_ratings d (Review.mechanic_id r)))) ->
        In m' (mechanics d') -> Mechanic.id m' = Mechanic.id m ->
        Mechanic.rating m' = Mechanic.rating m
        /\ Mechanic.review_count m' = Mechanic.review_count m).
Proof.
  split; [|split; [|split]].
  - apply insert_review_aggregates.
  - intros target set d d' NEW m H Hin Hid Hm Hmid.
    eapply rating_recomputed_mean; eauto using update_review_recomputed.
  - apply rating_scenario.
  - apply insert_unpublished_review.
Qed.

(** The scenario of the specification, on a mechanic that has just been
    registered. *)
Lemma update_mechanic_rating_aggregates_scenario :
  (exists m, In m (mechanics Ratings.after_hidden) /\ Mechanic.id m = 10%N)
  /\ (forall m, In m (mechanics Ratings.after_first) -> Mechanic.id m = 10%N ->
        Mechanic.rating m = Some 500%Z /\ Mechanic.review_count m = Some 1%Z)
  /\ (forall m, In m (mechanics Ratings.after_second) -> Mechanic.id m = 10%N ->
        Mechanic.rating m = Some 400%Z /\ Mechanic.review_count m = Some 2%Z)
  /\ (forall m, In m (mechanics Ratings.after_hidden) -> Mechanic.id m = 10%N ->
        Mechanic.rating m = Some 400%Z /\ Mechanic.review_count m = Some 2%Z).
Proof.
  apply (proj1 (proj2 (proj2 update_mechanic_rating_aggregates))
           Ratings.registered Ratings.after_first Ratings.after_second
           Ratings.after_hidden 10%N 1%N 2%N 3%N 1%Z).
  - intros r [].
  - reflexivity.
  - reflexivity.
  - reflexivity.
Defined.

(** The same writes, run. *)
Example rating_scenario_run :
  Ratings.aggregates
    (insert_review (Ratings.review 1%N 5%Z true) Ratings.registered)
  = Some [(Some 500%Z, Some 1%Z)]
  /\ Ratings.aggregates
       (Ratings.and_then
          (insert_review (Ratings.review 1%N 5%Z true) Ratings.registered)
          (insert_review (Ratings.review 2%N 3%Z true)))
     = Some [(Some 400%Z, Some 2%Z)]
  /\ Ratings.aggregates
       (Ratings.and_then
          (Ratings.and_then
             (insert_review (Ratings.review 1%N 5%Z true) Ratings.registered)
             (insert_review (Ratings.review 2%N 3%Z true)))
          (insert_review (Ratings.review 3%N 1%Z false)))
     = Some [(Some 400%Z, Some 2%Z)].
Proof. repeat split; vm_compute; reflexivity. Qed.

(** C5, on the code: a review that is not published, written for a mechanic
    that has no review yet, leaves the mechanic without published reviews
    and changes its rating from 0.00 to null. *)
Theorem unpublished_first_review_changes_rating :
  published_ratings Ratings.registered 10%N = []
  /\ Ratings.aggregates (Some Ratings.registered) = Some [(Some 0%Z, Some 0%Z)]
  /\ option_map (fun d => published_ratings d 10%N)
       (insert_review (Ratings.review 1%N 4%Z false) Ratings.registered)
     = Some []
  /\ Ratings.aggregates
       (insert_review (Ratings.review 1%N 4%Z false) Ratings.registered)
     = Some [(None, Some 0%Z)].
Proof. repeat split; vm_compute; reflexivity. Qed.

(** C6, on the code: a mechanic without published reviews has the rating
    0.00 of the column default before the trigger has run for it, and a null
    rating once the trigger has recomputed it over no review, here after the
    only published review of the mechanic is withdrawn. *)
Theorem rating_without_published_reviews :
  published_ratings Ratings.registered 10%N = []
  /\ Ratings.aggregates (Some Ratings.registered) = Some [(Some 0%Z, Some 0%Z)]
  /\ option_map (fun d => published_ratings d 10%N)
       (Ratings.and_then
          (insert_review (Ratings.review 1%N 5%Z true) Ratings.registered)
          (update_review 1%N
             (fun r => Review.mk (Review.id r) (Review.mechanic_id r)
                         (Review.rating r) (Some false))))
     = Some []
  /\ Ratings.aggregates
       (Ratings.and_then
          (insert_review (Ratings.review 1%N 5%Z true) Ratings.registered)
          (update_review 1%N
             (fun r => Review.mk (Review.id r) (Review.mechanic_id r)
                         (Review.rating r) (Some false))))
     = Some [(None, Some 0%Z)].
Proof. repeat split; vm_compute; reflexivity. Qed.

(** * Further properties *)

(** ** Groups *)

Section GroupByFacts.

Variable R : Type.
Variable same : R -> R -> bool.

Local Notation "'add'" := (fun gs r => add_to_groups same r gs).

Lemma add_to_groups_adds (r : R) (gs : list (R * list R)) :
  exists g, In g (add_to_groups same r gs) /\ In r (group_rows g).
Proof.
  induction gs as [|[f others] gs IH]; simpl.
  - exists (r, []). split; now left.
  - destruct (same f r).
    + exists (f, others ++ [r]). split; [now left|].
      right. apply in_or_app. right. now left.
    + destruct IH as (g & Hg & Hr). exists g. split; [now right|exact Hr].
Qed.

Lemma add_to_groups_keeps (r x : R) (gs : list (R * list R)) (g : R * list R) :
  In g gs -> In x (group_rows g) ->
  exists g', In g' (add_to_groups same r gs) /\ In x (group_rows g').
Proof.
  induction gs as [|[f others] gs IH]; intros Hg Hx; [destruct Hg|].
  simpl. destruct Hg as [<-|Hg].
  - destruct (same f r).
    + exists (f, others ++ [r]). split; [now left|].
      destruct Hx as [Hx|Hx]; [now left|]. right. apply in_or_app. now left.
    + exists (f, others). split; [now left|exact Hx].
  - destruct (same f r).
    + exists g. split; [now right|exact Hx].
    + destruct (IH Hg Hx) as (g' & Hg' & Hx'). exists g'. split; [now right|exact Hx'].
Qed.

Lemma fold_groups_keeps (rows : list R) (gs : list (R * list R))
    (g : R * list R) (x : R) :
  In g gs -> In x (group_rows g) ->
  exists g', In g' (fold_left add rows gs) /\ In x (group_rows g').
Proof.
  revert gs g; induction rows as [|r rows IH]; intros gs g Hg Hx; simpl.
  - now exists g.
  - destruct (@add_to_groups_keeps r x gs g Hg Hx) as (g' & Hg' & Hx').
    exact (IH _ _ Hg' Hx').
Qed.

(** Every row is in a group. *)
Lemma group_by_covers (rows : list R) (r : R) :
  In r rows -> exists g, In g (group_by same rows) /\ In r (group_rows g).
Proof.
  unfold group_by. generalize (@nil (R * list R)).
  induction rows as [|x rows IH]; intros gs Hr; [destruct Hr|].
  simpl. destruct Hr as [->|Hr].
  - destruct (add_to_groups_adds r gs) as (g & Hg & Hin).
    exact (@fold_groups_keeps rows _ g r Hg Hin).
  - now apply IH.
Qed.

Definition groups_alike (gs : list (R * list R)) : Prop :=
  forall g x, In g gs -> In x (snd g) -> same (fst g) x = true.

Lemma add_to_groups_alike (r : R) (gs : list (R * list R)) :
  groups_alike gs -> groups_alike (add_to_groups same r gs).
Proof.
  induction gs as [|[f others] gs IH]; intros Hgs g x Hg Hx; simpl in Hg.
  - destruct Hg as [<-|[]]. destruct Hx.
  - destruct (same f r) eqn:Hf.
    + destruct Hg as [<-|Hg].
      * simpl in *. apply in_app_or in Hx. destruct Hx as [Hx|[<-|[]]]; [|exact Hf].
        apply (Hgs (f, others)); [now left|exact Hx].
      * apply (Hgs g); [now right|exact Hx].
    + destruct Hg as [<-|Hg].
      * apply (Hgs (f, others)); [now left|exact Hx].
      * apply IH; auto. intros g' x' Hg' Hx'. apply (Hgs g'); [now right|exact Hx'].
Qed.

(** The later rows of a group have the key of its first row. *)
Lemma group_by_alike (rows : list R) : groups_alike (group_by same rows).
Proof.
  unfold group_by.
  assert (G : forall gs, groups_alike gs -> groups_alike (fold_left add rows gs)).
  { induction rows as [|r rows IH]; intros gs Hgs; simpl; [exact Hgs|].
    apply IH, add_to_groups_alike, Hgs. }
  apply G. intros g x [].
Qed.

Definition firsts_differ (gs : list (R * list R)) : Prop :=
  ForallOrdPairs (fun g1 g2 => same (fst g1) (fst g2) = false) gs.

Lemma add_to_groups_Forall (P : R -> Prop) (r : R) (gs : list (R * list R)) :
  P r -> Forall (fun g => P (fst g)) gs ->
  Forall (fun g => P (fst g)) (add_to_groups same r gs).
Proof.
  intros Hr Hgs. induction Hgs as [|[f others] gs Hf Hgs IH]; simpl.
  - now repeat constructor.
  - destruct (same f r); constructor; auto.
Qed.

Lemma add_to_groups_firsts (r : R) (gs : list (R * list R)) :
  firsts_differ gs -> firsts_differ (add_to_groups same r gs).
Proof.
  unfold firsts_differ. induction 1 as [|[f others] gs Hf Hgs IH]; simpl.
  - repeat constructor.
  - destruct (same f r) eqn:Hfr.
    + constructor; [exact Hf|exact Hgs].
    + constructor; [|exact IH].
      apply (add_to_groups_Forall (fun x => same f x = false)); assumption.
Qed.

(** The first rows of two groups have different keys. *)
Lemma group_by_firsts (rows : list R) : firsts_differ (group_by same rows).
Proof.
  unfold group_by.
  assert (G : forall gs, firsts_differ gs -> firsts_differ (fold_left add rows gs)).
  { induction rows as [|r rows IH]; intros gs Hgs; simpl; [exact Hgs|].
    apply IH, add_to_groups_firsts, Hgs. }
  apply G. constructor.
Qed.

Hypothesis same_refl : forall a, same a a = true.
Hypothesis same_sym : forall a b, same a b = true -> same b a = true.
Hypothesis same_trans :
  forall a b c, same a b = true -> same b c = true -> same a c = true.

Lemma group_rows_alike (rows : list R) (g : R * list R) (x : R) :
  In g (group_by same rows) -> In x (group_rows g) -> same (fst g) x = true.
Proof.
  intros Hg [<-|Hx]; [apply same_refl|]. exact (@group_by_alike rows g x Hg Hx).
Qed.

(** A group holds all the rows that have its key. *)
Lemma group_by_whole (rows : list R) (g : R * list R) (r : R) :
  In g (group_by same rows) -> In r rows -> same (fst g) r = true ->
  In r (group_rows g).
Proof.
  intros Hg Hr Hsame.
  destruct (@group_by_covers rows r Hr) as (g' & Hg' & Hin).
  pose proof (@group_rows_alike rows g' r Hg' Hin) as Hsame'.
  destruct (ForallOrdPairs_In (group_by_firsts rows) g g' Hg Hg') as [->|[H|H]].
  - exact Hin.
  - rewrite (same_trans Hsame (same_sym Hsame')) in H. discriminate.
  - rewrite (same_trans Hsame' (same_sym Hsame)) in H. discriminate.
Qed.

End GroupByFacts.

Lemma ForallOrdPairs_NoDup_map {A B} (f : A -> B) (l : list A) :
  ForallOrdPairs (fun a b => f a <> f b) l -> NoDup (map f l).
Proof.
  induction 1 as [|a l Ha Hl IH]; simpl; constructor; [|exact IH].
  intro Hin. apply in_map_iff in Hin. destruct Hin as (b & Hb & Hin).
  rewrite Forall_forall in Ha. exact (Ha b Hin (eq_sym Hb)).
Qed.

Lemma ForallOrdPairs_weaken {A} (P Q : A -> A -> Prop) (l : list A) :
  (forall a b, In a l -> In b l -> P a b -> Q a b) ->
  ForallOrdPairs P l -> ForallOrdPairs Q l.
Proof.
  intros Himp H. induction H as [|a l Ha Hl IH]; constructor.
  - rewrite Forall_forall in Ha |- *. intros b Hb.
    apply Himp; [now left|now right|now apply Ha].
  - apply IH. intros x y Hx Hy. apply Himp; now right.
Qed.

(** ** More on find_mechanics_within_radius *)

Lemma option_eqb_refl {A} (eqb : A -> A -> bool) (a : option A) :
  (forall x, eqb x x = true) -> option_eqb eqb a a = true.
Proof. intro H. destruct a; simpl; auto. Qed.

Lemma option_eqb_sym {A} (eqb : A -> A -> bool) (a b : option A) :
  (forall x y, eqb x y = true -> eqb y x = true) ->
  option_eqb eqb a b = true -> option_eqb eqb b a = true.
Proof. intro H. destruct a, b; simpl; auto. Qed.

Lemma option_eqb_trans {A} (eqb : A -> A -> bool) (a b c : option A) :
  (forall x y z, eqb x y = true -> eqb y z = true -> eqb x z = true) ->
  option_eqb eqb a b = true -> option_eqb eqb b c = true ->
  option_eqb eqb a c = true.
Proof. intro H. destruct a, b, c; simpl; auto; try discriminate. apply H. Qed.

Lemma geography_eqb_refl (a : geography) : geography_eqb a a = true.
Proof.
  unfold geography_eqb. apply andb_true_iff. split; apply Qeq_bool_iff, Qeq_refl.
Qed.

Lemma geography_eqb_sym (a b : geography) :
  geography_eqb a b = true -> geography_eqb b a = true.
Proof.
  unfold geography_eqb. rewrite !andb_true_iff, !Qeq_bool_iff.
  intros [H1 H2]. split; now apply Qeq_sym.
Qed.

Lemma geography_eqb_trans (a b c : geography) :
  geography_eqb a b = true -> geography_eqb b c = true -> geography_eqb a c = true.
Proof.
  unfold geography_eqb. rewrite !andb_true_iff, !Qeq_bool_iff.
  intros [H1 H2] [H3 H4]. split; eapply Qeq_trans; eauto.
Qed.

Lemma same_group_refl (a : joined) : same_group a a = true.
Proof.
  destruct a as [[m ms] s]. unfold same_group.
  rewrite N.eqb_refl, String.eqb_refl. simpl.
  rewrite (option_eqb_refl _ _ geography_eqb_refl).
  now rewrite (option_eqb_refl _ _ Z.eqb_refl).
Qed.

Lemma same_group_sym (a b : joined) :
  same_group a b = true -> same_group b a = true.
Proof.
  destruct a as [[m1 ms1] s1], b as [[m2 ms2] s2]. unfold same_group.
  rewrite !andb_true_iff. intros [[[H1 H2] H3] H4]. repeat split.
  - now rewrite N.eqb_sym.
  - now rewrite String.eqb_sym.
  - revert H3. apply option_eqb_sym, geography_eqb_sym.
  - revert H4. apply option_eqb_sym. intros x y. now rewrite Z.eqb_sym.
Qed.

Lemma same_group_trans (a b c : joined) :
  same_group a b = true -> same_group b c = true -> same_group a c = true.
Proof.
  destruct a as [[m1 ms1] s1], b as [[m2 ms2] s2], c as [[m3 ms3] s3].
  unfold same_group. rewrite !andb_true_iff.
  intros [[[H1 H2] H3] H4] [[[K1 K2] K3] K4]. repeat split.
  - apply N.eqb_eq in H1, K1. apply N.eqb_eq. congruence.
  - apply String.eqb_eq in H2, K2. apply String.eqb_eq. congruence.
  - revert H3 K3. apply option_eqb_trans, geography_eqb_trans.
  - revert H4 K4. apply option_eqb_trans. intros x y z.
    rewrite !Z.eqb_eq. congruence.
Qed.

Lemma same_group_fields (a b : joined) :
  same_group a b = true ->
  Mechanic.id (fst (fst a)) = Mechanic.id (fst (fst b))
  /\ Mechanic.business_name (fst (fst a)) = Mechanic.business_name (fst (fst b))
  /\ Mechanic.rating (fst (fst a)) = Mechanic.rating (fst (fst b)).
Proof.
  destruct a as [[m1 ms1] s1], b as [[m2 ms2] s2]. unfold same_group. simpl.
  rewrite !andb_true_iff. intros [[[H1 H2] _] H4].
  apply N.eqb_eq in H1. apply String.eqb_eq in H2. repeat split; auto.
  destruct (Mechanic.rating m1), (Mechanic.rating m2); simpl in H4;
    try discriminate; auto.
  apply Z.eqb_eq in H4. now subst.
Qed.

Lemma select_row_fields {E : Engine} (lat lng : Q) (g : joined * list joined) :
  nr_id (select_row lat lng g) = Mechanic.id (fst (fst (fst g)))
  /\ nr_business_name (select_row lat lng g)
     = Mechanic.business_name (fst (fst (fst g)))
  /\ nr_rating (select_row lat lng g) = Mechanic.rating (fst (fst (fst g))).
Proof. unfold select_row. destruct (fst g) as [[m ms] s]. repeat split. Qed.

Lemma where_clause_intro {E : Engine} (lat lng : Q) (r : Z) (f : option string)
    (m : Mechanic.t) (ms : MechanicService.t) (s : Service.t) (g : geography) :
  Mechanic.is_active m = Some true ->
  Mechanic.is_verified m = Some true ->
  MechanicService.is_available ms = Some true ->
  Mechanic.location m = Some g ->
  ST_Distance g (ST_MakePoint lng lat) <= inject_Z r * meters_per_mile ->
  matches_filter f s = true ->
  where_clause lat lng r f (m, ms, s) = true.
Proof.
  intros Ha Hv Hav Hg Hd Hf. unfold where_clause, within_radius, ST_DWithin.
  rewrite Ha, Hv, Hav, Hg, Hf. simpl.
  rewrite andb_true_r. now apply Qle_bool_iff.
Qed.

(** The group of a row of the join that passes the [WHERE] clause. *)
Lemma eligible_group {E : Engine} (d : db) (lat lng : Q) (r : Z)
    (f : option string) (m : Mechanic.t) (ms : MechanicService.t)
    (s : Service.t) (g : geography) :
  In m (mechanics d) -> In ms (mechanic_services d) -> In s (services d) ->
  MechanicService.mechanic_id ms = Mechanic.id m ->
  Service.id s = MechanicService.service_id ms ->
  Mechanic.is_active m = Some true ->
  Mechanic.is_verified m = Some true ->
  MechanicService.is_available ms = Some true ->
  Mechanic.location m = Some g ->
  ST_Distance g (ST_MakePoint lng lat) <= inject_Z r * meters_per_mile ->
  matches_filter f s = true ->
  exists grp,
    In grp (group_by same_group
              (filter (where_clause lat lng r f) (from_mechanics_join d)))
    /\ In (m, ms, s) (group_rows grp)
    /\ same_group (fst grp) (m, ms, s) = true.
Proof.
  intros Hm Hms Hs e1 e2 Ha Hv Hav Hg Hd Hf.
  assert (Hrow : In (m, ms, s)
                   (filter (where_clause lat lng r f) (from_mechanics_join d))).
  { apply filter_In. split.
    - apply from_mechanics_join_In. repeat split; auto.
    - eapply where_clause_intro; eauto. }
  destruct (@group_by_covers _ same_group _ _ Hrow) as (grp & Hgrp & Hin).
  exists grp. repeat split; auto.
  exact (@group_rows_alike _ same_group same_group_refl _ _ _ Hgrp Hin).
Qed.

(** X1. A mechanic that is active and verified, lies within the radius and
    has an available offering of a service that passes the filter is
    returned, under its name and with its rating. *)
Theorem find_mechanics_within_radius_complete :
  forall (E : Engine) (d : db) (lat lng : Q) (r : Z) (f : option string)
         (m : Mechanic.t) (ms : MechanicService.t) (s : Service.t) (g : geography),
    In m (mechanics d) -> In ms (mechanic_services d) -> In s (services d) ->
    MechanicService.mechanic_id ms = Mechanic.id m ->
    Service.id s = MechanicService.service_id ms ->
    Mechanic.is_active m = Some true ->
    Mechanic.is_verified m = Some true ->
    MechanicService.is_available ms = Some true ->
    Mechanic.location m = Some g ->
    ST_Distance g (ST_MakePoint lng lat) <= inject_Z r * meters_per_mile ->
    matches_filter f s = true ->
    exists row,
      In row (find_mechanics_within_radius d lat lng r f)
      /\ nr_id row = Mechanic.id m
      /\ nr_business_name row = Mechanic.business_name m
      /\ nr_rating row = Mechanic.rating m.
Proof.
  intros E d lat lng r f m ms s g Hm Hms Hs e1 e2 Ha Hv Hav Hg Hd Hf.
  destruct (@eligible_group E d lat lng r f m ms s g) as (grp & Hgrp & _ & Hsame);
    auto.
  apply same_group_fields in Hsame. simpl in Hsame.
  destruct Hsame as (Hid & Hname & Hrating).
  destruct (select_row_fields lat lng grp) as (Sid & Sname & Srating).
  exists (select_row lat lng grp). split.
  - unfold find_mechanics_within_radius. apply order_by_In, in_map, Hgrp.
  - repeat split; congruence.
Qed.

(** The mechanic of Los Angeles is found from its own coordinates. *)
Lemma find_mechanics_within_radius_complete_witness :
  exists row,
    In row (@find_mechanics_within_radius example_engine Examples.los_angeles
              (340522 # 10000) (-1182437 # 10000) 1 None)
    /\ nr_id row = 10%N
    /\ nr_business_name row = "LA Auto"%string
    /\ nr_rating row = Some 0%Z.
Proof.
  apply (@find_mechanics_within_radius_complete example_engine
           Examples.los_angeles (340522 # 10000) (-1182437 # 10000) 1%Z None
           (Examples.shop 10%N "LA Auto" (340522 # 10000) (-1182437 # 10000))
           (Examples.offer 10%N 1%N 3000%Z 5000%Z) Examples.oil_change
           (ST_MakePoint (-1182437 # 10000) (340522 # 10000)));
    try reflexivity; try (now left).
  vm_compute. discriminate.
Defined.

Lemma result_groups_mechanic {E : Engine} (d : db) (lat lng : Q) (r : Z)
    (f : option string) (g : joined * list joined) (x : joined) :
  In g (group_by same_group
          (filter (where_clause lat lng r f) (from_mechanics_join d))) ->
  In x (group_rows g) ->
  In (fst (fst x)) (mechanics d)
  /\ In x (from_mechanics_join d)
  /\ where_clause lat lng r f x = true.
Proof.
  intros Hg Hx. pose proof (@group_by_rows _ _ _ _ _ Hg Hx) as Hrow.
  apply filter_In in Hrow. destruct Hrow as [Hjoin Hwhere].
  repeat split; auto. destruct x as [[m ms] s].
  now apply from_mechanics_join_In in Hjoin.
Qed.

(** X2. Under the primary key of [mechanics], no mechanic is returned
    twice. *)
Theorem find_mechanics_within_radius_distinct :
  forall (E : Engine) (d : db) (lat lng : Q) (r : Z) (f : option string),
    NoDup (map Mechanic.id (mechanics d)) ->
    NoDup (map nr_id (find_mechanics_within_radius d lat lng r f)).
Proof.
  intros E d lat lng r f Hkey. unfold find_mechanics_within_radius.
  eapply Permutation_NoDup.
  - apply Permutation_map, Permutation_sym, order_by_perm.
  - rewrite map_map. apply ForallOrdPairs_NoDup_map.
    eapply ForallOrdPairs_weaken; [|apply group_by_firsts].
    intros g1 g2 H1 H2 Hdiff Hid. simpl in Hdiff.
    destruct (select_row_fields lat lng g1) as (S1 & _).
    destruct (select_row_fields lat lng g2) as (S2 & _).
    rewrite S1, S2 in Hid.
    destruct (@result_groups_mechanic E d lat lng r f g1 (fst g1) H1 (or_introl eq_refl))
      as (M1 & _).
    destruct (@result_groups_mechanic E d lat lng r f g2 (fst g2) H2 (or_introl eq_refl))
      as (M2 & _).
    pose proof (NoDup_map_eq Mechanic.id (mechanics d) _ _ Hkey M1 M2 Hid) as Heq.
    destruct (fst g1) as [[m1 ms1] s1], (fst g2) as [[m2 ms2] s2].
    simpl in Heq. subst m2.
    assert (same_group (m1, ms1, s1) (m1, ms2, s2) = true).
    { rewrite <- (same_group_refl (m1, ms1, s1)). reflexivity. }
    congruence.
Qed.

(** The mechanic of Los Angeles, with a second offering, is returned once. *)
Lemma find_mechanics_within_radius_distinct_witness :
  NoDup (map nr_id
           (@find_mechanics_within_radius example_engine Examples.mixed_shops
              0 0 5 None)).
Proof.
  apply (@find_mechanics_within_radius_distinct example_engine
           Examples.mixed_shops 0 0 5%Z None).
  distinct_keys.
Defined.

Lemma like_two_percent (t : list ascii) : like ["%"%char; "%"%char] t = true.
Proof.
  apply like_percent. exists [], t. split; [reflexivity|apply like_percent_all].
Qed.

(** X4. The empty filter is no filter: the search with the filter [''] gives
    the rows of the search without filter. *)
Theorem find_mechanics_within_radius_empty_filter :
  forall (E : Engine) (d : db) (lat lng : Q) (r : Z),
    find_mechanics_within_radius d lat lng r (Some ""%string)
    = find_mechanics_within_radius d lat lng r None.
Proof.
  intros E d lat lng r. unfold find_mechanics_within_radius.
  do 3 f_equal. apply filter_ext. intros [[m ms] s].
  unfold where_clause, matches_filter, ilike. f_equal.
  apply like_two_percent.
Qed.

(** X5. A larger radius loses no mechanic. *)
Theorem find_mechanics_within_radius_monotone :
  forall (E : Engine) (d : db) (lat lng : Q) (r r' : Z) (f : option string)
         (id : uuid),
    (r <= r')%Z ->
    In id (map nr_id (find_mechanics_within_radius d lat lng r f)) ->
    In id (map nr_id (find_mechanics_within_radius d lat lng r' f)).
Proof.
  intros E d lat lng r r' f id Hr Hin.
  apply in_map_iff in Hin. destruct Hin as (row & <- & Hrow).
  destruct (result_row_facts _ _ _ _ _ _ Hrow)
    as (m & ms & s & g & Hm & Hms & Hs & Hid & e1 & e2 & Ha & Hv & Hav & Hf
        & Hg & Hd & _).
  destruct (@eligible_group E d lat lng r' f m ms s g)
    as (grp & Hgrp & _ & Hsame); auto.
  - eapply Qle_trans; [exact Hd|].
    apply Qmult_le_compat_r; [|discriminate]. now rewrite <- Zle_Qle.
  - apply same_group_fields in Hsame. simpl in Hsame. destruct Hsame as (Hid' & _).
    destruct (select_row_fields lat lng grp) as (Sid & _).
    apply in_map_iff. exists (select_row lat lng grp). split; [congruence|].
    unfold find_mechanics_within_radius. apply order_by_In, in_map, Hgrp.
Qed.

(** The mechanic found within one mile is found within ten. *)
Lemma find_mechanics_within_radius_monotone_witness :
  In 10%N (map nr_id
             (@find_mechanics_within_radius example_engine Examples.los_angeles
                (340522 # 10000) (-1182437 # 10000) 10 None)).
Proof.
  apply (@find_mechanics_within_radius_monotone example_engine
           Examples.los_angeles (340522 # 10000) (-1182437 # 10000) 1%Z 10%Z
           None 10%N).
  - lia.
  - vm_compute. left. reflexivity.
Defined.

(** X6. As a distance is not negative, a negative radius finds nothing. *)
Theorem find_mechanics_within_radius_negative :
  forall (E : Engine) (D : Distance E) (d : db) (lat lng : Q) (r : Z)
         (f : option string),
    (r < 0)%Z -> find_mechanics_within_radius d lat lng r f = [].
Proof.
  intros E D d lat lng r f Hr.
  destruct (find_mechanics_within_radius d lat lng r f) as [|row rows] eqn:Hres;
    [reflexivity|exfalso].
  assert (Hrow : In row (find_mechanics_within_radius d lat lng r f))
    by (rewrite Hres; now left).
  destruct (result_row_facts _ _ _ _ _ _ Hrow)
    as (m & ms & s & g & _ & _ & _ & _ & _ & _ & _ & _ & _ & _ & _ & Hd & _).
  pose proof (ST_Distance_nonneg g (ST_MakePoint lng lat)) as H0.
  assert (Hneg : inject_Z r * meters_per_mile < 0).
  { assert (inject_Z r < 0) by (change 0 with (inject_Z 0); now rewrite <- Zlt_Qlt).
    unfold meters_per_mile. lra. }
  lra.
Qed.

Lemma degrees_apart_nonneg (a b : geography) : 0 <= degrees_apart a b.
Proof.
  unfold degrees_apart.
  pose proof (Qabs_nonneg (point_x a - point_x b)).
  pose proof (Qabs_nonneg (point_y a - point_y b)).
  apply Qmult_le_0_compat; [lra|discriminate].
Qed.

#[export] Instance example_distance : Distance example_engine.
Proof. split. exact degrees_apart_nonneg. Defined.

(** A radius of minus five around the mechanic of Los Angeles. *)
Lemma find_mechanics_within_radius_negative_witness :
  @find_mechanics_within_radius example_engine Examples.los_angeles
    (340522 # 10000) (-1182437 # 10000) (-5) None = [].
Proof.
  apply (@find_mechanics_within_radius_negative example_engine example_distance).
  lia.
Defined.

(** ** The aggregates MIN and MAX *)

Lemma fold_min_spec (l : list Z) (x : Z) :
  In (fold_left Z.min l x) (x :: l)
  /\ forall y, In y (x :: l) -> (fold_left Z.min l x <= y)%Z.
Proof.
  revert x; induction l as [|a l IH]; intro x; simpl.
  - split; [now left|]. intros y [<-|[]]. lia.
  - destruct (IH (Z.min x a)) as [Hin Hle]. split.
    + destruct Hin as [Hin|Hin]; [|now right; right].
      rewrite <- Hin. destruct (Z.min_spec x a) as [[_ ->]|[_ ->]]; auto.
    + intros y Hy.
      assert (fold_left Z.min l (Z.min x a) <= Z.min x a)%Z by (apply Hle; now left).
      destruct Hy as [<-|[<-|Hy]]; [lia|lia|]. apply Hle. now right.
Qed.

Lemma fold_max_spec (l : list Z) (x : Z) :
  In (fold_left Z.max l x) (x :: l)
  /\ forall y, In y (x :: l) -> (y <= fold_left Z.max l x)%Z.
Proof.
  revert x; induction l as [|a l IH]; intro x; simpl.
  - split; [now left|]. intros y [<-|[]]. lia.
  - destruct (IH (Z.max x a)) as [Hin Hle]. split.
    + destruct Hin as [Hin|Hin]; [|now right; right].
      rewrite <- Hin. destruct (Z.max_spec x a) as [[_ ->]|[_ ->]]; auto.
    + intros y Hy.
      assert (Z.max x a <= fold_left Z.max l (Z.max x a))%Z by (apply Hle; now left).
      destruct Hy as [<-|[<-|Hy]]; [lia|lia|]. apply Hle. now right.
Qed.

Lemma MIN_spec (l : list Z) :
  l <> [] ->
  exists lo, MIN l = Some lo /\ In lo l /\ forall y, In y l -> (lo <= y)%Z.
Proof.
  destruct l as [|x l]; [congruence|]. intros _.
  exists (fold_left Z.min l x). split; [reflexivity|apply fold_min_spec].
Qed.

Lemma MAX_spec (l : list Z) :
  l <> [] ->
  exists hi, MAX l = Some hi /\ In hi l /\ forall y, In y l -> (y <= hi)%Z.
Proof.
  destruct l as [|x l]; [congruence|]. intros _.
  exists (fold_left Z.max l x). split; [reflexivity|apply fold_max_spec].
Qed.

(** X3. The [min_price] and [max_price] of a row are the least minimum and
    the greatest maximum over the offerings of the mechanic that are
    available and pass the filter; with the check of the prices on every
    stored offering, the first is at most the second. *)
Theorem find_mechanics_within_radius_prices :
  forall (E : Engine) (d : db) (lat lng : Q) (r : Z) (f : option string)
         (row : nearby_row),
    In row (find_mechanics_within_radius d lat lng r f) ->
    exists lo hi,
      nr_min_price row = Some lo /\ nr_max_price row = Some hi
      /\ (exists ms s,
            In ms (mechanic_services d) /\ In s (services d)
            /\ MechanicService.mechanic_id ms = nr_id row
            /\ Service.id s = MechanicService.service_id ms
            /\ MechanicService.is_available ms = Some true
            /\ matches_filter f s = true
            /\ MechanicService.min_price ms = lo)
      /\ (exists ms s,
            In ms (mechanic_services d) /\ In s (services d)
            /\ MechanicService.mechanic_id ms = nr_id row
            /\ Service.id s = MechanicService.service_id ms
            /\ MechanicService.is_available ms = Some true
            /\ matches_filter f s = true
            /\ MechanicService.max_price ms = hi)
      /\ (forall ms s,
            In ms (mechanic_services d) -> In s (services d) ->
            MechanicService.mechanic_id ms = nr_id row ->
            Service.id s = MechanicService.service_id ms ->
            MechanicService.is_available ms = Some true ->
            matches_filter f s = true ->
            (lo <= MechanicService.min_price ms)%Z
            /\ (MechanicService.max_price ms <= hi)%Z)
      /\ (prices_checked d -> (lo <= hi)%Z).
Proof.
  intros E d lat lng r f row Hrow.
  unfold find_mechanics_within_radius in Hrow.
  apply order_by_In, in_map_iff in Hrow. destruct Hrow as (grp & <- & Hgrp).
  destruct (select_row_fields lat lng grp) as (Sid & _).
  remember (map (fun x : joined => snd (fst x)) (group_rows grp)) as offers
    eqn:Hoffers.
  assert (Hsel : nr_min_price (select_row lat lng grp)
                 = MIN (map MechanicService.min_price offers)
                 /\ nr_max_price (select_row lat lng grp)
                    = MAX (map MechanicService.max_price offers)).
  { rewrite Hoffers. unfold select_row. destruct (fst grp) as [[m0 ms0] s0].
    split; reflexivity. }
  destruct Hsel as [Hmin Hmax].
  assert (Hoffer : forall ms, In ms offers ->
            exists s,
              In ms (mechanic_services d) /\ In s (services d)
              /\ MechanicService.mechanic_id ms = Mechanic.id (fst (fst (fst grp)))
              /\ Service.id s = MechanicService.service_id ms
              /\ MechanicService.is_available ms = Some true
              /\ matches_filter f s = true).
  { intros ms Hms. rewrite Hoffers in Hms. apply in_map_iff in Hms.
    destruct Hms as (x & <- & Hx).
    destruct (@result_groups_mechanic E d lat lng r f grp x Hgrp Hx)
      as (_ & Hjoin & Hwhere).
    pose proof (@group_rows_alike _ same_group same_group_refl _ _ _ Hgrp Hx) as Hsame.
    apply same_group_fields in Hsame. destruct Hsame as (Hid & _).
    destruct x as [[m ms] s]. simpl in *.
    apply from_mechanics_join_In in Hjoin.
    destruct Hjoin as (_ & Hms & Hs & e1 & e2).
    apply where_clause_true in Hwhere. destruct Hwhere as (_ & _ & Hav & _ & Hf).
    exists s. repeat split; auto; congruence. }
  assert (Hne1 : map MechanicService.min_price offers <> [])
    by (rewrite Hoffers; unfold group_rows; discriminate).
  assert (Hne2 : map MechanicService.max_price offers <> [])
    by (rewrite Hoffers; unfold group_rows; discriminate).
  destruct (MIN_spec Hne1) as (lo & Hlo & Hlo_in & Hlo_le).
  destruct (MAX_spec Hne2) as (hi & Hhi & Hhi_in & Hhi_le).
  exists lo, hi. rewrite Hmin, Hmax, Sid.
  split; [exact Hlo|]. split; [exact Hhi|].
  assert (Hall : forall ms s,
            In ms (mechanic_services d) -> In s (services d) ->
            MechanicService.mechanic_id ms = Mechanic.id (fst (fst (fst grp))) ->
            Service.id s = MechanicService.service_id ms ->
            MechanicService.is_available ms = Some true ->
            matches_filter f s = true ->
            In ms offers).
  { intros ms s Hms Hs e1 e2 Hav Hf.
    destruct (@result_groups_mechanic E d lat lng r f grp (fst grp) Hgrp
                (or_introl eq_refl)) as (Hm & _ & Hwhere).
    destruct (fst grp) as [[m0 ms0] s0] eqn:Hfirst. simpl in *.
    apply where_clause_true in Hwhere.
    destruct Hwhere as (Ha & Hv & _ & Hr & _).
    assert (Hin : In (m0, ms, s)
                    (filter (where_clause lat lng r f) (from_mechanics_join d))).
    { apply filter_In. split.
      - apply from_mechanics_join_In. repeat split; auto.
      - unfold where_clause. rewrite Ha, Hv, Hav, Hr, Hf. reflexivity. }
    assert (Hsame : same_group (fst grp) (m0, ms, s) = true).
    { rewrite Hfirst. rewrite <- (same_group_refl (m0, ms0, s0)). reflexivity. }
    pose proof (@group_by_whole _ same_group same_group_refl same_group_sym
                  same_group_trans _ _ _ Hgrp Hin Hsame) as Hx.
    rewrite Hoffers.
    exact (in_map (fun x : joined => snd (fst x)) (group_rows grp) (m0, ms, s) Hx). }
  split; [|split; [|split]].
  - apply in_map_iff in Hlo_in. destruct Hlo_in as (ms & Hp & Hms).
    destruct (Hoffer ms Hms) as (s & H). exists ms, s. intuition.
  - apply in_map_iff in Hhi_in. destruct Hhi_in as (ms & Hp & Hms).
    destruct (Hoffer ms Hms) as (s & H). exists ms, s. intuition.
  - intros ms s Hms Hs e1 e2 Hav Hf.
    pose proof (Hall ms s Hms Hs e1 e2 Hav Hf) as Hin. split.
    + apply Hlo_le. now apply in_map.
    + apply Hhi_le. now apply in_map.
  - intro Hchecked.
    apply in_map_iff in Hlo_in. destruct Hlo_in as (ms & Hp & Hms).
    destruct (Hoffer ms Hms) as (s & Hin & _).
    pose proof (Hchecked ms Hin).
    assert (MechanicService.max_price ms <= hi)%Z
      by (apply Hhi_le; now apply in_map).
    lia.
Qed.

(** The mechanic of Los Angeles, at 30.00 to 50.00. *)
Lemma find_mechanics_within_radius_prices_witness :
  exists lo hi,
    Some 3000%Z = Some lo /\ Some 5000%Z = Some hi
    /\ (exists ms s,
          In ms (mechanic_services Examples.los_angeles)
          /\ In s (services Examples.los_angeles)
          /\ MechanicService.mechanic_id ms = 10%N
          /\ Service.id s = MechanicService.service_id ms
          /\ MechanicService.is_available ms = Some true
          /\ matches_filter None s = true
          /\ MechanicService.min_price ms = lo)
    /\ (exists ms s,
          In ms (mechanic_services Examples.los_angeles)
          /\ In s (services Examples.los_angeles)
          /\ MechanicService.mechanic_id ms = 10%N
          /\ Service.id s = MechanicService.service_id ms
          /\ MechanicService.is_available ms = Some true
          /\ matches_filter None s = true
          /\ MechanicService.max_price ms = hi)
    /\ (forall ms s,
          In ms (mechanic_services Examples.los_angeles) ->
          In s (services Examples.los_angeles) ->
          MechanicService.mechanic_id ms = 10%N ->
          Service.id s = MechanicService.service_id ms ->
          MechanicService.is_available ms = Some true ->
          matches_filter None s = true ->
          (lo <= MechanicService.min_price ms)%Z
          /\ (MechanicService.max_price ms <= hi)%Z)
    /\ (prices_checked Examples.los_angeles -> (lo <= hi)%Z).
Proof.
  apply (@find_mechanics_within_radius_prices example_engine
           Examples.los_angeles (340522 # 10000) (-1182437 # 10000) 1%Z None
           (mk_nearby_row 10%N "LA Auto" (Some 0%Z) (Some 0%Z)
              (Some 3000%Z) (Some 5000%Z))).
  vm_compute. left. reflexivity.
Defined.

(** ** The view active_mechanics_with_services *)

Lemma view_where_true (m : Mechanic.t) (ms : MechanicService.t) (s : Service.t) :
  view_where (m, ms, s) = true <->
  Mechanic.is_active m = Some true
  /\ Mechanic.is_verified m = Some true
  /\ MechanicService.is_available ms = Some true.
Proof. unfold view_where. rewrite !andb_true_iff, !is_true_Some. tauto. Qed.

Lemma same_joined_mechanic_refl (a : joined) : same_joined_mechanic a a = true.
Proof. apply N.eqb_refl. Qed.

Lemma same_joined_mechanic_sym (a b : joined) :
  same_joined_mechanic a b = true -> same_joined_mechanic b a = true.
Proof. unfold same_joined_mechanic. now rewrite N.eqb_sym. Qed.

Lemma same_joined_mechanic_trans (a b c : joined) :
  same_joined_mechanic a b = true -> same_joined_mechanic b c = true ->
  same_joined_mechanic a c = true.
Proof. unfold same_joined_mechanic. rewrite !N.eqb_eq. congruence. Qed.

Section ViewFacts.

Context {E : Engine}.
Variable d : db.

Local Notation "'view_groups'" :=
  (group_by same_joined_mechanic (filter view_where (from_mechanics_join d))).

Lemma view_group_row (g : joined * list joined) (x : joined) :
  In g view_groups -> In x (group_rows g) ->
  In (fst (fst x)) (mechanics d) /\ In (snd (fst x)) (mechanic_services d)
  /\ In (snd x) (services d)
  /\ Mechanic.id (fst (fst x)) = Mechanic.id (fst (fst (fst g)))
  /\ MechanicService.mechanic_id (snd (fst x)) = Mechanic.id (fst (fst x))
  /\ Service.id (snd x) = MechanicService.service_id (snd (fst x))
  /\ Mechanic.is_active (fst (fst x)) = Some true
  /\ Mechanic.is_verified (fst (fst x)) = Some true
  /\ MechanicService.is_available (snd (fst x)) = Some true.
Proof.
  intros Hg Hx. pose proof (@group_by_rows _ _ _ _ _ Hg Hx) as Hrow.
  pose proof (@group_rows_alike _ _ same_joined_mechanic_refl _ _ _ Hg Hx) as Hsame.
  apply N.eqb_eq in Hsame.
  apply filter_In in Hrow. destruct Hrow as [Hjoin Hwhere].
  destruct x as [[m ms] s].
  apply from_mechanics_join_In in Hjoin.
  apply (proj1 (view_where_true m ms s)) in Hwhere.
  destruct Hjoin as (Hm & Hms & Hs & e1 & e2). destruct Hwhere as (Ha & Hv & Hav).
  simpl in *. repeat split; auto.
Qed.

Lemma view_group_of (m : Mechanic.t) (ms : MechanicService.t) (s : Service.t) :
  In m (mechanics d) -> In ms (mechanic_services d) -> In s (services d) ->
  MechanicService.mechanic_id ms = Mechanic.id m ->
  Service.id s = MechanicService.service_id ms ->
  Mechanic.is_active m = Some true ->
  Mechanic.is_verified m = Some true ->
  MechanicService.is_available ms = Some true ->
  exists g, In g view_groups /\ In (m, ms, s) (group_rows g)
            /\ Mechanic.id (fst (fst (fst g))) = Mechanic.id m.
Proof.
  intros Hm Hms Hs e1 e2 Ha Hv Hav.
  assert (Hrow : In (m, ms, s) (filter view_where (from_mechanics_join d))).
  { apply filter_In. split.
    - apply from_mechanics_join_In. repeat split; auto.
    - apply view_where_true. auto. }
  destruct (@group_by_covers _ same_joined_mechanic _ _ Hrow) as (g & Hg & Hin).
  exists g. repeat split; auto.
  pose proof (@group_rows_alike _ _ same_joined_mechanic_refl _ _ _ Hg Hin) as H.
  now apply N.eqb_eq in H.
Qed.

End ViewFacts.

(** X7. The view lists, once each, the mechanics that are active and
    verified and have an available offering of a service of the catalog. *)
Theorem active_mechanics_with_services_lists :
  forall (E : Engine) (d : db),
    (forall id,
       In id (map vr_id (active_mechanics_with_services d)) <->
       exists m ms s,
         In m (mechanics d) /\ In ms (mechanic_services d) /\ In s (services d)
         /\ Mechanic.id m = id
         /\ MechanicService.mechanic_id ms = id
         /\ Service.id s = MechanicService.service_id ms
         /\ Mechanic.is_active m = Some true
         /\ Mechanic.is_verified m = Some true
         /\ MechanicService.is_available ms = Some true)
    /\ NoDup (map vr_id (active_mechanics_with_services d)).
Proof.
  intros E d. unfold active_mechanics_with_services. split.
  - intro id. rewrite map_map. split.
    + intro Hin. apply in_map_iff in Hin. destruct Hin as (g & Hid & Hg).
      destruct (@view_group_row d g (fst g) Hg (or_introl eq_refl))
        as (Hm & Hms & Hs & _ & e1 & e2 & Ha & Hv & Hav).
      simpl in Hid. destruct (fst g) as [[m ms] s]. simpl in *.
      exists m, ms, s. repeat split; auto; congruence.
    + intros (m & ms & s & Hm & Hms & Hs & Hid & e1 & e2 & Ha & Hv & Hav).
      destruct (@view_group_of d m ms s) as (g & Hg & _ & Hgid); auto; [congruence|].
      apply in_map_iff. exists g. split; [simpl; congruence|exact Hg].
  - rewrite map_map. apply ForallOrdPairs_NoDup_map.
    eapply ForallOrdPairs_weaken; [|apply group_by_firsts].
    intros g1 g2 _ _ Hdiff Hid. simpl in Hdiff, Hid.
    unfold same_joined_mechanic in Hdiff. apply N.eqb_neq in Hdiff. contradiction.
Qed.

(** X8. Every mechanic that the proximity search returns is a row of the
    view. *)
Theorem find_mechanics_within_radius_in_view :
  forall (E : Engine) (d : db) (lat lng : Q) (r : Z) (f : option string)
         (id : uuid),
    In id (map nr_id (find_mechanics_within_radius d lat lng r f)) ->
    In id (map vr_id (active_mechanics_with_services d)).
Proof.
  intros E d lat lng r f id Hin.
  apply in_map_iff in Hin. destruct Hin as (row & <- & Hrow).
  destruct (result_row_facts _ _ _ _ _ _ Hrow)
    as (m & ms & s & g & Hm & Hms & Hs & Hid & e1 & e2 & Ha & Hv & Hav & _).
  destruct (@view_group_of d m ms s) as (grp & Hgrp & _ & Hgid); auto.
  unfold active_mechanics_with_services. rewrite map_map.
  apply in_map_iff. exists grp. split; [simpl; congruence|exact Hgrp].
Qed.

(** The mechanic of Los Angeles, found by the search, is in the view. *)
Lemma find_mechanics_within_radius_in_view_witness :
  In 10%N (map vr_id (@active_mechanics_with_services example_engine
                        Examples.los_angeles)).
Proof.
  apply (@find_mechanics_within_radius_in_view example_engine
           Examples.los_angeles (340522 # 10000) (-1182437 # 10000) 1%Z None).
  vm_compute. left. reflexivity.
Defined.

(** X9. The [services] of a row of the view are the distinct names of the
    services of the available offerings of the mechanic: an offering that is
    not available adds no name, unlike in the answer of GET
    /api/mechanics/:id. *)
Theorem active_mechanics_with_services_names :
  forall (E : Engine) (d : db) (row : view_row),
    In row (active_mechanics_with_services d) ->
    exists names,
      vr_services row = Some names /\ NoDup names
      /\ forall name,
           In name names <->
           exists ms s,
             In ms (mechanic_services d) /\ In s (services d)
             /\ MechanicService.mechanic_id ms = vr_id row
             /\ Service.id s = MechanicService.service_id ms
             /\ MechanicService.is_available ms = Some true
             /\ Service.name s = name.
Proof.
  intros E d row Hrow. unfold active_mechanics_with_services in Hrow.
  apply in_map_iff in Hrow. destruct Hrow as (g & <- & Hg).
  set (all := map (fun r : joined => Service.name (snd r)) (group_rows g)).
  exists (order_by text_leb (nodup string_dec all)).
  split; [reflexivity|]. split.
  - eapply Permutation_NoDup; [apply Permutation_sym, order_by_perm|].
    apply NoDup_nodup.
  - intro name. rewrite order_by_In, nodup_In. unfold all. rewrite in_map_iff.
    split.
    + intros (x & <- & Hx).
      destruct (@view_group_row d g x Hg Hx)
        as (_ & Hms & Hs & Hid & e1 & e2 & _ & _ & Hav).
      exists (snd (fst x)), (snd x). repeat split; auto. simpl. congruence.
    + intros (ms & s & Hms & Hs & e1 & e2 & Hav & <-).
      destruct (@view_group_row d g (fst g) Hg (or_introl eq_refl))
        as (Hm & _ & _ & _ & _ & _ & Ha & Hv & _).
      simpl in e1.
      destruct (@view_group_of d (fst (fst (fst g))) ms s)
        as (g' & Hg' & Hin & Hgid); auto.
      assert (Hin' : In (fst (fst (fst g)), ms, s) (group_rows g)).
      { apply (@group_by_whole _ same_joined_mechanic same_joined_mechanic_refl
                 same_joined_mechanic_sym same_joined_mechanic_trans
                 (filter view_where (from_mechanics_join d)) g).
        - exact Hg.
        - exact (@group_by_rows _ _ _ _ _ Hg' Hin).
        - apply N.eqb_refl. }
      exists (fst (fst (fst g)), ms, s). split; [reflexivity|exact Hin'].
Qed.

(** The garage of the example has one available offering and one that is
    not: the view names the first only. *)
Lemma active_mechanics_with_services_names_witness :
  exists names,
    Some ["Brake Inspection"%string] = Some names /\ NoDup names
    /\ forall name,
         In name names <->
         exists ms s,
           In ms (mechanic_services Listing.garages)
           /\ In s (services Listing.garages)
           /\ MechanicService.mechanic_id ms = Mechanic.id Listing.garage
           /\ Service.id s = MechanicService.service_id ms
           /\ MechanicService.is_available ms = Some true
           /\ Service.name s = name.
Proof.
  apply (@active_mechanics_with_services_names example_engine Listing.garages
           (mk_view_row (Mechanic.id Listing.garage) "Garage"
              (Some 0) (Some 0) (Some 0%Z) (Some 0%Z)
              (Some ["Brake Inspection"%string]) (Some 4000%Z) (Some 6000%Z))).
  vm_compute. left. reflexivity.
Defined.

(** ** More on the triggers *)

Lemma update_mechanic_location_is_derived (NEW : Mechanic.t) :
  location_derived (update_mechanic_location NEW).
Proof.
  unfold location_derived, update_mechanic_location.
  destruct (Mechanic.latitude NEW) as [lat|] eqn:Hlat;
    destruct (Mechanic.longitude NEW) as [lng|] eqn:Hlng; simpl;
    intros lat' lng' H1 H2; congruence.
Qed.

Lemma update_mechanics_derived (target : uuid) (set : Mechanic.t -> Mechanic.t)
    (d : db) :
  (forall m, In m (mechanics d) -> location_derived m) ->
  forall m, In m (mechanics (update_mechanics target set d)) -> location_derived m.
Proof.
  intros Hd m Hm. unfold update_mechanics in Hm. simpl in Hm.
  apply in_map_iff in Hm. destruct Hm as (m0 & <- & Hm0).
  destruct (N.eqb (Mechanic.id m0) target).
  - apply update_mechanic_location_is_derived.
  - now apply Hd.
Qed.

Lemma fold_update_mechanic_rating_derived (rows : list Review.t) (d : db) :
  (forall m, In m (mechanics d) -> location_derived m) ->
  forall m,
    In m (mechanics (fold_left (fun acc NEW => update_mechanic_rating NEW acc) rows d)) ->
    location_derived m.
Proof.
  revert d; induction rows as [|r rows IH]; intros d Hd; simpl; [exact Hd|].
  apply IH. unfold update_mechanic_rating. now apply update_mechanics_derived.
Qed.

(** X10. The writes keep the location of every mechanic derived from its
    coordinates: if each stored mechanic that has both coordinates has their
    point as location, so it is after an insert or an update of mechanics
    and after an insert or an update of reviews, whose trigger updates
    mechanics. *)
Theorem writes_keep_location_derived :
  forall d : db,
    (forall m, In m (mechanics d) -> location_derived m) ->
    (forall NEW d', insert_mechanic NEW d = Some d' ->
       forall m, In m (mechanics d') -> location_derived m)
    /\ (forall target set m,
          In m (mechanics (update_mechanics target set d)) -> location_derived m)
    /\ (forall r d', insert_review r d = Some d' ->
          forall m, In m (mechanics d') -> location_derived m)
    /\ (forall target set d', update_review target set d = Some d' ->
          forall m, In m (mechanics d') -> location_derived m).
Proof.
  intros d Hd. split; [|split; [|split]].
  - intros NEW d' Hins m Hm. unfold insert_mechanic in Hins.
    destruct (has_mechanic d (Mechanic.id NEW)); [discriminate|].
    injection Hins as <-. simpl in Hm. apply in_app_or in Hm.
    destruct Hm as [Hm|[<-|[]]]; [now apply Hd|].
    apply update_mechanic_location_is_derived.
  - intros target set. now apply update_mechanics_derived.
  - intros r d' Hins. apply insert_review_Some in Hins. destruct Hins as [-> _].
    unfold update_mechanic_rating. now apply update_mechanics_derived.
  - intros target set d' Hup. unfold update_review in Hup.
    destruct (forallb _ _); [|discriminate]. injection Hup as <-.
    now apply fold_update_mechanic_rating_derived.
Qed.

(** The coordinates of the mechanic of Los Angeles are cleared. *)
Lemma writes_keep_location_derived_witness :
  Forall location_derived
    (mechanics (update_mechanics 10%N clear_coordinates Examples.los_angeles)).
Proof.
  assert (H : forall m, In m (mechanics Examples.los_angeles) -> location_derived m).
  { intros m [<-|[]]. apply update_mechanic_location_is_derived. }
  apply Forall_forall. intro m.
  apply (proj1 (proj2 (writes_keep_location_derived Examples.los_angeles H))).
Defined.

Lemma search_transfer {E : Engine} (d d' : db) (lat lng : Q) (r : Z)
    (f : option string) (id : uuid) :
  (forall m, In m (mechanics d) ->
     exists m', In m' (mechanics d') /\ searched_alike m m') ->
  mechanic_services d' = mechanic_services d ->
  services d' = services d ->
  In id (map nr_id (find_mechanics_within_radius d lat lng r f)) ->
  In id (map nr_id (find_mechanics_within_radius d' lat lng r f)).
Proof.
  intros Hmech Hoffers Hservices Hin.
  apply in_map_iff in Hin. destruct Hin as (row & <- & Hrow).
  destruct (result_row_facts _ _ _ _ _ _ Hrow)
    as (m & ms & s & g & Hm & Hms & Hs & Hid & e1 & e2 & Ha & Hv & Hav & Hf
        & Hg & Hd & _).
  destruct (Hmech m Hm) as (m' & Hm' & Hid' & Hloc & Hact & Hver).
  destruct (@eligible_group E d' lat lng r f m' ms s g)
    as (grp & Hgrp & _ & Hsame); try congruence.
  apply same_group_fields in Hsame. simpl in Hsame. destruct Hsame as (Hgid & _).
  destruct (select_row_fields lat lng grp) as (Sid & _).
  apply in_map_iff. exists (select_row lat lng grp). split; [congruence|].
  unfold find_mechanics_within_radius. apply order_by_In, in_map, Hgrp.
Qed.

Lemma clear_coordinates_stored (target : uuid) (m : Mechanic.t) :
  searched_alike m
    (if N.eqb (Mechanic.id m) target
     then update_mechanic_location (clear_coordinates m) else m).
Proof.
  destruct (N.eqb (Mechanic.id m) target); repeat split.
Qed.

(** X11. The trigger never clears a location: after the coordinates of a
    mechanic are set to null its location is the one it had, and the search
    returns the same mechanics as before. *)
Theorem clear_coordinates_keeps_location :
  forall (E : Engine) (d : db) (target : uuid) (lat lng : Q) (r : Z)
         (f : option string),
    (forall m, In m (mechanics d) ->
       exists m', In m' (mechanics (update_mechanics target clear_coordinates d))
                  /\ Mechanic.id m' = Mechanic.id m
                  /\ Mechanic.location m' = Mechanic.location m
                  /\ (Mechanic.id m = target ->
                      Mechanic.latitude m' = None /\ Mechanic.longitude m' = None))
    /\ (forall id,
          In id (map nr_id (find_mechanics_within_radius d lat lng r f)) <->
          In id (map nr_id
                   (find_mechanics_within_radius
                      (update_mechanics target clear_coordinates d) lat lng r f))).
Proof.
  intros E d target lat lng r f.
  assert (Hfwd : forall m, In m (mechanics d) ->
            exists m', In m' (mechanics (update_mechanics target clear_coordinates d))
                       /\ searched_alike m m').
  { intros m Hm. eexists. split.
    - unfold update_mechanics. simpl. apply in_map_iff. exists m. split; [reflexivity|exact Hm].
    - apply clear_coordinates_stored. }
  assert (Hback : forall m', In m' (mechanics (update_mechanics target clear_coordinates d)) ->
            exists m, In m (mechanics d) /\ searched_alike m' m).
  { intros m' Hm'. unfold update_mechanics in Hm'. simpl in Hm'.
    apply in_map_iff in Hm'. destruct Hm' as (m & <- & Hm).
    exists m. split; [exact Hm|].
    destruct (clear_coordinates_stored target m) as (H1 & H2 & H3 & H4).
    repeat split; congruence. }
  split.
  - intros m Hm.
    exists (if N.eqb (Mechanic.id m) target
            then update_mechanic_location (clear_coordinates m) else m).
    split.
    + unfold update_mechanics. simpl. apply in_map_iff. now exists m.
    + destruct (N.eqb_spec (Mechanic.id m) target) as [e|ne];
        repeat split; auto; contradiction.
  - intro id. split.
    + apply search_transfer; auto.
    + apply search_transfer; auto.
Qed.

(** ** The range of the rating *)

Lemma fold_add_bounds (l : list Z) (a : Z) :
  (forall x, In x l -> (1 <= x <= 5)%Z) ->
  (a + Z.of_nat (List.length l) <= fold_left Z.add l a
   <= a + 5 * Z.of_nat (List.length l))%Z.
Proof.
  revert a; induction l as [|x l IH]; intros a Hl; simpl List.length; simpl fold_left.
  - lia.
  - assert (1 <= x <= 5)%Z by (apply Hl; now left).
    assert (Hl' : forall y, In y l -> (1 <= y <= 5)%Z) by (intros y Hy; apply Hl; now right).
    specialize (IH (a + x)%Z Hl'). lia.
Qed.

Lemma rounded_mean_bounds (l : list Z) :
  l <> [] -> (forall x, In x l -> (1 <= x <= 5)%Z) ->
  (100 <= rounded_mean l <= 500)%Z.
Proof.
  intros Hne Hl. unfold rounded_mean, SUM.
  pose proof (fold_add_bounds l 0 Hl) as [Hlo Hhi].
  set (n := Z.of_nat (List.length l)) in *.
  set (total := fold_left Z.add l 0%Z) in *.
  assert (Hn : (0 < n)%Z) by (destruct l; [congruence|unfold n; simpl; lia]).
  assert (Hnq : 0 < inject_Z n) by (change 0 with (inject_Z 0); now rewrite <- Zlt_Qlt).
  assert (H1 : inject_Z 1 <= inject_Z total / inject_Z n).
  { apply Qle_shift_div_l; [exact Hnq|].
    rewrite <- inject_Z_mult, <- Zle_Qle. lia. }
  assert (H5 : inject_Z total / inject_Z n <= inject_Z 5).
  { apply Qle_shift_div_r; [exact Hnq|].
    rewrite <- inject_Z_mult, <- Zle_Qle. lia. }
  apply ROUND2_le in H1. apply ROUND2_le in H5.
  rewrite ROUND2_Z in H1, H5. lia.
Qed.

Lemma published_ratings_checked (d : db) (id : uuid) :
  ratings_checked d ->
  forall x, In x (published_ratings d id) -> (1 <= x <= 5)%Z.
Proof.
  intros Hd x Hx. unfold published_ratings in Hx.
  apply in_map_iff in Hx. destruct Hx as (r & <- & Hr).
  apply filter_In in Hr. now apply Hd.
Qed.

Lemma recomputed_rating_range (d : db) (id : uuid) (m : Mechanic.t) :
  ratings_checked d -> rating_recomputed d id ->
  In m (mechanics d) -> Mechanic.id m = id ->
  match Mechanic.rating m with
  | Some x => (100 <= x <= 500)%Z
  | None => published_ratings d id = []
  end.
Proof.
  intros Hc Hd Hm Hid. destruct (Hd m Hm Hid) as [-> _].
  destruct (published_ratings d id) as [|x l] eqn:Hp; [reflexivity|].
  rewrite AVG_rounded_mean by discriminate. simpl.
  apply rounded_mean_bounds; [discriminate|].
  rewrite <- Hp. now apply published_ratings_checked.
Qed.

Lemma review_ok_rating (d : db) (r : Review.t) :
  review_ok d r = true -> (1 <= Review.rating r <= 5)%Z.
Proof. unfold review_ok. rewrite !andb_true_iff, !Z.leb_le. tauto. Qed.

Lemma insert_review_checked (r : Review.t) (d d' : db) :
  ratings_checked d -> insert_review r d = Some d' -> ratings_checked d'.
Proof.
  intros Hd Hins. apply insert_review_Some in Hins. destruct Hins as [-> Hok].
  intros x Hx. simpl in Hx. apply in_app_or in Hx.
  destruct Hx as [Hx|[<-|[]]]; [now apply Hd|now apply (review_ok_rating d)].
Qed.

Lemma update_review_checked (target : uuid) (set : Review.t -> Review.t)
    (d d' : db) :
  ratings_checked d -> update_review target set d = Some d' -> ratings_checked d'.
Proof.
  intros Hd Hup. unfold update_review in Hup.
  destruct (forallb _ _) eqn:Hall; [|discriminate]. injection Hup as <-.
  intros x Hx. rewrite fold_update_mechanic_rating_reviews in Hx. simpl in Hx.
  apply in_map_iff in Hx. destruct Hx as (old & Hnew & Hold).
  destruct (N.eqb (Review.id old) target) eqn:Ht.
  - rewrite forallb_forall in Hall. apply (review_ok_rating d). apply Hall.
    rewrite <- Hnew. apply in_map_iff. exists old. split; [reflexivity|].
    apply filter_In. auto.
  - subst x. now apply Hd.
Qed.

(** X12. With the check of [reviews.rating] on every stored review, an
    insert or an update of a review keeps it so, and leaves the mechanic of
    the new row with a rating between 1.00 and 5.00, or with a null rating
    when it has no published review. *)
Theorem rating_in_range :
  forall d : db,
    ratings_checked d ->
    (forall r d' m,
       insert_review r d = Some d' ->
       ratings_checked d'
       /\ (In m (mechanics d') -> Mechanic.id m = Review.mechanic_id r ->
           match Mechanic.rating m with
           | Some x => (100 <= x <= 500)%Z
           | None => published_ratings d' (Review.mechanic_id r) = []
           end))
    /\ (forall target set d' NEW m,
          update_review target set d = Some d' ->
          ratings_checked d'
          /\ (In NEW (reviews d') -> Review.id NEW = target ->
              In m (mechanics d') -> Mechanic.id m = Review.mechanic_id NEW ->
              match Mechanic.rating m with
              | Some x => (100 <= x <= 500)%Z
              | None => published_ratings d' (Review.mechanic_id NEW) = []
              end)).
Proof.
  intros d Hd. split.
  - intros r d' m Hins.
    pose proof (@insert_review_checked r d d' Hd Hins) as Hd'. split; [exact Hd'|].
    intros Hm Hid. eapply recomputed_rating_range; eauto.
    eapply insert_review_recomputed; eauto.
  - intros target set d' NEW m Hup.
    pose proof (@update_review_checked target set d d' Hd Hup) as Hd'. split; [exact Hd'|].
    intros Hin Hid Hm Hmid. eapply recomputed_rating_range; eauto.
    eapply update_review_recomputed; eauto.
Qed.

(** The first review of the scenario. *)
Lemma rating_in_range_witness :
  ratings_checked Ratings.after_first
  /\ (In (Mechanic.set_rating
            (new_mechanic 10%N "LA Auto" None None (Some true) (Some true))
            (Some 500%Z) (Some 1%Z))
         (mechanics Ratings.after_first) ->
      10%N = 10%N ->
      (100 <= 500 <= 500)%Z).
Proof.
  refine (proj1 (@rating_in_range Ratings.registered _) Ratings.first_review
            Ratings.after_first
            (Mechanic.set_rating
               (new_mechanic 10%N "LA Auto" None None (Some true) (Some true))
               (Some 500%Z) (Some 1%Z)) eq_refl).
  intros r [].
Defined.

(** ** What the rating trigger leaves alone *)

Lemma rating_stored_alike (m : Mechanic.t) (a : option numeric2) (c : option Z) :
  location_derived m ->
  searched_alike m (update_mechanic_location (Mechanic.set_rating m a c))
  /\ searched_alike (update_mechanic_location (Mechanic.set_rating m a c)) m.
Proof.
  intro Hm. unfold location_derived in Hm.
  unfold searched_alike, update_mechanic_location. destruct m as [i n la lo loc ra rc v ac].
  simpl in *. destruct la as [lat|], lo as [lng|]; simpl; repeat split;
    try (now rewrite (Hm lat lng eq_refl eq_refl)).
Qed.

Lemma update_mechanic_rating_other (NEW : Review.t) (d : db) (m : Mechanic.t) :
  Mechanic.id m <> Review.mechanic_id NEW ->
  In m (mechanics (update_mechanic_rating NEW d)) <-> In m (mechanics d).
Proof.
  intro Hne. unfold update_mechanic_rating, update_mechanics. simpl.
  rewrite in_map_iff. split.
  - intros (m0 & Hm0 & Hin).
    destruct (N.eqb_spec (Mechanic.id m0) (Review.mechanic_id NEW)) as [e|ne].
    + exfalso. apply Hne. rewrite <- e, <- Hm0.
      now destruct (update_mechanic_location_keeps
                      (Mechanic.set_rating m0
                         (option_map ROUND2
                            (AVG (published_ratings d (Review.mechanic_id NEW))))
                         (Some (COUNT (published_ratings d (Review.mechanic_id NEW))))))
        as (-> & _).
    + now subst m0.
  - intro Hin. exists m. split; [|exact Hin].
    now destruct (N.eqb_spec (Mechanic.id m) (Review.mechanic_id NEW)).
Qed.

Lemma update_mechanic_rating_ids (NEW : Review.t) (d : db) :
  map Mechanic.id (mechanics (update_mechanic_rating NEW d))
  = map Mechanic.id (mechanics d).
Proof.
  unfold update_mechanic_rating, update_mechanics. simpl. rewrite map_map.
  apply map_ext. intro m.
  destruct (N.eqb (Mechanic.id m) (Review.mechanic_id NEW)); [|reflexivity].
  now destruct (update_mechanic_location_keeps
                  (Mechanic.set_rating m
                     (option_map ROUND2
                        (AVG (published_ratings d (Review.mechanic_id NEW))))
                     (Some (COUNT (published_ratings d (Review.mechanic_id NEW))))))
    as (-> & _).
Qed.

Lemma update_mechanic_rating_alike (NEW : Review.t) (d : db) :
  (forall m, In m (mechanics d) -> location_derived m) ->
  (forall m, In m (mechanics d) ->
     exists m', In m' (mechanics (update_mechanic_rating NEW d))
                /\ searched_alike m m')
  /\ (forall m', In m' (mechanics (update_mechanic_rating NEW d)) ->
        exists m, In m (mechanics d) /\ searched_alike m' m).
Proof.
  intro Hd. unfold update_mechanic_rating, update_mechanics. simpl. split.
  - intros m Hm. eexists. split; [apply in_map_iff; exists m; split; [reflexivity|exact Hm]|].
    destruct (N.eqb (Mechanic.id m) (Review.mechanic_id NEW)).
    + now apply rating_stored_alike, Hd.
    + repeat split.
  - intros m' Hm'. apply in_map_iff in Hm'. destruct Hm' as (m & <- & Hm).
    exists m. split; [exact Hm|].
    destruct (N.eqb (Mechanic.id m) (Review.mechanic_id NEW)).
    + now apply rating_stored_alike, Hd.
    + repeat split.
Qed.

(** X13. An accepted insert of a review appends the review, runs the trigger
    and changes nothing else: the other tables and the identifiers of the
    mechanics are the same, every mechanic other than the one reviewed is
    stored as it was, and, the locations being derived from the coordinates,
    every search returns the same mechanics as before. *)
Theorem insert_review_local :
  forall (E : Engine) (d d' : db) (r : Review.t),
    (forall m, In m (mechanics d) -> location_derived m) ->
    insert_review r d = Some d' ->
    reviews d' = reviews d ++ [r]
    /\ services d' = services d
    /\ service_translations d' = service_translations d
    /\ mechanic_services d' = mechanic_services d
    /\ map Mechanic.id (mechanics d') = map Mechanic.id (mechanics d)
    /\ (forall m, Mechanic.id m <> Review.mechanic_id r ->
          (In m (mechanics d') <-> In m (mechanics d)))
    /\ (forall lat lng radius filter id,
          In id (map nr_id (find_mechanics_within_radius d lat lng radius filter))
          <-> In id (map nr_id (find_mechanics_within_radius d' lat lng radius filter))).
Proof.
  intros E d d' r Hd Hins. apply insert_review_Some in Hins. destruct Hins as [-> _].
  repeat split; try reflexivity.
  - exact (update_mechanic_rating_ids r (set_reviews d (reviews d ++ [r]))).
  - now apply (@update_mechanic_rating_other r (set_reviews d (reviews d ++ [r]))).
  - now apply (@update_mechanic_rating_other r (set_reviews d (reviews d ++ [r]))).
  - apply search_transfer; try reflexivity.
    apply (proj1 (@update_mechanic_rating_alike r
                    (set_reviews d (reviews d ++ [r])) Hd)).
  - apply search_transfer; try reflexivity.
    apply (proj2 (@update_mechanic_rating_alike r
                    (set_reviews d (reviews d ++ [r])) Hd)).
Qed.

Lemma fold_update_mechanic_rating_other (rows : list Review.t) (d : db)
    (m : Mechanic.t) :
  (forall NEW, In NEW rows -> Mechanic.id m <> Review.mechanic_id NEW) ->
  In m (mechanics (fold_left (fun acc NEW => update_mechanic_rating NEW acc) rows d))
  <-> In m (mechanics d).
Proof.
  revert d; induction rows as [|r rows IH]; intros d Hrows; simpl; [tauto|].
  rewrite IH by (intros NEW HNEW; apply Hrows; now right).
  apply update_mechanic_rating_other, Hrows. now left.
Qed.

(** X14. The trigger of an update of reviews recomputes the mechanics of the
    new rows only: a mechanic that no changed review is assigned to is stored
    as it was, also when the update takes a review away from it. *)
Theorem update_review_keeps_former_mechanic :
  forall (d d' : db) (target : uuid) (set : Review.t -> Review.t) (m : Mechanic.t),
    update_review target set d = Some d' ->
    (forall old, In old (reviews d) -> Review.id old = target ->
       Review.mechanic_id (set old) <> Mechanic.id m) ->
    (In m (mechanics d') <-> In m (mechanics d)).
Proof.
  intros d d' target set m Hup Hother. unfold update_review in Hup.
  destruct (forallb _ _); [|discriminate]. injection Hup as <-.
  rewrite fold_update_mechanic_rating_other; [reflexivity|].
  intros NEW HNEW. apply in_map_iff in HNEW. destruct HNEW as (old & <- & Hold).
  apply filter_In in Hold. destruct Hold as [Hold Hid]. apply N.eqb_eq in Hid.
  simpl. intro e. now apply (Hother old Hold Hid).
Qed.

(** The review of the first of two mechanics is assigned to the second: the
    first keeps its rating 5.00 and its count 1 with no published review. *)
Lemma update_review_keeps_former_mechanic_witness :
  exists d',
    update_review 1%N Listing.move_to_second Listing.reviewed = Some d'
    /\ In (Mechanic.set_rating
             (new_mechanic 10%N "First" None None (Some true) (Some true))
             (Some 500%Z) (Some 1%Z))
          (mechanics d')
    /\ published_ratings d' 10%N = [].
Proof.
  destruct (update_review 1%N Listing.move_to_second Listing.reviewed)
    as [d'|] eqn:Hup; [|vm_compute in Hup; discriminate Hup].
  exists d'. split; [reflexivity|]. split.
  - assert (Hother : forall old, In old (reviews Listing.reviewed) ->
                      Review.id old = 1%N ->
                      Review.mechanic_id (Listing.move_to_second old) <> 10%N)
      by (intros old _ _; simpl; discriminate).
    apply (proj2 (@update_review_keeps_former_mechanic Listing.reviewed d' 1%N
                    Listing.move_to_second
                    (Mechanic.set_rating
                       (new_mechanic 10%N "First" None None (Some true) (Some true))
                       (Some 500%Z) (Some 1%Z))
                    Hup Hother)).
    vm_compute. left. reflexivity.
  - vm_compute in Hup. injection Hup as <-. reflexivity.
Defined.

(** The first review of the scenario. *)
Lemma insert_review_local_witness :
  reviews Ratings.after_first = reviews Ratings.registered ++ [Ratings.first_review]
  /\ map Mechanic.id (mechanics Ratings.after_first)
     = map Mechanic.id (mechanics Ratings.registered).
Proof.
  assert (Hd : forall m, In m (mechanics Ratings.registered) -> location_derived m).
  { intros m [<-|[]] lat lng H. discriminate H. }
  destruct (@insert_review_local example_engine Ratings.registered
              Ratings.after_first Ratings.first_review Hd eq_refl)
    as (H1 & _ & _ & _ & H2 & _).
  split; [exact H1|exact H2].
Defined.

(** ** Writes to mechanic_services *)

Lemma same_offering_key (a b : MechanicService.t) :
  same_offering a b = true <-> offering_key a = offering_key b.
Proof.
  unfold same_offering, offering_key. rewrite andb_true_iff, !N.eqb_eq.
  split; [intros [-> ->]; reflexivity|intro H; now inversion H].
Qed.

Lemma offering_ok_new (d : db) (ms : MechanicService.t) :
  offering_ok d ms = true ->
  (MechanicService.min_price ms <= MechanicService.max_price ms)%Z
  /\ ~ In (offering_key ms) (map offering_key (mechanic_services d)).
Proof.
  unfold offering_ok. rewrite !andb_true_iff, negb_true_iff, Z.leb_le.
  intros [[[Hp _] _] Hnew]. split; [exact Hp|].
  intro Hin. apply in_map_iff in Hin. destruct Hin as (x & Hk & Hx).
  assert (existsb (same_offering ms) (mechanic_services d) = true); [|congruence].
  apply existsb_exists. exists x. split; [exact Hx|]. now apply same_offering_key.
Qed.

(** X15. An accepted insert into [mechanic_services] appends the row and
    keeps the check of the prices and the key (mechanic, service) of the
    stored offerings; a further insert for the same mechanic and service is
    rejected. *)
Theorem insert_mechanic_service_keeps_constraints :
  forall (d d' : db) (ms : MechanicService.t),
    prices_checked d -> offerings_unique d ->
    insert_mechanic_service ms d = Some d' ->
    mechanic_services d' = mechanic_services d ++ [ms]
    /\ prices_checked d'
    /\ offerings_unique d'
    /\ (forall again, offering_key again = offering_key ms ->
          insert_mechanic_service again d' = None).
Proof.
  intros d d' ms Hp Hu Hins. unfold insert_mechanic_service in Hins.
  destruct (offering_ok d ms) eqn:Hok; [|discriminate]. injection Hins as <-.
  apply offering_ok_new in Hok. destruct Hok as [Hprice Hnew].
  split; [reflexivity|]. split; [|split].
  - intros x Hx. simpl in Hx. apply in_app_or in Hx.
    destruct Hx as [Hx|[<-|[]]]; [now apply Hp|exact Hprice].
  - unfold offerings_unique. simpl. rewrite map_app. simpl.
    apply NoDup_app; [exact Hu|repeat constructor; intros []|].
    intros k Hk [<-|[]]. contradiction.
  - intros again Hkey. unfold insert_mechanic_service, offering_ok. simpl.
    assert (H : existsb (same_offering again) (mechanic_services d ++ [ms]) = true).
    { apply existsb_exists. exists ms. split; [apply in_or_app; right; now left|].
      now apply same_offering_key. }
    rewrite H. simpl. now rewrite andb_false_r.
Qed.

(** The idle garage starts to offer the oil change; a second offer of it is
    rejected. *)
Lemma insert_mechanic_service_keeps_constraints_witness :
  exists d',
    insert_mechanic_service (Examples.offer 1%N 1%N 2500%Z 4500%Z) Detail.garages
    = Some d'
    /\ offerings_unique d'
    /\ insert_mechanic_service (Examples.offer 1%N 1%N 100%Z 200%Z) d' = None.
Proof.
  destruct (insert_mechanic_service (Examples.offer 1%N 1%N 2500%Z 4500%Z)
              Detail.garages) as [d'|] eqn:Hins;
    [|vm_compute in Hins; discriminate Hins].
  exists d'. split; [reflexivity|].
  assert (Hp : prices_checked Detail.garages).
  { intros x [<-|[<-|[]]]; simpl; lia. }
  assert (Hu : offerings_unique Detail.garages).
  { unfold offerings_unique. simpl.
    apply NoDup_cons; [|apply NoDup_cons; [|apply NoDup_nil]]; simpl;
      unfold offering_key; simpl; intuition congruence. }
  destruct (@insert_mechanic_service_keeps_constraints Detail.garages d'
              (Examples.offer 1%N 1%N 2500%Z 4500%Z) Hp Hu Hins)
    as (_ & _ & Hu' & Hagain).
  split; [exact Hu'|]. apply Hagain. reflexivity.
Defined.

(** ** The answers of GET /api/mechanics/:id *)




(** ** The range check of the stand-alone server *)






(** ** The catalog in two languages *)

Lemma insert_row_map {A B} (f : A -> B) (leb : A -> A -> bool)
    (leb' : B -> B -> bool) (r : A) (l : list A) :
  (forall a b, leb a b = leb' (f a) (f b)) ->
  map f (insert_row leb r l) = insert_row leb' (f r) (map f l).
Proof.
  intro H. induction l as [|x l IH]; simpl; [reflexivity|].
  rewrite <- H. destruct (leb x r); simpl; [now rewrite IH|reflexivity].
Qed.

Lemma order_by_map {A B} (f : A -> B) (leb : A -> A -> bool)
    (leb' : B -> B -> bool) (l : list A) :
  (forall a b, leb a b = leb' (f a) (f b)) ->
  map f (order_by leb l) = order_by leb' (map f l).
Proof.
  intro H. unfold order_by.
  assert (G : forall acc,
             map f (fold_left (fun acc r => insert_row leb r acc) l acc)
             = fold_left (fun acc r => insert_row leb' r acc) (map f l) (map f acc)).
  { induction l as [|r l IH]; intro acc; simpl; [reflexivity|].
    rewrite IH. now rewrite (insert_row_map f leb leb' r acc H). }
  exact (G []).
Qed.

(** X19. Under the key of [service_translations], the language changes the
    names and the descriptions of the catalog only: in every language the
    rows are those of the active services in the order of their category and
    canonical name, with the id, the category and the duration of the
    service. *)
Theorem select_services_any_language :
  forall (E : Engine) (d : db) (language : string),
    NoDup (map (fun st => (ServiceTranslation.service_id st,
                           ServiceTranslation.language_code st))
               (service_translations d)) ->
    map (fun row => (sr_id row, sr_category row, sr_estimated_duration row))
      (select_services d language)
    = map (fun s => (Service.id s, Service.category s, Service.estimated_duration s))
        (order_by
           (fun a b =>
              then_by (fun x y => nulls_last text_leb (Service.category x)
                                             (Service.category y))
                      (fun x y => text_leb (Service.name x) (Service.name y))
                      a b)
           (filter (fun s => is_true (Service.is_active s)) (services d))).
Proof.
  intros E d language Hkey. unfold select_services.
  rewrite map_map.
  transitivity
    (map (fun s => (Service.id s, Service.category s, Service.estimated_duration s))
       (map fst
          (order_by by_category_name
             (filter (fun r : translated => is_true (Service.is_active (fst r)))
                     (from_services_left_join d language)))));
    [now rewrite map_map|].
  rewrite (order_by_map fst by_category_name
             (fun a b =>
                then_by (fun x y => nulls_last text_leb (Service.category x)
                                               (Service.category y))
                        (fun x y => text_leb (Service.name x) (Service.name y))
                        a b))
    by reflexivity.
  rewrite (map_fst_filter (fun s => is_true (Service.is_active s))).
  now rewrite (@from_services_left_join_services d language Hkey).
Qed.

(** The sample catalog in Spanish and in a language without translations. *)
Lemma select_services_any_language_witness :
  map (fun row => (sr_id row, sr_category row, sr_estimated_duration row))
    (@select_services example_engine Catalog.sample "es")
  = map (fun row => (sr_id row, sr_category row, sr_estimated_duration row))
      (@select_services example_engine Catalog.sample "fr").
Proof.
  assert (Hkey : NoDup (map (fun st => (ServiceTranslation.service_id st,
                                        ServiceTranslation.language_code st))
                            (service_translations Catalog.sample)))
    by distinct_keys.
  rewrite (@select_services_any_language example_engine Catalog.sample "es" Hkey).
  rewrite (@select_services_any_language example_engine Catalog.sample "fr" Hkey).
  reflexivity.
Defined.

(** X20. The two handlers of the catalog differ on the empty language: the
    route takes ['en'] for a missing language only and passes the empty one
    to the statement, the stand-alone server takes ['en'] for both. For
    every other language they run the same statement and answer with the
    same status. *)
Theorem server_get_services_language :
  forall (run_services : string -> option (list service_row))
         (language : option string),
    (snd (server_get_services run_services language)
     = snd (get_services run_services language)
     <-> language <> Some ""%string)
    /\ (language <> Some ""%string ->
        status (fst (server_get_services run_services language))
        = status (fst (get_services run_services language)))
    /\ snd (server_get_services run_services (Some ""%string))
       = snd (get_services run_services None).
Proof.
  intros run language. unfold server_get_services, get_services.
  destruct language as [s|]; simpl.
  - destruct (String.eqb_spec s "") as [->|Hs]; simpl.
    + split; [|split].
      * split; [|intro H; now contradiction H].
        destruct (run "en"%string), (run ""%string); simpl; discriminate.
      * intro H. now contradiction H.
      * destruct (run "en"%string); reflexivity.
    + split; [|split].
      * split; [intros _ H; injection H as ->; now apply Hs|].
        intros _. destruct (run s); reflexivity.
      * intros _. destruct (run s); reflexivity.
      * destruct (run "en"%string); reflexivity.
  - split; [|split].
    + split; [discriminate|]. intros _. destruct (run "en"%string); reflexivity.
    + intros _. destruct (run "en"%string); reflexivity.
    + destruct (run "en"%string); reflexivity.
Qed.

(** ** The search and the view *)

Lemma mechanics_key (l : list Mechanic.t) (a b : Mechanic.t) :
  NoDup (map Mechanic.id l) -> In a l -> In b l ->
  Mechanic.id a = Mechanic.id b -> a = b.
Proof.
  induction l as [|x l IH]; intros Hkey Ha Hb Hid; [destruct Ha|].
  simpl in Hkey. inversion Hkey as [|y ys Hnotin Hkey']; subst y ys.
  destruct Ha as [->|Ha], Hb as [->|Hb].
  - reflexivity.
  - exfalso. apply Hnotin. rewrite Hid. now apply in_map.
  - exfalso. apply Hnotin. rewrite <- Hid. now apply in_map.
  - now apply IH.
Qed.

Lemma MIN_same (l l' : list Z) :
  (forall x, In x l <-> In x l') -> MIN l = MIN l'.
Proof.
  intro H. destruct l as [|a l].
  - destruct l' as [|b l']; [reflexivity|].
    exfalso. apply (proj2 (H b)). now left.
  - assert (Hne : a :: l <> []) by discriminate.
    assert (Hne' : l' <> []).
    { intros ->. apply (proj1 (H a)). now left. }
    destruct (MIN_spec Hne) as (lo & -> & Hin & Hle).
    destruct (MIN_spec Hne') as (lo' & -> & Hin' & Hle').
    f_equal. apply Z.le_antisymm.
    + apply Hle, H, Hin'.
    + apply Hle', H, Hin.
Qed.

Lemma MAX_same (l l' : list Z) :
  (forall x, In x l <-> In x l') -> MAX l = MAX l'.
Proof.
  intro H. destruct l as [|a l].
  - destruct l' as [|b l']; [reflexivity|].
    exfalso. apply (proj2 (H b)). now left.
  - assert (Hne : a :: l <> []) by discriminate.
    assert (Hne' : l' <> []).
    { intros ->. apply (proj1 (H a)). now left. }
    destruct (MAX_spec Hne) as (hi & -> & Hin & Hle).
    destruct (MAX_spec Hne') as (hi' & -> & Hin' & Hle').
    f_equal. apply Z.le_antisymm.
    + apply Hle', H, Hin.
    + apply Hle, H, Hin'.
Qed.

Lemma map_same {A B} (f : A -> B) (l l' : list A) :
  (forall x, In x l <-> In x l') ->
  forall y, In y (map f l) <-> In y (map f l').
Proof.
  intros H y. rewrite !in_map_iff.
  split; intros (x & Hy & Hx); exists x; (split; [exact Hy|now apply H]).
Qed.

(** X21. Under the primary key of [mechanics], a row of the search without
    filter agrees with the row of the mechanic in the view: the name, the
    rating and the two prices are the same. *)
Theorem find_mechanics_within_radius_as_view :
  forall (E : Engine) (d : db) (lat lng : Q) (r : Z) (row : nearby_row),
    NoDup (map Mechanic.id (mechanics d)) ->
    In row (find_mechanics_within_radius d lat lng r None) ->
    exists v,
      In v (active_mechanics_with_services d)
      /\ vr_id v = nr_id row
      /\ vr_business_name v = nr_business_name row
      /\ vr_rating v = nr_rating row
      /\ vr_min_service_price v = nr_min_price row
      /\ vr_max_service_price v = nr_max_price row.
Proof.
  intros E d lat lng r row Hkey Hrow.
  unfold find_mechanics_within_radius in Hrow.
  apply order_by_In, in_map_iff in Hrow. destruct Hrow as (grp & <- & Hgrp).
  destruct (select_row_fields lat lng grp) as (Sid & Sname & Srating).
  destruct (@result_groups_mechanic E d lat lng r None grp (fst grp) Hgrp
              (or_introl eq_refl)) as (Hm0 & Hjoin0 & Hwhere0).
  assert (Hprices :
            nr_min_price (select_row lat lng grp)
            = MIN (map MechanicService.min_price
                     (map (fun x : joined => snd (fst x)) (group_rows grp)))
            /\ nr_max_price (select_row lat lng grp)
               = MAX (map MechanicService.max_price
                        (map (fun x : joined => snd (fst x)) (group_rows grp)))).
  { unfold select_row. destruct (fst grp) as [[m ms] s]. split; reflexivity. }
  destruct Hprices as [Smin Smax].
  destruct (fst grp) as [[m0 ms0] s0] eqn:Hfirst. simpl in Hm0, Sid, Sname, Srating.
  pose proof (where_clause_true _ _ _ _ _ _ _ Hwhere0) as (Ha & Hv & Hav0 & Hr & _).
  apply from_mechanics_join_In in Hjoin0.
  destruct Hjoin0 as (_ & Hms0 & Hs0 & e10 & e20).
  destruct (@view_group_of d m0 ms0 s0) as (vg & Hvg & Hin0 & Hvid); auto.
  destruct (@view_group_row d vg (fst vg) Hvg (or_introl eq_refl))
    as (Hm1 & _).
  assert (Hsame1 : fst (fst (fst vg)) = m0)
    by (apply (@mechanics_key (mechanics d)); auto).
  assert (Hoffers : forall ms,
            In ms (map (fun x : joined => snd (fst x)) (group_rows vg)) <->
            In ms (map (fun x : joined => snd (fst x)) (group_rows grp))).
  { intro ms. rewrite !in_map_iff. split.
    - intros (x & <- & Hx).
      destruct (@view_group_row d vg x Hvg Hx)
        as (Hm & Hms & Hs & Hid & e1 & e2 & _ & _ & Hav).
      destruct x as [[m ms] s]. simpl in Hm, Hms, Hs, Hid, e1, e2, Hav. simpl.
      assert (m = m0) as ->
        by (apply (@mechanics_key (mechanics d)); auto; congruence).
      exists (m0, ms, s). split; [reflexivity|].
      apply (@group_by_whole _ same_group same_group_refl same_group_sym
               same_group_trans
               (filter (where_clause lat lng r None) (from_mechanics_join d)) grp).
      + exact Hgrp.
      + apply filter_In. split.
        * apply from_mechanics_join_In. repeat split; auto.
        * unfold where_clause. rewrite Ha, Hv, Hav, Hr. reflexivity.
      + rewrite Hfirst. rewrite <- (same_group_refl (m0, ms0, s0)). reflexivity.
    - intros (x & <- & Hx).
      destruct (@result_groups_mechanic E d lat lng r None grp x Hgrp Hx)
        as (Hm & Hjoin & Hwhere).
      pose proof (@group_rows_alike _ same_group same_group_refl _ _ _ Hgrp Hx)
        as Hsame.
      apply same_group_fields in Hsame. destruct Hsame as (Hid & _).
      rewrite Hfirst in Hid.
      destruct x as [[m ms] s]. simpl in Hm, Hid. simpl.
      assert (m = m0) as ->
        by (apply (@mechanics_key (mechanics d)); auto).
      pose proof (where_clause_true _ _ _ _ _ _ _ Hwhere) as (_ & _ & Hav & _).
      exists (m0, ms, s). split; [reflexivity|].
      apply (@group_by_whole _ same_joined_mechanic same_joined_mechanic_refl
               same_joined_mechanic_sym same_joined_mechanic_trans
               (filter view_where (from_mechanics_join d)) vg).
      + exact Hvg.
      + apply filter_In. split; [exact Hjoin|]. apply view_where_true. auto.
      + unfold same_joined_mechanic. simpl. rewrite Hsame1. apply N.eqb_refl. }
  exists (select_view vg). split.
  { unfold active_mechanics_with_services. apply in_map. exact Hvg. }
  rewrite Sid, Sname, Srating, Smin, Smax. unfold select_view.
  cbn [vr_id vr_business_name vr_rating vr_min_service_price
       vr_max_service_price].
  rewrite Hsame1. repeat split.
  - apply MIN_same, map_same, Hoffers.
  - apply MAX_same, map_same, Hoffers.
Qed.

(** The mechanic of Los Angeles, in the search and in the view. *)
Lemma find_mechanics_within_radius_as_view_witness :
  exists v,
    In v (@active_mechanics_with_services example_engine Examples.los_angeles)
    /\ vr_id v = 10%N
    /\ vr_business_name v = "LA Auto"%string
    /\ vr_rating v = Some 0%Z
    /\ vr_min_service_price v = Some 3000%Z
    /\ vr_max_service_price v = Some 5000%Z.
Proof.
  assert (Hkey : NoDup (map Mechanic.id (mechanics Examples.los_angeles)))
    by distinct_keys.
  apply (@find_mechanics_within_radius_as_view example_engine
           Examples.los_angeles (340522 # 10000) (-1182437 # 10000) 1%Z
           (mk_nearby_row 10%N "LA Auto" (Some 0%Z) (Some 0%Z)
              (Some 3000%Z) (Some 5000%Z)) Hkey).
  vm_compute. left. reflexivity.
Defined.

(** ** The primary key of mechanics *)

Lemma update_mechanics_ids (target : uuid) (set : Mechanic.t -> Mechanic.t)
    (d : db) :
  (forall m, Mechanic.id (set m) = Mechanic.id m) ->
  map Mechanic.id (mechanics (update_mechanics target set d))
  = map Mechanic.id (mechanics d).
Proof.
  intro Hset. unfold update_mechanics. simpl. rewrite map_map.
  apply map_ext. intro m.
  destruct (N.eqb (Mechanic.id m) target); [|reflexivity].
  destruct (update_mechanic_location_keeps (set m)) as (-> & _). apply Hset.
Qed.

Lemma fold_update_mechanic_rating_ids (rows : list Review.t) (d : db) :
  map Mechanic.id
    (mechanics (fold_left (fun acc NEW => update_mechanic_rating NEW acc) rows d))
  = map Mechanic.id (mechanics d).
Proof.
  revert d; induction rows as [|r rows IH]; intro d; simpl; [reflexivity|].
  rewrite IH. apply update_mechanic_rating_ids.
Qed.

(** X22. The writes keep the primary key of [mechanics]: if no two stored
    mechanics share an id, so it is after an accepted insert of a mechanic,
    after an update of mechanics that does not assign the id, and after an
    insert or an update of reviews; the last three leave the list of the ids
    as it was. *)
Theorem writes_keep_primary_key :
  forall d : db,
    NoDup (map Mechanic.id (mechanics d)) ->
    (forall NEW d', insert_mechanic NEW d = Some d' ->
       NoDup (map Mechanic.id (mechanics d'))
       /\ map Mechanic.id (mechanics d')
          = map Mechanic.id (mechanics d) ++ [Mechanic.id NEW])
    /\ (forall target set,
          (forall m, Mechanic.id (set m) = Mechanic.id m) ->
          NoDup (map Mechanic.id (mechanics (update_mechanics target set d)))
          /\ map Mechanic.id (mechanics (update_mechanics target set d))
             = map Mechanic.id (mechanics d))
    /\ (forall r d', insert_review r d = Some d' ->
          NoDup (map Mechanic.id (mechanics d'))
          /\ map Mechanic.id (mechanics d') = map Mechanic.id (mechanics d))
    /\ (forall target set d', update_review target set d = Some d' ->
          NoDup (map Mechanic.id (mechanics d'))
          /\ map Mechanic.id (mechanics d') = map Mechanic.id (mechanics d)).
Proof.
  intros d Hkey. split; [|split; [|split]].
  - intros NEW d' Hins. unfold insert_mechanic in Hins.
    destruct (has_mechanic d (Mechanic.id NEW)) eqn:Hhas; [discriminate|].
    injection Hins as <-. simpl. rewrite map_app. simpl.
    destruct (update_mechanic_location_keeps NEW) as (-> & _).
    split; [|reflexivity].
    apply NoDup_app; [exact Hkey|repeat constructor; intros []|].
    intros id Hid [<-|[]]. now apply (has_mechanic_false d (Mechanic.id NEW)).
  - intros target set Hset.
    rewrite (update_mechanics_ids target set d Hset). split; [exact Hkey|reflexivity].
  - intros r d' Hins. apply insert_review_Some in Hins. destruct Hins as [-> _].
    rewrite (update_mechanic_rating_ids r (set_reviews d (reviews d ++ [r]))).
    split; [exact Hkey|reflexivity].
  - intros target set d' Hup. unfold update_review in Hup.
    destruct (forallb _ _); [|discriminate]. injection Hup as <-.
    rewrite fold_update_mechanic_rating_ids. split; [exact Hkey|reflexivity].
Qed.

(** A second mechanic is registered. *)
Lemma writes_keep_primary_key_witness :
  NoDup (map Mechanic.id (mechanics Listing.reviewed))
  /\ map Mechanic.id (mechanics Listing.reviewed)
     = map Mechanic.id (mechanics Listing.two_mechanics).
Proof.
  assert (Hkey : NoDup (map Mechanic.id (mechanics Listing.two_mechanics)))
    by distinct_keys.
  apply (proj1 (proj2 (proj2 (@writes_keep_primary_key Listing.two_mechanics Hkey)))
           (Review.mk 1%N 10%N 5%Z (Some true))).
  reflexivity.
Defined.
